(** * Incremental annotation pipeline: refinement, measurement, verification

    A shallow embedding of the annotation pipeline of the repository
    (eyes_extractor.py, measurement_tool.py, verify_results.py) and the
    properties its specification states about it, followed by the stages
    around it (animal_extractor.py, data_selector.py) and the properties
    that tie the stages together.

    Conventions of the embedding.
    - Pixel coordinates are integers ([Z]); a point is the pair [[x, y]].
    - Python floats are embedded as exact rationals ([Q]).  The floats of
      the modelled code come from integer pixel data (halves and sixths of
      integers, their quotients, square roots of integers) and are at once
      truncated to an integer or rounded to two decimals; for coordinates
      of the size of an image the exact value decides that result, so the
      embedding computes with the exact value.  [Precision] states the
      ranges in which this holds.  The floats the detection
      stage receives from its model (confidence, box, outline) are rounded
      to four decimals or truncated when they are stored.
    - A Python call that raises is embedded as [None] in the option monad.
    - External collaborators (the image reader, the refinement detector, the
      polygon rasteriser) are section variables.
    - The operator's interrupt reaches the refinement loop of [Refiner] at
      a detector call; [Signals] is the loop with the interrupt also
      arriving while a sibling is masked, and with the windows closed
      before the document is saved. *)

From Stdlib Require Import ZArith QArith Qabs Qround Lia.
From stdpp Require Import base option list strings pretty gmap sorting.

Local Open Scope Z_scope.

(** ** The annotation document *)

(** A point [[x, y]] and a contour (polygon) [[[x1,y1],[x2,y2],...]]. *)
Definition Point : Type := Z * Z.
Definition Contour : Type := list Point.

(** The value of [obj.get("object_id", "unknown")]. *)
Inductive IdValue : Type :=
  | IdInt (n : Z)
  | IdUnknown.

(** The ["segmentation"] entry of an object: a JSON string that decodes
    and reshapes to a list of points, or one that is empty or makes
    [json.loads] or [reshape(-1, 2)] raise. *)
Inductive SegData : Type :=
  | SegPoints (pts : Contour)
  | SegCorrupt.

(** One entry of [record["objects"]].  Keys that a stage may find absent
    are optional fields.  The contours under ["eyes"] are kept as JSON
    strings in the document; they are embedded decoded.  [_tmp_eye_L] and
    [_tmp_eye_R] hold the arrays the measurement pass stores between its
    two phases. *)
Record ObjectRecord : Type := mkObject {
  object_id : option Z;
  class : string;
  confidence : Q;
  bbox : Z * Z * Z * Z;
  segmentation : option SegData;
  eyes : option (list Contour);
  _tmp_eye_L : option Point;
  _tmp_eye_R : option Point;
  eyes_dist : option Q;
  eye_L_center : option Point;
  eye_R_center : option Point
}.

(** One entry of [record["pairs"]]. *)
Record PairRecord : Type := mkPair {
  obj_1_id : IdValue;
  obj_2_id : IdValue;
  right_eye_dist : Q
}.

(** The record of one image.  The detection stage always writes the
    ["objects"] key (animal_extractor.py, lines 100-115), so it is a plain
    field; ["pairs"] exists only after a measurement pass. *)
Record AnnotationRecord : Type := mkRecord {
  width : Z;
  height : Z;
  animals_found : Z;
  objects : list ObjectRecord;
  pairs : option (list PairRecord)
}.

(** The document: a Python dict from image name to record, in insertion
    order. *)
Abbreviation Data := (list (string * AnnotationRecord)).

Definition set_objects (objs : list ObjectRecord) (r : AnnotationRecord)
  : AnnotationRecord :=
  mkRecord (width r) (height r) (animals_found r) objs (pairs r).

Definition set_pairs (ps : list PairRecord) (r : AnnotationRecord)
  : AnnotationRecord :=
  mkRecord (width r) (height r) (animals_found r) (objects r) (Some ps).

(** [obj["eyes"] = eyes_data] *)
Definition set_eyes (e : list Contour) (o : ObjectRecord) : ObjectRecord :=
  mkObject (object_id o) (class o) (confidence o) (bbox o) (segmentation o)
    (Some e) (_tmp_eye_L o) (_tmp_eye_R o)
    (eyes_dist o) (eye_L_center o) (eye_R_center o).

(** [obj["_tmp_eye_L"] = l; obj["_tmp_eye_R"] = r] *)
Definition set_tmp (l r : Point) (o : ObjectRecord) : ObjectRecord :=
  mkObject (object_id o) (class o) (confidence o) (bbox o) (segmentation o)
    (eyes o) (Some l) (Some r)
    (eyes_dist o) (eye_L_center o) (eye_R_center o).

(** [obj["eyes_dist"] = d; obj["eye_L_center"] = l; obj["eye_R_center"] = r] *)
Definition set_metrics (d : Q) (l r : Point) (o : ObjectRecord)
  : ObjectRecord :=
  mkObject (object_id o) (class o) (confidence o) (bbox o) (segmentation o)
    (eyes o) (_tmp_eye_L o) (_tmp_eye_R o)
    (Some d) (Some l) (Some r).

(** [obj.pop("_tmp_eye_L", None); obj.pop("_tmp_eye_R", None)] *)
Definition pop_tmp (o : ObjectRecord) : ObjectRecord :=
  mkObject (object_id o) (class o) (confidence o) (bbox o) (segmentation o)
    (eyes o) None None
    (eyes_dist o) (eye_L_center o) (eye_R_center o).

(** ** Measurement (measurement_tool.py) *)

Module Measurement.

(** The three spatial moments [_get_centroid] reads. *)
Record Moments : Type := mkMoments { m00 : Q; m10 : Q; m01 : Q }.

Definition zero_moments : Moments := mkMoments 0 0 0.

(** The accumulation loop of OpenCV's contour moments (Green's formula):
    for each edge from [prev] to the next point, [dxy] is the cross
    product; [a00], [a10], [a01] are the running sums. *)
Fixpoint green_sums (prev : Point) (pts : list Point) (acc : Z * Z * Z)
  : Z * Z * Z :=
  match pts with
  | [] => acc
  | p :: rest =>
      let '(a00, a10, a01) := acc in
      let dxy := prev.1 * p.2 - p.1 * prev.2 in
      green_sums p rest
        (a00 + dxy, a10 + dxy * (prev.1 + p.1), a01 + dxy * (prev.2 + p.2))
  end.

(** [cv2.moments(pts)] on an N x 2 integer array, which OpenCV reads as a
    contour: the walk starts from the last point; a zero [a00] (the test is
    [fabs(a00) > FLT_EPSILON], on an integer) leaves every moment zero;
    otherwise the sums are scaled by a half and a sixth carrying the sign
    of [a00], so that [m00] is the absolute area.  The source reads the
    coordinates as 32-bit integers and computes in doubles; the integers
    and rationals here are its values for a contour in the range of
    [Precision.exact_contour]. *)
Definition cv_moments (pts : Contour) : Moments :=
  match last pts with
  | None => zero_moments
  | Some pl =>
      let '(a00, a10, a01) := green_sums pl pts (0, 0, 0) in
      if a00 =? 0 then zero_moments
      else if 0 <? a00 then
        mkMoments (inject_Z a00 * (1 # 2))
                  (inject_Z a10 * (1 # 6)) (inject_Z a01 * (1 # 6))
      else
        mkMoments (inject_Z a00 * (-1 # 2))
                  (inject_Z a10 * (-1 # 6)) (inject_Z a01 * (-1 # 6))
  end.

(** [int(x)] on a float, and [.astype(int)]: truncation toward zero. *)
Definition Qtrunc (q : Q) : Z := Z.quot (Qnum q) (Z.pos (Qden q)).

Definition sum_Z (l : list Z) : Z := foldr Z.add 0 l.

(** [np.mean(pts, axis=0).astype(int)].  On an empty array the mean is
    not-a-number and the result is not a point: [None]. *)
Definition mean_point (pts : Contour) : option Point :=
  match pts with
  | [] => None
  | _ :: _ =>
      let n := Z.of_nat (length pts) in
      Some (Qtrunc (inject_Z (sum_Z (fst <$> pts)) / inject_Z n)%Q,
            Qtrunc (inject_Z (sum_Z (snd <$> pts)) / inject_Z n)%Q)
  end.

(** [_get_centroid] (lines 31-39). *)
Definition _get_centroid (seg_data : Contour) : option Point :=
  let moments := cv_moments seg_data in
  if negb (Qeq_bool (m00 moments) 0) then
    let cx := Qtrunc (m10 moments / m00 moments)%Q in
    let cy := Qtrunc (m01 moments / m00 moments)%Q in
    Some (cx, cy)
  else mean_point seg_data.

(** [list.sort(key=...)]: a stable sort, here by insertion. *)
Fixpoint insert_by_key {A : Type} (key : A → Z) (x : A) (l : list A)
  : list A :=
  match l with
  | [] => [x]
  | y :: t => if key x <=? key y then x :: y :: t
              else y :: insert_by_key key x t
  end.

Definition sort_by_key {A : Type} (key : A → Z) (l : list A) : list A :=
  foldr (insert_by_key key) [] l.

(** The body of the inner loop of [_preprocess_coordinates] (lines 45-51).
    [len(eyes) == 2] selects the objects; a centroid that is not a point
    makes the sort key [p[0]] raise. *)
Definition preprocess_object (obj : ObjectRecord) : option ObjectRecord :=
  let eyes := default [] (eyes obj) in
  if decide (length eyes = 2%nat) then
    centroids ← mapM _get_centroid eyes;
    let centroids := sort_by_key fst centroids in
    l ← centroids !! 0%nat;
    r ← centroids !! 1%nat;
    Some (set_tmp l r obj)
  else Some obj.

Definition preprocess_record (record : AnnotationRecord)
  : option AnnotationRecord :=
  objs ← mapM preprocess_object (objects record);
  Some (set_objects objs record).

(** [_preprocess_coordinates] (lines 41-52). *)
Definition _preprocess_coordinates (data : Data) : option Data :=
  mapM (λ '(img_name, record),
          record' ← preprocess_record record; Some (img_name, record')) data.

(** The radicand of [_calculate_euclidean_distance] (line 29). *)
Definition squared_distance (p1 p2 : Point) : Z :=
  (p1.1 - p2.1) ^ 2 + (p1.2 - p2.2) ^ 2.

(** [round(math.sqrt(n), 2)] for an integer [n]: the number of hundredths
    nearest to [100 * sqrt n], over 100.  No tie arises: [100 * sqrt n] is
    never an integer and a half.  The source rounds the root to a double
    first; this is its value for [n] in the range of
    [Precision.exact_distance]. *)
Definition round2_sqrt (n : Z) : Q :=
  ((Z.sqrt (40000 * n) + 1) / 2) # 100.

(** [round(self._calculate_euclidean_distance(p1, p2), 2)] *)
Definition rounded_distance (p1 p2 : Point) : Q :=
  round2_sqrt (squared_distance p1 p2).

(** [itertools.combinations(l, 2)] *)
Fixpoint combinations2 {A : Type} (l : list A) : list (A * A) :=
  match l with
  | [] => []
  | x :: t => (pair x <$> t) ++ combinations2 t
  end.

(** Line 63: ["_tmp_eye_L" in obj and "_tmp_eye_R" in obj]. *)
Definition has_tmp (obj : ObjectRecord) : bool :=
  bool_decide (is_Some (_tmp_eye_L obj))
  && bool_decide (is_Some (_tmp_eye_R obj)).

(** Part A of [_calculate_all_metrics] for one object (lines 63-67). *)
Definition metrics_object (obj : ObjectRecord) : ObjectRecord :=
  match _tmp_eye_L obj, _tmp_eye_R obj with
  | Some l, Some r => set_metrics (rounded_distance l r) l r obj
  | _, _ => obj
  end.

(** [obj.get("object_id", "unknown")] *)
Definition id_or_unknown (obj : ObjectRecord) : IdValue :=
  match object_id obj with Some n => IdInt n | None => IdUnknown end.

(** The body of the loop of Part B (lines 73-80); reading a missing
    ["eye_R_center"] raises. *)
Definition pair_record (ab : ObjectRecord * ObjectRecord)
  : option PairRecord :=
  ra ← eye_R_center ab.1;
  rb ← eye_R_center ab.2;
  Some (mkPair (id_or_unknown ab.1) (id_or_unknown ab.2)
               (rounded_distance ra rb)).

(** One iteration of the outer loop of [_calculate_all_metrics]
    (lines 58-86). *)
Definition metrics_record (record : AnnotationRecord)
  : option AnnotationRecord :=
  let objects := metrics_object <$> objects record in
  let objs_with_eyes := filter (λ o, has_tmp o = true) objects in
  prs ← mapM pair_record (combinations2 objs_with_eyes);
  Some (set_pairs prs (set_objects (pop_tmp <$> objects) record)).

Definition pair_count (record : AnnotationRecord) : nat :=
  length (default [] (pairs record)).

(** [_calculate_all_metrics] (lines 54-88): the document and
    [total_pair_count]. *)
Definition _calculate_all_metrics (data : Data) : option (Data * nat) :=
  data' ← mapM (λ '(img_name, record),
                  record' ← metrics_record record;
                  Some (img_name, record')) data;
  Some (data', sum_list (pair_count ∘ snd <$> data')).

(** The computation of [run] (lines 171-172). *)
Definition measure (raw_data : Data) : option (Data * nat) :=
  data ← _preprocess_coordinates raw_data;
  _calculate_all_metrics data.

(** What the pass does to one object: both phases and the clean-up. *)
Definition measured_object (obj : ObjectRecord) : option ObjectRecord :=
  pop_tmp ∘ metrics_object <$> preprocess_object obj.

(** No temporary key is present, as in every document read from disk:
    the pass removes both keys before the document is saved. *)
Definition no_tmp (obj : ObjectRecord) : Prop :=
  _tmp_eye_L obj = None ∧ _tmp_eye_R obj = None.

(** The objects the metrics are computed for. *)
Definition two_eyes (obj : ObjectRecord) : Prop :=
  length (default [] (eyes obj)) = 2%nat.

#[global] Instance two_eyes_dec (obj : ObjectRecord) : Decision (two_eyes obj).
Proof. unfold two_eyes. apply _. Defined.

(** Every contour of an object with two contours has a point. *)
Definition usable_eyes (obj : ObjectRecord) : Prop :=
  two_eyes obj → Forall (λ contour, contour ≠ []) (default [] (eyes obj)).

#[global] Instance no_tmp_dec (obj : ObjectRecord) : Decision (no_tmp obj).
Proof. unfold no_tmp. apply _. Defined.

#[global] Instance usable_eyes_dec (obj : ObjectRecord)
  : Decision (usable_eyes obj).
Proof. unfold usable_eyes. apply _. Defined.

(** The same over a whole document. *)
Definition usable_data (data : Data) : Prop :=
  Forall (λ entry, Forall usable_eyes (objects entry.2)) data.

#[global] Instance usable_data_dec (data : Data) : Decision (usable_data data).
Proof. unfold usable_data. apply _. Defined.

(** The record with another content under ["pairs"]. *)
Definition with_pairs (old : option (list PairRecord)) (r : AnnotationRecord)
  : AnnotationRecord :=
  mkRecord (width r) (height r) (animals_found r) (objects r) old.

End Measurement.

(** ** Mutual-exclusion masking (eyes_extractor.py, lines 70-88) *)

(** A BGR pixel, and an image as [height] rows of [width] pixels. *)
Definition Color : Type := Z * Z * Z.
Abbreviation Image := (list (list Color)).

Definition black : Color := (0, 0, 0).

Definition pixel (img : Image) (x y : nat) : option Color :=
  row ← img !! y; row !! x.

(** A bound [b] of a Python slice over a dimension of [n] entries: a
    negative bound counts from the end, and every bound is clamped. *)
Definition slice_bound (n : nat) (b : Z) : nat :=
  if b <? 0 then Z.to_nat (Z.max (b + Z.of_nat n) 0)
  else Z.to_nat (Z.min b (Z.of_nat n)).

(** Whether index [i] lies in the slice [lo:hi]. *)
Definition in_slice (n : nat) (lo hi : Z) (i : nat) : bool :=
  bool_decide (slice_bound n lo ≤ i)%nat
  && bool_decide (i < slice_bound n hi)%nat.

Section Masking.

(** The rasteriser of [cv2.fillPoly]: [covers pts x y] tells whether the
    call paints the pixel in column [x] of row [y] for the polygon [pts]. *)
Variable covers : Contour → nat → nat → bool.

(** [cv2.fillPoly(img, [pts], color)] *)
Definition fillPoly (img : Image) (pts : Contour) (color : Color) : Image :=
  imap (λ y row, imap (λ x c, if covers pts x y then color else c) row) img.

(** One iteration of the sibling loop (lines 76-84): the target index is
    passed over, and so is a sibling whose ["segmentation"] is missing or
    does not decode. *)
Definition mask_sibling (obj_index : nat) (clean_img : Image)
    (entry : nat * ObjectRecord) : Image :=
  let '(other_idx, other_obj) := entry in
  if decide (other_idx = obj_index) then clean_img
  else match segmentation other_obj with
       | Some (SegPoints pts) => fillPoly clean_img pts black
       | Some SegCorrupt | None => clean_img
       end.

Definition mask_siblings (img_bgr : Image) (obj_index : nat)
    (all_objects : list ObjectRecord) : Image :=
  foldl (mask_sibling obj_index) img_bgr (imap pair all_objects).

(** Lines 87-88: [masked_input = np.zeros_like(clean_img);
    masked_input[y1:y2, x1:x2] = clean_img[y1:y2, x1:x2]]. *)
Definition crop_to_bbox (clean_img : Image) (box : Z * Z * Z * Z) : Image :=
  let '(x1, y1, x2, y2) := box in
  imap (λ y row,
          imap (λ x c,
                  if in_slice (length clean_img) y1 y2 y
                     && in_slice (length row) x1 x2 x
                  then c else black) row) clean_img.

(** The image handed to the refinement detector. *)
Definition masked_input (img_bgr : Image) (obj : ObjectRecord)
    (obj_index : nat) (all_objects : list ObjectRecord) : Image :=
  crop_to_bbox (mask_siblings img_bgr obj_index all_objects) (bbox obj).

End Masking.

(** ** Incremental refinement (eyes_extractor.py, lines 138-191) *)

Module Refiner.

(** What one detector invocation (SAM3 inference followed by
    [cv2.findContours] on each mask) comes back with: for every mask the
    external contours found in it, or an exception raised during the call.
    The document changes only when a call returns, so an interrupt that
    arrives elsewhere in the loop and reaches [run] leaves the document an
    interrupt at the next call would leave.  An interrupt that arrives
    while a sibling is masked does not reach [run]: see [Signals]. *)
Inductive Reply : Type :=
  | Masks (contours_per_mask : list (list Contour))
  | Interrupted
  | Failed.

Inductive Exn : Type :=
  | KeyboardInterrupt
  | OtherError.

(** Instrumentation: what the run loop asked of the outside world. *)
Inductive Event : Type :=
  | DetectorCall (image_pos : nat) (obj_index : nat) (reply : Reply)
  | KeyPress (image_pos : nat) (key : Z).

(** Lines 110-114: contours of more than three points are kept. *)
Definition collect_contours (masks : list (list Contour)) : list Contour :=
  filter (λ contour_points, 3 < length contour_points)%nat (concat masks).

(** Line 166: ["eyes" in obj and obj["eyes"]]. *)
Definition has_eyes (obj : ObjectRecord) : bool :=
  match eyes obj with
  | Some (_ :: _) => true
  | Some [] | None => false
  end.

Section Run.

Variable covers : Contour → nat → nat → bool.
(** The state of the outside world, the detector and the keyboard. *)
Variable World : Type.
Variable sam3 : World → Image → Reply * World.
Variable waitKey : World → Z * World.
(** [cv2.imread(os.path.join(image_root, img_name))] *)
Variable imread : string → option Image.
(** [self.show] *)
Variable show : bool.

(** The pipeline object while [run] executes: [self.data], the outside
    world, the events so far, and the JSON file on disk. *)
Record State : Type := mkState {
  data : Data;
  world : World;
  events : list Event;
  disk : Data
}.

(** The objects loop of one image: the list being mutated, the world,
    the events and [is_modified]. *)
Record Loop : Type := mkLoop {
  all_objects : list ObjectRecord;
  loop_world : World;
  loop_events : list Event;
  is_modified : bool
}.

(** One iteration of the objects loop (lines 157-174) at index [i] of
    image number [k]; [inl] is a raised exception, with the state at
    that moment. *)
Definition refine_object (img_bgr : Image) (k : nat) (st : Loop) (i : nat)
  : Exn * Loop + Loop :=
  match all_objects st !! i with
  | None => inr st
  | Some obj =>
      if has_eyes obj then inr st
      else
        let input := masked_input covers img_bgr obj i (all_objects st) in
        let '(reply, w) := sam3 (loop_world st) input in
        let evs := loop_events st ++ [DetectorCall k i reply] in
        match reply with
        | Masks masks =>
            let eyes_data := collect_contours masks in
            inr (mkLoop (<[i := set_eyes eyes_data obj]> (all_objects st))
                        w evs true)
        | Interrupted =>
            inl (KeyboardInterrupt,
                 mkLoop (all_objects st) w evs (is_modified st))
        | Failed =>
            inl (OtherError, mkLoop (all_objects st) w evs (is_modified st))
        end
  end.

(** [for i, obj in enumerate(all_objects)] over the indices [indices]. *)
Fixpoint refine_objects (img_bgr : Image) (k : nat) (indices : list nat)
    (st : Loop) : Exn * Loop + Loop :=
  match indices with
  | [] => inr st
  | i :: rest =>
      match refine_object img_bgr k st i with
      | inl e => inl e
      | inr st' => refine_objects img_bgr k rest st'
      end
  end.

(** How one iteration of the images loop ends. *)
Inductive Flow : Type :=
  | Continue
  | Break
  | Raise (e : Exn).

(** The objects of entry number [k], mutated in place by the objects
    loop, as [self.data] shows them. *)
Definition store_objects (k : nat) (img_name : string)
    (record : AnnotationRecord) (lp : Loop) (st : State) : State :=
  mkState (<[k := (img_name, set_objects (all_objects lp) record)]> (data st))
          (loop_world lp) (loop_events lp) (disk st).

(** One iteration of the images loop (lines 140-182) on entry number [k]
    of [self.data]. *)
Definition refine_image (st : State) (k : nat) : Flow * State :=
  match data st !! k with
  | None => (Continue, st)
  | Some (img_name, record) =>
      match imread img_name with
      | None => (Continue, st)
      | Some img_bgr =>
          let lp0 := mkLoop (objects record) (world st) (events st) false in
          let indices := seq 0 (length (objects record)) in
          match refine_objects img_bgr k indices lp0 with
          | inl (e, lp) => (Raise e, store_objects k img_name record lp st)
          | inr lp =>
              let st' := store_objects k img_name record lp st in
              if is_modified lp && show then
                let '(key, w) := waitKey (world st') in
                let st'' := mkState (data st') w
                              (events st' ++ [KeyPress k key]) (disk st') in
                if key =? 27 then (Break, st'') else (Continue, st'')
              else (Continue, st')
          end
      end
  end.

(** [for img_name, record in self.data.items()] *)
Fixpoint refine_images (positions : list nat) (st : State)
  : option Exn * State :=
  match positions with
  | [] => (None, st)
  | k :: rest =>
      match refine_image st k with
      | (Continue, st') => refine_images rest st'
      | (Break, st') => (None, st')
      | (Raise e, st') => (Some e, st')
      end
  end.

(** [save_results]: the whole document overwrites the file. *)
Definition save_results (st : State) : State :=
  mkState (data st) (world st) (events st) (data st).

(** [run] (lines 138-191): the loop inside [try]; [KeyboardInterrupt] is
    caught; [finally] saves; any other exception leaves [run] after the
    save.  The result is the exception that leaves [run], if any, and the
    final state.  The windows, when shown, are taken to close;
    [Signals.run] is [run] with [cv2.destroyAllWindows()] raising. *)
Definition run (st : State) : option Exn * State :=
  let '(raised, st') := refine_images (seq 0 (length (data st))) st in
  let propagated :=
    match raised with
    | Some KeyboardInterrupt | None => None
    | Some OtherError => Some OtherError
    end in
  (propagated, save_results st').

End Run.

Arguments mkState {World}.
Arguments data {World}.
Arguments world {World}.
Arguments events {World}.
Arguments disk {World}.
Arguments mkLoop {World}.
Arguments all_objects {World}.
Arguments loop_world {World}.
Arguments loop_events {World}.
Arguments is_modified {World}.
Arguments refine_object covers {World}.
Arguments refine_objects covers {World}.
Arguments store_objects {World}.
Arguments refine_image covers {World}.
Arguments refine_images covers {World}.
Arguments save_results {World}.
Arguments run covers {World}.

(** The object number [j] of image number [k]. *)
Definition object_at (d : Data) (k j : nat) : option ObjectRecord :=
  entry ← d !! k; objects entry.2 !! j.

(** The events on which the run loop stops: a detector call that raised,
    or the escape key. *)
Definition is_signal (e : Event) : bool :=
  match e with
  | DetectorCall _ _ (Masks _) => false
  | DetectorCall _ _ (Interrupted | Failed) => true
  | KeyPress _ key => key =? 27
  end.

(** The image and the object an event is about. *)
Definition event_image (e : Event) : nat :=
  match e with
  | DetectorCall k _ _ | KeyPress k _ => k
  end.

(** The object a detector call left behind, given the object submitted:
    a completed call stores its contours, a call that raised stores
    nothing. *)
Definition after_reply (reply : Reply) (obj : ObjectRecord) : ObjectRecord :=
  match reply with
  | Masks masks => set_eyes (collect_contours masks) obj
  | Interrupted | Failed => obj
  end.

(** Between the documents [d0] and [d1], the detector call [e] was made on
    an object without contours, and [d1] holds what the call left. *)
Definition call_stored (d0 d1 : Data) (e : Event) : Prop :=
  match e with
  | DetectorCall k j reply =>
      ∃ obj, object_at d0 k j = Some obj ∧ has_eyes obj = false ∧
             object_at d1 k j = Some (after_reply reply obj)
  | KeyPress _ _ => True
  end.

(** A signal, once in the event list, is its last entry. *)
Definition stops_at_signal (new : list Event) : Prop :=
  ∀ pre e post, new = pre ++ e :: post → is_signal e = true → post = [].

(** Nothing is left for the refinement stage to do in document [d]: every
    image is unreadable or all its objects carry contours. *)
Definition nothing_to_refine (imread : string → option Image) (d : Data)
  : Prop :=
  Forall (λ entry, imread entry.1 = None ∨
                   Forall (λ obj, has_eyes obj = true) (objects entry.2)) d.

Definition event_object (e : Event) : nat :=
  match e with
  | DetectorCall _ j _ => j
  | KeyPress _ _ => 0%nat
  end.

(** The exception a detector call ends with. *)
Definition raised_by (e : Event) (exn : Exn) : Prop :=
  match e with
  | DetectorCall _ _ Interrupted => exn = KeyboardInterrupt
  | DetectorCall _ _ Failed => exn = OtherError
  | DetectorCall _ _ (Masks _) | KeyPress _ _ => False
  end.

(** No signal among the events. *)
Definition quiet (l : list Event) : Prop :=
  Forall (λ e, is_signal e = false) l.

(** The events of a loop that ended with [flow]. *)
Definition ended (flow : Flow) (new : list Event) : Prop :=
  match flow with
  | Continue => quiet new
  | Break => ∃ pre k, new = pre ++ [KeyPress k 27] ∧ quiet pre
  | Raise exn => ∃ pre e, new = pre ++ [e] ∧ quiet pre ∧ raised_by e exn
  end.

(** [call_stored] for the objects loop of image number [k]. *)
Definition loop_stored (k : nat) (objs0 objs1 : list ObjectRecord)
    (e : Event) : Prop :=
  match e with
  | DetectorCall k' j reply =>
      k' = k ∧
      ∃ obj, objs0 !! j = Some obj ∧ has_eyes obj = false ∧
             objs1 !! j = Some (after_reply reply obj)
  | KeyPress _ _ => False
  end.

(** The state the objects loop ends in, and how it ends. *)
Definition final {World : Type} (res : Exn * Loop World + Loop World)
  : Loop World :=
  match res with inl (_, lp) => lp | inr lp => lp end.

Definition flow_of {World : Type} (res : Exn * Loop World + Loop World)
  : Flow :=
  match res with inl (exn, _) => Raise exn | inr _ => Continue end.

#[global] Instance nothing_to_refine_dec (imread : string → option Image)
    (d : Data) : Decision (nothing_to_refine imread d).
Proof. unfold nothing_to_refine. apply _. Defined.

End Refiner.

(** ** Verification against ground truth (verify_results.py) *)

Module Verifier.

(** A row of the ground-truth table. *)
Record GtRow : Type := mkRow {
  Image_Name : string;
  Type_ : string;
  Obj_ID_1 : string;
  Obj_ID_2 : string;
  Expected_Dist : Q
}.

(** [tuple(sorted([id1, id2]))] *)
Definition sorted_ids (id1 id2 : string) : string * string :=
  if String.leb id1 id2 then (id1, id2) else (id2, id1).

(** The last column of the line printed for a row: [MISS], the
    detection-failure mark, or the absolute error. *)
Inductive Verdict : Type :=
  | Miss
  | DetectionFailure
  | Match (diff : Q).

Section Run.

(** [self.sys_individual_map] and [self.sys_pair_map], the dicts filled
    by [_load_system_json]. *)
Variable sys_individual_map : gmap (string * string) Q.
Variable sys_pair_map : gmap (string * (string * string)) Q.

(** Lines 81-93: the computed value the row refers to. *)
Definition lookup_actual (row : GtRow) : option Q :=
  let img := Image_Name row in
  if decide (Type_ row = "Individual") then
    sys_individual_map !! (img, Obj_ID_1 row)
  else if decide (Type_ row = "Pair") then
    sys_pair_map !! (img, sorted_ids (Obj_ID_1 row) (Obj_ID_2 row))
  else None.

(** The accumulators of the comparison loop and the lines printed. *)
Record Tally : Type := mkTally {
  total_error : Q;
  match_count : nat;
  miss_count : nat;
  printed : list Verdict
}.

(** One iteration of the comparison loop (lines 76-111). *)
Definition compare_row (t : Tally) (row : GtRow) : Tally :=
  let expect := Expected_Dist row in
  match lookup_actual row with
  | None =>
      mkTally (total_error t) (match_count t) (S (miss_count t))
              (printed t ++ [Miss])
  | Some actual =>
      if Qeq_bool actual 0 && negb (Qeq_bool expect 0) then
        mkTally (total_error t) (match_count t) (S (miss_count t))
                (printed t ++ [DetectionFailure])
      else
        let diff := Qabs (actual - expect) in
        mkTally (total_error t + diff)%Q (S (match_count t)) (miss_count t)
                (printed t ++ [Match diff])
  end.

(** The comparison loop, from the zeroed accumulators (lines 66-111). *)
Definition compare_rows (gt_rows : list GtRow) : Tally :=
  foldl compare_row (mkTally 0 0 0 []) gt_rows.

(** Lines 115-116: the mean absolute error is reported only when some
    row matched. *)
Definition mae (t : Tally) : option Q :=
  if decide (0 < match_count t)%nat
  then Some (total_error t / inject_Z (Z.of_nat (match_count t)))%Q
  else None.

End Run.

(** What a verdict adds to the error total, and whether it is a match. *)
Definition verdict_error (v : Verdict) : Q :=
  match v with Match diff => diff | Miss | DetectionFailure => 0%Q end.

Definition is_match (v : Verdict) : bool :=
  match v with Match _ => true | Miss | DetectionFailure => false end.

Definition sum_Q (l : list Q) : Q := foldr Qplus 0%Q l.

(** The three classes of a ground-truth row, given the computed value
    found for it and the expected value. *)
Definition classified (actual : option Q) (expect : Q) (v : Verdict) : Prop :=
  match v with
  | Miss => actual = None
  | DetectionFailure =>
      ∃ a, actual = Some a ∧ (a == 0)%Q ∧ ¬ (expect == 0)%Q
  | Match diff =>
      ∃ a, actual = Some a ∧ ¬ ((a == 0)%Q ∧ ¬ (expect == 0)%Q) ∧
           diff = Qabs (a - expect)
  end.

End Verifier.

(** ** The polygon centroid, as the formulas state it *)

Module Polygon.

(** The edges of the closed polygon: each point with its predecessor, the
    first point's predecessor being the last point. *)
Fixpoint edges_from (prev : Point) (pts : list Point) : list (Point * Point) :=
  match pts with
  | [] => []
  | p :: rest => (prev, p) :: edges_from p rest
  end.

Definition polygon_edges (pts : Contour) : list (Point * Point) :=
  match last pts with
  | Some pl => edges_from pl pts
  | None => []
  end.

Definition cross (e : Point * Point) : Z := e.1.1 * e.2.2 - e.2.1 * e.1.2.

(** Twice the signed area (the shoelace formula). *)
Definition twice_area (pts : Contour) : Z :=
  Measurement.sum_Z (cross <$> polygon_edges pts).

(** Six times the signed first moments; the area-weighted centroid is
    [(moment_x / (3 * twice_area), moment_y / (3 * twice_area))]. *)
Definition moment_x (pts : Contour) : Z :=
  Measurement.sum_Z ((λ e, cross e * (e.1.1 + e.2.1)) <$> polygon_edges pts).

Definition moment_y (pts : Contour) : Z :=
  Measurement.sum_Z ((λ e, cross e * (e.1.2 + e.2.2)) <$> polygon_edges pts).

(** [q] is the quotient [n / d] truncated toward zero. *)
Definition truncates (n d q : Z) : Prop :=
  Z.abs (n - d * q) < Z.abs d ∧ Z.abs (d * q) ≤ Z.abs n.

(** A square contour with centre [(cx, cy)] and half-side [s]. *)
Definition square (cx cy s : Z) : Contour :=
  [(cx - s, cy - s); (cx + s, cy - s); (cx + s, cy + s); (cx - s, cy + s)].

(** Three points on one line. *)
Definition collinear (p q r : Point) : Prop :=
  (q.1 - p.1) * (r.2 - p.2) = (q.2 - p.2) * (r.1 - p.1).

(** [c] is the centroid of [pts] with each coordinate truncated toward
    zero: of the arithmetic mean when the area is zero, of the
    area-weighted centroid otherwise. *)
Definition truncated_centroid (pts : Contour) (c : Point) : Prop :=
  if decide (twice_area pts = 0) then
    truncates (Measurement.sum_Z (fst <$> pts)) (Z.of_nat (length pts)) c.1 ∧
    truncates (Measurement.sum_Z (snd <$> pts)) (Z.of_nat (length pts)) c.2
  else
    truncates (moment_x pts) (3 * twice_area pts) c.1 ∧
    truncates (moment_y pts) (3 * twice_area pts) c.2.

(** [h] hundredths is [sqrt n] rounded to two decimal places: [h] is the
    integer nearest to [100 * sqrt n]. *)
Definition nearest_hundredth (n h : Z) : Prop :=
  0 ≤ h ∧ (h = 0 ∨ (2 * h - 1) ^ 2 ≤ 40000 * n) ∧ 40000 * n < (2 * h + 1) ^ 2.

End Polygon.

(** ** A small document used to exercise the statements *)

Module Demo.
Import Polygon.

Definition animal (i : Z) (box : Z * Z * Z * Z) (outline : Contour)
    (e : list Contour) : ObjectRecord :=
  mkObject (Some i) "cat" (9 # 10) box (Some (SegPoints outline)) (Some e)
           None None None None None.

(** Three animals: two with two eye contours, one with a single one. *)
Definition image_record : AnnotationRecord :=
  mkRecord 200 200 3
    [animal 0 (30, 30, 90, 70) [(30, 30); (90, 30); (90, 70); (30, 70)]
       [square 70 50 5; square 50 50 4];
     animal 1 (130, 30, 190, 70) [(130, 30); (190, 30); (190, 70); (130, 70)]
       [square 150 50 3; square 170 50 3];
     animal 2 (60, 120, 120, 160) [(60, 120); (120, 120); (120, 160); (60, 160)]
       [square 90 140 3]]
    None.

Definition document : Data := [("a.jpg"%string, image_record)].

(** Three points on a line. *)
Definition flat : Contour := [(0, 0); (1, 1); (5, 5)].

(** A rasteriser for upright rectangles: the pixels between a point to
    the upper left and a point to the lower right. *)
Definition box_raster (pts : Contour) (x y : nat) : bool :=
  existsb (λ p, (p.1 <=? Z.of_nat x) && (p.2 <=? Z.of_nat y)) pts
  && existsb (λ p, (Z.of_nat x <=? p.1) && (Z.of_nat y <=? p.2)) pts.

Definition white : Color := (255, 255, 255).

(** A white picture of 8 columns and 6 rows, and two animals in it. *)
Definition picture : Image := replicate 6 (replicate 8 white).

Definition left_cat : ObjectRecord :=
  animal 0 (0, 1, 3, 5) [(0, 1); (2, 1); (2, 4); (0, 4)] [].

Definition right_cat : ObjectRecord :=
  animal 1 (5, 0, 8, 4) [(5, 0); (7, 0); (7, 3); (5, 3)] [].

(** The document as the detection stage leaves it. *)
Definition fresh : Data :=
  [("a.jpg"%string, mkRecord 8 6 2 [left_cat; right_cat] None);
   ("b.jpg"%string, mkRecord 8 6 1 [left_cat] None)].

Definition pupil : Contour := square 1 2 1.

(** The outside world is the number of detector calls made so far.  One
    detector finds nothing at its first call and a pupil afterwards; the
    other finds a pupil at its first call and is interrupted at the
    second. *)
Definition sam3_late (w : nat) (input : Image) : Refiner.Reply * nat :=
  (if decide (w = 0%nat) then Refiner.Masks []
   else Refiner.Masks [[pupil]], S w).

Definition sam3_interrupted (w : nat) (input : Image)
  : Refiner.Reply * nat :=
  (if decide (w = 0%nat) then Refiner.Masks [[pupil]]
   else Refiner.Interrupted, S w).

(** A detector that finds a pupil at every call. *)
Definition sam3_always (w : nat) (input : Image) : Refiner.Reply * nat :=
  (Refiner.Masks [[pupil]], S w).

Definition no_key (w : nat) : Z * nat := (-1, w).

Definition read_picture (img_name : string) : option Image := Some picture.

Definition start : Refiner.State nat := Refiner.mkState fresh 0%nat [] [].

End Demo.

(** ** Retrieval of the computed values (verify_results.py, lines 26-52) *)

Module Loader.
Import Verifier.

(** [str(obj.get("object_id"))]: the decimal numeral of the identifier,
    or the text of the missing value. *)
Definition str_object_id (obj : ObjectRecord) : string :=
  match object_id obj with
  | Some n => pretty n
  | None => "None"
  end.

(** [str(pair.get("obj_1_id"))] on what the measurement pass wrote. *)
Definition str_id (v : IdValue) : string :=
  match v with
  | IdInt n => pretty n
  | IdUnknown => "unknown"
  end.

(** The two dicts the loader fills. *)
Record Maps : Type := mkMaps {
  sys_individual_map : gmap (string * string) Q;
  sys_pair_map : gmap (string * (string * string)) Q
}.

(** Lines 37-41: one object of an image. *)
Definition load_object (img_name : string) (m : gmap (string * string) Q)
    (obj : ObjectRecord) : gmap (string * string) Q :=
  let obj_id := str_object_id obj in
  match eyes_dist obj with
  | Some dist => <[(img_name, obj_id) := dist]> m
  | None => m
  end.

(** The key of a pair record (lines 45-47). *)
Definition pair_key (pair : PairRecord) : string * string :=
  sorted_ids (str_id (obj_1_id pair)) (str_id (obj_2_id pair)).

(** Lines 44-50: one pair record of an image.  The measurement pass
    always writes a distance. *)
Definition load_pair (img_name : string)
    (m : gmap (string * (string * string)) Q) (pair : PairRecord)
  : gmap (string * (string * string)) Q :=
  <[(img_name, pair_key pair) := right_eye_dist pair]> m.

(** One iteration of the loop over the images (lines 35-50). *)
Definition load_record (maps : Maps) (entry : string * AnnotationRecord)
  : Maps :=
  let '(img_name, record) := entry in
  mkMaps (foldl (load_object img_name) (sys_individual_map maps)
                (objects record))
         (foldl (load_pair img_name) (sys_pair_map maps)
                (default [] (pairs record))).

(** [_load_system_json] (lines 26-52) on the decoded document. *)
Definition _load_system_json (data : Data) : Maps :=
  foldl load_record (mkMaps ∅ ∅) data.

(** A ground-truth row with its two identifiers exchanged. *)
Definition swap_ids (row : GtRow) : GtRow :=
  mkRow (Image_Name row) (Type_ row) (Obj_ID_2 row) (Obj_ID_1 row)
        (Expected_Dist row).

End Loader.

(** ** Detection (animal_extractor.py, lines 52-120) *)

Module Detector.

(** One detected object as the segmentation model returns it: the class
    name [self.model.names[cls_id]], [float(results.boxes.conf[i])], the
    box [results.boxes.xyxy[i]] and the outline [results.masks.xy[i]]. *)
Record Detection : Type := mkDetection {
  class_name : string;
  conf : Q;
  xyxy : Q * Q * Q * Q;
  contour_points : list (Q * Q)
}.

(** The result for one image: [orig_shape], which is (height, width), and
    the detections, or [None] under [masks] when there is none. *)
Record Results : Type := mkResults {
  orig_shape : Z * Z;
  masks : option (list Detection)
}.

(** Rounding to the nearest integer, a tie going to the even one. *)
Definition round_half_even (q : Q) : Z :=
  let f := Qfloor q in
  let twice_rest := (2 * (q - inject_Z f))%Q in
  if Qeq_bool twice_rest 1 then (if Z.even f then f else f + 1)
  else if Qle_bool twice_rest 1 then f
  else f + 1.

(** [round(conf, 4)] *)
Definition round4 (q : Q) : Q := round_half_even (q * 10000) # 10000.

(** The dict appended to [img_data] for detection number [i] (lines
    77-95).  The outline is written as a JSON string of the points; the
    document holds it as the later stages decode it, each coordinate cast
    to an integer. *)
Definition detected_object (i : nat) (d : Detection) : ObjectRecord :=
  let '(x1, y1, x2, y2) := xyxy d in
  mkObject (Some (Z.of_nat i)) (class_name d) (round4 (conf d))
    (Measurement.Qtrunc x1, Measurement.Qtrunc y1,
     Measurement.Qtrunc x2, Measurement.Qtrunc y2)
    (Some (SegPoints ((λ p, (Measurement.Qtrunc p.1, Measurement.Qtrunc p.2))
                        <$> contour_points d)))
    (Some []) None None None None None.

(** The record of one image (lines 71-113). *)
Definition image_record (results : Results) : AnnotationRecord :=
  let '(h, w) := orig_shape results in
  match masks results with
  | Some detections =>
      let img_data := imap detected_object detections in
      mkRecord w h (Z.of_nat (length img_data)) img_data None
  | None => mkRecord w h 0 [] None
  end.

(** [all_records[img_file] = record] on a dict in insertion order: the
    value of an existing key is replaced where it stands. *)
Fixpoint dict_set (k : string) (v : AnnotationRecord) (d : Data) : Data :=
  match d with
  | [] => [(k, v)]
  | (k', v') :: rest =>
      if decide (k' = k) then (k, v) :: rest
      else (k', v') :: dict_set k v rest
  end.

Section Run.

(** [self.model(img_path, classes=self.animal_classes, verbose=False)[0]]
    for the image file of a given name. *)
Variable model : string → Results.

(** [run] (lines 52-120) on the list [_get_image_files] returns: the
    document saved, or nothing saved when there is no image. *)
Definition run (image_files : list string) : option Data :=
  match image_files with
  | [] => None
  | _ :: _ =>
      Some (foldl (λ all_records img_file,
                     dict_set img_file (image_record (model img_file))
                              all_records)
                  [] image_files)
  end.

End Run.

(** An object and a record as the detection stage writes them: an empty
    sequence under ["eyes"], no metric, the identifiers counting from
    zero. *)
Definition fresh_object (obj : ObjectRecord) : Prop :=
  eyes obj = Some [] ∧ _tmp_eye_L obj = None ∧ _tmp_eye_R obj = None ∧
  eyes_dist obj = None ∧ eye_L_center obj = None ∧ eye_R_center obj = None.

Definition fresh_record (r : AnnotationRecord) : Prop :=
  animals_found r = Z.of_nat (length (objects r)) ∧
  pairs r = None ∧
  object_id <$> objects r
  = (λ i, Some (Z.of_nat i)) <$> seq 0 (length (objects r)) ∧
  Forall fresh_object (objects r).

End Detector.

(** ** Image selection and download (data_selector.py, lines 57-127) *)

Module Selector.

(** An entry of the COCO image table, as far as the selector reads it. *)
Record ImageInfo : Type := mkImageInfo {
  coco_url : string;
  file_name : string
}.

Section Select.

(** The annotation database: [self.coco.getCatIds(catNms=...)],
    [self.coco.getImgIds(catIds=...)],
    [self.coco.getAnnIds(imgIds=..., catIds=...)] and
    [self.coco.loadImgs(img_id)[0]]. *)
Variable getCatIds : list string → list Z.
Variable getImgIds : list Z → list Z.
Variable getAnnIds : Z → list Z → list Z.
Variable loadImgs : Z → ImageInfo.

(** The loop of [select_images_by_category] (lines 77-88) from the
    images selected so far and their count. *)
Fixpoint select_loop (cat_ids : list Z) (min_count max_images : Z)
    (img_ids : list Z) (selected_images : list ImageInfo) (count : Z)
  : list ImageInfo :=
  match img_ids with
  | [] => selected_images
  | img_id :: rest =>
      let ann_ids := getAnnIds img_id cat_ids in
      if min_count <=? Z.of_nat (length ann_ids) then
        let selected_images := selected_images ++ [loadImgs img_id] in
        let count := count + 1 in
        if max_images <=? count then selected_images
        else select_loop cat_ids min_count max_images rest
                         selected_images count
      else select_loop cat_ids min_count max_images rest
                       selected_images count
  end.

(** [select_images_by_category] (lines 57-91). *)
Definition select_images_by_category (target_categories : list string)
    (min_count max_images : Z) : list ImageInfo :=
  let cat_ids := getCatIds target_categories in
  let img_ids := getImgIds cat_ids in
  select_loop cat_ids min_count max_images img_ids [] 0.

End Select.

Section Download.

(** The content of a file, the state of the network, and
    [requests.get(url, timeout=15)]: the status code and the content, or
    nothing when the request raises. *)
Variable Content : Type.
Variable World : Type.
Variable requests_get : World → string → option (Z * Content) * World.
(** [os.path.join(self.save_folder, filename)] *)
Variable join : string → string.

(** The paths that exist with their content, the network and
    [success_count]. *)
Definition Progress : Type := gmap string Content * World * nat.

(** One iteration of the loop of [download_images] (lines 106-125); a
    file opened for writing is written. *)
Definition download_one (st : Progress) (img_info : ImageInfo) : Progress :=
  let '(files, w, success_count) := st in
  let url := coco_url img_info in
  let filepath := join (file_name img_info) in
  if decide (is_Some (files !! filepath)) then
    (files, w, S success_count)
  else
    let '(response, w') := requests_get w url in
    match response with
    | Some (status_code, content) =>
        if status_code =? 200
        then (<[filepath := content]> files, w', S success_count)
        else (files, w', success_count)
    | None => (files, w', success_count)
    end.

(** [download_images] (lines 93-127): the folder, the network and the
    count printed at the end. *)
Definition download_images (images_list : list ImageInfo)
    (files : gmap string Content) (w : World) : Progress :=
  foldl download_one (files, w, 0%nat) images_list.

End Download.

Arguments download_one {Content World}.
Arguments download_images {Content World}.

End Selector.

(** ** Annotation of a frame (measurement_tool.py, lines 114-141) *)

Module Visualizer.

(** The two kinds of annotation [draw_frame_results] asks for: the
    distance between the eyes of one animal (yellow, label [PD:]) and the
    distance between the right eyes of two animals (pink, label [RR:],
    placed lower). *)
Inductive Kind : Type := PD | RR.

(** A call of [_apply_visual_annotation]: the end points of the line and
    the number in the label. *)
Record Annotation : Type := mkAnnotation {
  kind : Kind;
  p1 : Point;
  p2 : Point;
  value : Q
}.

(** Lines 126-131, for one object; reading a missing landmark raises. *)
Definition pd_annotation (obj : ObjectRecord) : option (list Annotation) :=
  match eyes_dist obj with
  | None => Some []
  | Some dist =>
      l ← eye_L_center obj;
      r ← eye_R_center obj;
      Some [mkAnnotation PD l r dist]
  end.

(** [obj_lookup.get(id)] for [obj_lookup = {obj.get("object_id"): obj for
    obj in objects}]: the last object with the identifier; the text a
    pair record holds for a missing identifier is no key. *)
Definition obj_lookup (objects : list ObjectRecord) (id : IdValue)
  : option ObjectRecord :=
  match id with
  | IdInt n => last (filter (λ obj, object_id obj = Some n) objects)
  | IdUnknown => None
  end.

(** Lines 134-141, for one pair record. *)
Definition rr_annotation (objects : list ObjectRecord) (pair : PairRecord)
  : list Annotation :=
  match obj_lookup objects (obj_1_id pair),
        obj_lookup objects (obj_2_id pair) with
  | Some o1, Some o2 =>
      match eye_R_center o1, eye_R_center o2 with
      | Some r1, Some r2 => [mkAnnotation RR r1 r2 (right_eye_dist pair)]
      | _, _ => []
      end
  | _, _ => []
  end.

(** [draw_frame_results] (lines 114-141) on an image that was read: the
    annotations drawn, in order, or nothing when a key is missing. *)
Definition draw_frame_results (record : AnnotationRecord)
  : option (list Annotation) :=
  pd ← mapM pd_annotation (objects record);
  Some (concat pd
        ++ concat (rr_annotation (objects record)
                     <$> default [] (pairs record))).

(** The label of an annotation is the distance between its end points. *)
Definition consistent (a : Annotation) : Prop :=
  value a = Measurement.rounded_distance (p1 a) (p2 a).

End Visualizer.

(** ** What the stages keep *)

Module Invariants.

(** What the detection stage wrote about an object. *)
Definition same_detection (obj obj' : ObjectRecord) : Prop :=
  object_id obj' = object_id obj ∧ class obj' = class obj ∧
  confidence obj' = confidence obj ∧ bbox obj' = bbox obj ∧
  segmentation obj' = segmentation obj.

(** What the detection stage wrote about an image. *)
Definition same_header (r r' : AnnotationRecord) : Prop :=
  width r' = width r ∧ height r' = height r ∧
  animals_found r' = animals_found r.

(** The number of pairs among [n] objects. *)
Definition choose2 (n : nat) : nat := (n * (n - 1) / 2)%nat.

(** The number of objects of a record that carry two contours. *)
Definition measurable (r : AnnotationRecord) : nat :=
  length (filter Measurement.two_eyes (objects r)).

(** An object as the refinement stage may leave it: as it was, or, if it
    carried no contour, with the contours collected from one detector
    reply under ["eyes"] and every other key as it was. *)
Definition refined (obj obj' : ObjectRecord) : Prop :=
  obj' = obj ∨
  ∃ masks, Refiner.has_eyes obj = false ∧
           obj' = set_eyes (Refiner.collect_contours masks) obj.

(** The same for an entry of the document. *)
Definition refined_entry (e e' : string * AnnotationRecord) : Prop :=
  e'.1 = e.1 ∧ width e'.2 = width e.2 ∧ height e'.2 = height e.2 ∧
  animals_found e'.2 = animals_found e.2 ∧ pairs e'.2 = pairs e.2 ∧
  Forall2 refined (objects e.2) (objects e'.2).

(** The image and object positions of the detector calls among the
    events. *)
Definition call_positions (l : list Refiner.Event) : list (nat * nat) :=
  omap (λ e, match e with
             | Refiner.DetectorCall k j _ => Some (k, j)
             | Refiner.KeyPress _ _ => None
             end) l.

End Invariants.

(** ** The range in which the arithmetic is exact *)

Module Precision.

(** The largest absolute value among the coordinates of a contour. *)
Definition coordinate_bound (pts : Contour) : Z :=
  foldr Z.max 0 ((λ p : Point, Z.max (Z.abs p.1) (Z.abs p.2)) <$> pts).

(** [cv2.moments] reads the coordinates as 32-bit integers and adds up
    [dxy], [dxy * (x + x')] and [dxy * (y + y')] in doubles; [np.mean] adds
    up the coordinates in doubles.  For [n] points with coordinates of
    absolute value at most [B] every term and every partial sum is an
    integer of absolute value at most [4 * n * B ^ 3].  Within the bound
    below the coordinates fit 32 bits, the sums are exact doubles, and the
    rounding of the scaling by a sixth and of the division is too small to
    carry the quotient across an integer: [int(...)] is the truncation of
    the exact ratio, the value [Measurement._get_centroid] has. *)
Definition exact_contour (pts : Contour) : Prop :=
  Z.of_nat (length pts) * coordinate_bound pts ^ 3 ≤ 2 ^ 48.

(** [math.sqrt] rounds the root of the integer radicand to a double and
    [round(_, 2)] rounds that double to hundredths.  For a radicand below
    [10 ^ 11] (two points less than 316 227 pixels apart) the double lies
    on the same side of every odd multiple of 0.005 as the root itself:
    the result is the hundredth nearest to the root, the value
    [Measurement.round2_sqrt] has.  The squares and their sum stay far
    below 64 bits. *)
Definition exact_distance (p q : Point) : Prop :=
  (p.1 - q.1) ^ 2 + (p.2 - q.2) ^ 2 < 10 ^ 11.

#[global] Instance exact_contour_dec (pts : Contour)
  : Decision (exact_contour pts).
Proof. unfold exact_contour. apply _. Defined.

#[global] Instance exact_distance_dec (p q : Point)
  : Decision (exact_distance p q).
Proof. unfold exact_distance. apply _. Defined.

End Precision.

(** ** Where the operator's signal lands (eyes_extractor.py, lines 76-84
    and 184-191) *)

(** [Refiner] delivers the operator's signal at a detector call and
    always reaches [save_results].  [Signals] is the same loop with the
    two places of the source where that is not so: the [try] block of the
    sibling loop, whose bare [except] discards the signal, and the
    [finally] clause, which closes the windows before it saves. *)
Module Signals.

(** The [try] block of the sibling loop (lines 79-84) ends in a bare
    [except: pass], which catches [KeyboardInterrupt] too.  While one
    sibling is masked the operator's signal arrives not at all, before
    [cv2.fillPoly] has painted the sibling, or after it. *)
Inductive Delivery : Type :=
  | NoSignal
  | BeforeFill
  | AfterFill.

(** Instrumentation: the events of [Refiner], and a signal raised while
    sibling [other_idx] was masked for object [obj_index] and discarded
    by the [except] clause. *)
Inductive Event : Type :=
  | Ran (e : Refiner.Event)
  | Swallowed (image_pos : nat) (obj_index : nat) (other_idx : nat).

Section Run.

Variable covers : Contour → nat → nat → bool.
Variable World : Type.
Variable sam3 : World → Image → Refiner.Reply * World.
Variable waitKey : World → Z * World.
Variable imread : string → option Image.
Variable show : bool.
(** Whether the signal arrives during one pass through the [try] block. *)
Variable signal : World → Delivery * World.
(** [cv2.destroyAllWindows()]: it returns, or it raises. *)
Variable destroyAllWindows : World → option Refiner.Exn * World.

Record State : Type := mkState {
  data : Data;
  world : World;
  events : list Event;
  disk : Data
}.

Record Loop : Type := mkLoop {
  all_objects : list ObjectRecord;
  loop_world : World;
  loop_events : list Event;
  is_modified : bool
}.

(** One iteration of the sibling loop (lines 76-84) for object
    [obj_index] of image number [k]: the picture, the world and the
    events.  A sibling that is passed over (the target itself, a missing,
    empty or undecodable ["segmentation"]) is passed over with or without
    a signal. *)
Definition mask_sibling (k obj_index : nat)
    (acc : Image * World * list Event) (entry : nat * ObjectRecord)
  : Image * World * list Event :=
  let '(clean_img, w, evs) := acc in
  let '(other_idx, other_obj) := entry in
  if decide (other_idx = obj_index) then acc
  else match segmentation other_obj with
       | Some (SegPoints pts) =>
           let '(delivery, w') := signal w in
           match delivery with
           | NoSignal => (fillPoly covers clean_img pts black, w', evs)
           | BeforeFill =>
               (clean_img, w', evs ++ [Swallowed k obj_index other_idx])
           | AfterFill =>
               (fillPoly covers clean_img pts black, w',
                evs ++ [Swallowed k obj_index other_idx])
           end
       | Some SegCorrupt | None => acc
       end.

Definition mask_siblings (k : nat) (img_bgr : Image) (obj_index : nat)
    (objs : list ObjectRecord) (w : World) (evs : list Event)
  : Image * World * list Event :=
  foldl (mask_sibling k obj_index) (img_bgr, w, evs) (imap pair objs).

(** One iteration of the objects loop (lines 157-174). *)
Definition refine_object (img_bgr : Image) (k : nat) (st : Loop) (i : nat)
  : Refiner.Exn * Loop + Loop :=
  match all_objects st !! i with
  | None => inr st
  | Some obj =>
      if Refiner.has_eyes obj then inr st
      else
        let '(clean_img, w0, evs0) :=
          mask_siblings k img_bgr i (all_objects st)
                        (loop_world st) (loop_events st) in
        let input := crop_to_bbox clean_img (bbox obj) in
        let '(reply, w) := sam3 w0 input in
        let evs := evs0 ++ [Ran (Refiner.DetectorCall k i reply)] in
        match reply with
        | Refiner.Masks masks =>
            let eyes_data := Refiner.collect_contours masks in
            inr (mkLoop (<[i := set_eyes eyes_data obj]> (all_objects st))
                        w evs true)
        | Refiner.Interrupted =>
            inl (Refiner.KeyboardInterrupt,
                 mkLoop (all_objects st) w evs (is_modified st))
        | Refiner.Failed =>
            inl (Refiner.OtherError,
                 mkLoop (all_objects st) w evs (is_modified st))
        end
  end.

Fixpoint refine_objects (img_bgr : Image) (k : nat) (indices : list nat)
    (st : Loop) : Refiner.Exn * Loop + Loop :=
  match indices with
  | [] => inr st
  | i :: rest =>
      match refine_object img_bgr k st i with
      | inl e => inl e
      | inr st' => refine_objects img_bgr k rest st'
      end
  end.

Definition store_objects (k : nat) (img_name : string)
    (record : AnnotationRecord) (lp : Loop) (st : State) : State :=
  mkState (<[k := (img_name, set_objects (all_objects lp) record)]> (data st))
          (loop_world lp) (loop_events lp) (disk st).

(** One iteration of the images loop (lines 140-182). *)
Definition refine_image (st : State) (k : nat) : Refiner.Flow * State :=
  match data st !! k with
  | None => (Refiner.Continue, st)
  | Some (img_name, record) =>
      match imread img_name with
      | None => (Refiner.Continue, st)
      | Some img_bgr =>
          let lp0 := mkLoop (objects record) (world st) (events st) false in
          let indices := seq 0 (length (objects record)) in
          match refine_objects img_bgr k indices lp0 with
          | inl (e, lp) =>
              (Refiner.Raise e, store_objects k img_name record lp st)
          | inr lp =>
              let st' := store_objects k img_name record lp st in
              if is_modified lp && show then
                let '(key, w) := waitKey (world st') in
                let st'' := mkState (data st') w
                              (events st' ++ [Ran (Refiner.KeyPress k key)])
                              (disk st') in
                if key =? 27 then (Refiner.Break, st'')
                else (Refiner.Continue, st'')
              else (Refiner.Continue, st')
          end
      end
  end.

Fixpoint refine_images (positions : list nat) (st : State)
  : option Refiner.Exn * State :=
  match positions with
  | [] => (None, st)
  | k :: rest =>
      match refine_image st k with
      | (Refiner.Continue, st') => refine_images rest st'
      | (Refiner.Break, st') => (None, st')
      | (Refiner.Raise e, st') => (Some e, st')
      end
  end.

Definition save_results (st : State) : State :=
  mkState (data st) (world st) (events st) (data st).

(** [run] (lines 138-191).  The [finally] clause closes the windows
    first when [show] is set; an exception raised there leaves [run] at
    once, in place of the one that was pending, and [save_results] is not
    reached. *)
Definition run (st : State) : option Refiner.Exn * State :=
  let '(raised, st') := refine_images (seq 0 (length (data st))) st in
  let propagated :=
    match raised with
    | Some Refiner.KeyboardInterrupt | None => None
    | Some Refiner.OtherError => Some Refiner.OtherError
    end in
  if show then
    let '(closing, w) := destroyAllWindows (world st') in
    let st'' := mkState (data st') w (events st') (disk st') in
    match closing with
    | Some e => (Some e, st'')
    | None => (propagated, save_results st'')
    end
  else (propagated, save_results st').

End Run.

Arguments mkState {World}.
Arguments data {World}.
Arguments world {World}.
Arguments events {World}.
Arguments disk {World}.
Arguments mkLoop {World}.
Arguments all_objects {World}.
Arguments loop_world {World}.
Arguments loop_events {World}.
Arguments is_modified {World}.
Arguments mask_sibling covers {World}.
Arguments mask_siblings covers {World}.
Arguments refine_object covers {World}.
Arguments refine_objects covers {World}.
Arguments store_objects {World}.
Arguments refine_image covers {World}.
Arguments refine_images covers {World}.
Arguments save_results {World}.
Arguments run covers {World}.

(** The events [Refiner] knows. *)
Definition ran (l : list Event) : list Refiner.Event :=
  omap (λ e, match e with Ran e' => Some e' | Swallowed _ _ _ => None end) l.

(** The detector calls among the events that follow the first swallowed
    signal. *)
Fixpoint calls_after_signal (l : list Event) : list (nat * nat) :=
  match l with
  | [] => []
  | Swallowed _ _ _ :: rest => Invariants.call_positions (ran rest)
  | Ran _ :: rest => calls_after_signal rest
  end.

(** The state and the loop as [Refiner] has them. *)
Definition plain {World : Type} (st : State World) : Refiner.State World :=
  Refiner.mkState (data st) (world st) (ran (events st)) (disk st).

Definition plain_loop {World : Type} (lp : Loop World) : Refiner.Loop World :=
  Refiner.mkLoop (all_objects lp) (loop_world lp) (ran (loop_events lp))
                 (is_modified lp).

(** Every signal discarded while an object was prepared for the detector
    is followed by the detector call for that object. *)
Fixpoint answered (l : list Event) : Prop :=
  match l with
  | [] => True
  | Swallowed k i _ :: rest =>
      (∃ reply, Ran (Refiner.DetectorCall k i reply) ∈ rest) ∧ answered rest
  | Ran _ :: rest => answered rest
  end.

(** The state the objects loop ends in. *)
Definition final {World : Type}
    (res : Refiner.Exn * Loop World + Loop World) : Loop World :=
  match res with inl (_, lp) => lp | inr lp => lp end.

End Signals.


(** ** Further scenarios *)

Module Scenario.

(** The demonstration document after a measurement pass, its record, its
    first object and its first pair record. *)
Definition measured : Data :=
  default [] (fst <$> Measurement.measure Demo.document).

Definition measured_record : AnnotationRecord :=
  default Demo.image_record (snd <$> measured !! 0%nat).

Definition measured_cat : ObjectRecord :=
  default Demo.left_cat (objects measured_record !! 0%nat).

Definition first_pair : PairRecord :=
  default (mkPair IdUnknown IdUnknown 0)
          (default [] (pairs measured_record) !! 0%nat).

(** The first two animals of the demonstration document. *)
Definition first_animal : ObjectRecord :=
  default Demo.left_cat (objects Demo.image_record !! 0%nat).

Definition second_animal : ObjectRecord :=
  default Demo.left_cat (objects Demo.image_record !! 1%nat).

(** Two rows of a ground-truth table; the pair row names the larger
    identifier first. *)
Definition individual_row : Verifier.GtRow :=
  Verifier.mkRow "a.jpg" "Individual" "0" "" (2000 # 100).

Definition pair_row : Verifier.GtRow :=
  Verifier.mkRow "a.jpg" "Pair" "1" "0" (10000 # 100).


(** A segmentation model that finds two animals in one picture and none
    in any other. *)
Definition yolo (img_path : string) : Detector.Results :=
  if decide (img_path = "a.jpg"%string) then
    Detector.mkResults (6, 8)
      (Some [Detector.mkDetection "cat" (912345 # 1000000)
               (1 # 2, 1, 7 # 2, 5)%Q
               [(0, 1); (5 # 2, 1); (2, 4); (0, 4)]%Q;
             Detector.mkDetection "dog" (3 # 4)
               (5, 0, 8, 4)%Q [(5, 0); (7, 0); (7, 3); (5, 3)]%Q])
  else Detector.mkResults (6, 8) None.

(** Two entries of the image table, and a network that serves the first
    and has lost the second. *)
Definition images : list Selector.ImageInfo :=
  [Selector.mkImageInfo "http://images/1.jpg" "1.jpg";
   Selector.mkImageInfo "http://images/2.jpg" "2.jpg"].

Definition network (w : nat) (url : string) : option (Z * string) * nat :=
  (if decide (url = "http://images/1.jpg"%string)
   then Some (200, "jpeg"%string) else Some (404, ""%string), S w).

Definition in_folder (filename : string) : string :=
  String.append "animal_images/" filename.



(** The operator's signal arrives while the first sibling of the run is
    masked, before the sibling is painted, and never again; the world
    counts the calls made so far. *)
Definition signal_at_start (w : nat) : Signals.Delivery * nat :=
  (if decide (w = 0%nat) then Signals.BeforeFill else Signals.NoSignal, S w).

Definition no_signal (w : nat) : Signals.Delivery * nat :=
  (Signals.NoSignal, w).

(** Windows that close, and windows whose closing a second signal cuts
    short. *)
Definition windows_close (w : nat) : option Refiner.Exn * nat := (None, w).

Definition windows_interrupted (w : nat) : option Refiner.Exn * nat :=
  (Some Refiner.KeyboardInterrupt, w).

Definition signal_start : Signals.State nat :=
  Signals.mkState Demo.fresh 0%nat [] [].

(** The computed values of one image, and a ground-truth table of five
    rows for it. *)
Definition computed_distances : gmap (string * string) Q :=
  {[ ("a.jpg"%string, "0"%string) := 2250 # 100;
     ("a.jpg"%string, "1"%string) := 0%Q ]}.

Definition computed_pairs : gmap (string * (string * string)) Q :=
  {[ ("a.jpg"%string, ("0"%string, "1"%string)) := 10250 # 100 ]}.

Definition ground_truth : list Verifier.GtRow :=
  [Verifier.mkRow "a.jpg" "Individual" "0" "" (2000 # 100);
   Verifier.mkRow "a.jpg" "Individual" "1" "" (2000 # 100);
   Verifier.mkRow "a.jpg" "Individual" "7" "" (2000 # 100);
   Verifier.mkRow "a.jpg" "Pair" "1" "0" (10000 # 100);
   Verifier.mkRow "a.jpg" "Pair" "0" "7" (10000 # 100)].

(** Two animals whose identifiers are not in increasing order, in a
    record that holds a stale pair. *)
Definition reversed_record : AnnotationRecord :=
  mkRecord 200 200 2
    [Demo.animal 7 (30, 30, 90, 70)
       [(30, 30); (90, 30); (90, 70); (30, 70)]
       [Polygon.square 70 50 5; Polygon.square 50 50 4];
     Demo.animal 2 (130, 30, 190, 70)
       [(130, 30); (190, 30); (190, 70); (130, 70)]
       [Polygon.square 150 50 3; Polygon.square 170 50 3]]
    (Some [mkPair (IdInt 0) (IdInt 0) 0]).

Definition reversed_document : Data := [("a.jpg"%string, reversed_record)].

End Scenario.

(** * Properties *)

(** Closes a decidable goal by evaluation. *)
Ltac by_decide := refine (bool_decide_unpack _ _); vm_compute; exact I.

(** ** Measurement *)

Module MeasurementFacts.
Import Measurement Polygon.

(** *** Small cases *)

(** A contour without points has no centroid. *)
Lemma get_centroid_empty : _get_centroid [] = None.
Proof. reflexivity. Qed.

(** The pass raises on it. *)
Example measure_empty_contour :
  measure [("a.jpg"%string,
            mkRecord 200 200 1
              [Demo.animal 0 (30, 30, 90, 70) [] [[]; square 50 50 5]] None)]
  = None.
Proof. reflexivity. Qed.

Example measure_demo :
  (λ result : Data * nat,
     (λ entry : string * AnnotationRecord,
        (eyes_dist <$> objects entry.2, pairs entry.2)) <$> result.1)
    <$> measure Demo.document
  = Some [([Some (2000 # 100); Some (2000 # 100); None],
           Some [mkPair (IdInt 0) (IdInt 1) (10000 # 100)])].
Proof. reflexivity. Qed.

Example centroid_of_square : _get_centroid (square 50 50 5) = Some (50, 50).
Proof. reflexivity. Qed.

Example centroid_of_flat : _get_centroid Demo.flat = Some (2, 2).
Proof. reflexivity. Qed.

Example centroid_of_triangle :
  _get_centroid [(0, 0); (4, 0); (0, 4)] = Some (1, 1).
Proof. reflexivity. Qed.

Example round2_sqrt_two : round2_sqrt 2 = 141 # 100.
Proof. reflexivity. Qed.

Example combinations2_of_four :
  combinations2 [1; 2; 3; 4] = [(1, 2); (1, 3); (1, 4); (2, 3); (2, 4); (3, 4)].
Proof. reflexivity. Qed.

Example sort_ties :
  sort_by_key fst [(3, 1); (1, 2); (3, 0); (1, 1)]
  = [(1, 2); (1, 1); (3, 1); (3, 0)].
Proof. reflexivity. Qed.

(** *** The sort is a stable sort *)

Section Sorting.
Context {A : Type} (key : A → Z).

Lemma insert_by_key_perm (x : A) (l : list A) :
  insert_by_key key x l ≡ₚ x :: l.
Proof.
  induction l as [|y t IH]; simpl; [done|].
  destruct (key x <=? key y); [done|]. rewrite IH. apply Permutation_swap.
Qed.

Lemma sort_by_key_perm (l : list A) : sort_by_key key l ≡ₚ l.
Proof.
  induction l as [|x t IH]; simpl; [done|].
  by rewrite insert_by_key_perm, IH.
Qed.

Lemma insert_by_key_sorted (x : A) (l : list A) :
  StronglySorted (λ a b, key a ≤ key b) l →
  StronglySorted (λ a b, key a ≤ key b) (insert_by_key key x l).
Proof.
  induction 1 as [|y t Hs IH Hall]; simpl.
  - by repeat constructor.
  - destruct (Z.leb_spec (key x) (key y)) as [Hle|Hlt].
    + constructor; [by constructor|]. constructor; [done|].
      eapply Forall_impl; [exact Hall|]. simpl. lia.
    + constructor; [done|]. rewrite insert_by_key_perm.
      constructor; [lia|done].
Qed.

Lemma sort_by_key_sorted (l : list A) :
  StronglySorted (λ a b, key a ≤ key b) (sort_by_key key l).
Proof.
  induction l as [|x t IH]; simpl; [constructor|].
  by apply insert_by_key_sorted.
Qed.

(** Stability: elements with equal keys keep their order. *)
Lemma insert_by_key_stable (c : Z) (x : A) (l : list A) :
  filter (λ a, key a = c) (insert_by_key key x l)
  = filter (λ a, key a = c) (x :: l).
Proof.
  induction l as [|y t IH]; simpl; [done|].
  destruct (Z.leb_spec (key x) (key y)) as [Hle|Hlt]; [done|].
  rewrite (filter_cons _ y), IH, !filter_cons.
  destruct (decide (key y = c)), (decide (key x = c)); try done. lia.
Qed.

Lemma sort_by_key_stable (c : Z) (l : list A) :
  filter (λ a, key a = c) (sort_by_key key l) = filter (λ a, key a = c) l.
Proof.
  induction l as [|x t IH]; simpl; [done|].
  by rewrite insert_by_key_stable, !filter_cons, IH.
Qed.
End Sorting.

(** *** The centroid *)

Lemma Qtrunc_scaled (n d : Z) (u v : positive) :
  d ≠ 0 →
  Qtrunc ((inject_Z n * (1 # u)) / (inject_Z d * (1 # v)))%Q
  = Z.quot (n * Z.pos v) (d * Z.pos u).
Proof.
  intros Hd. unfold Qtrunc, Qdiv, Qinv, Qmult, inject_Z; simpl.
  destruct d as [|p|p]; [done| |]; simpl.
  - f_equal; lia.
  - rewrite <- (Z.quot_opp_opp (n * Z.pos v)) by done. f_equal; lia.
Qed.

Lemma Qtrunc_scaled_neg (n d : Z) (u v : positive) :
  d ≠ 0 →
  Qtrunc ((inject_Z n * (-1 # u)) / (inject_Z d * (-1 # v)))%Q
  = Z.quot (n * Z.pos v) (d * Z.pos u).
Proof.
  intros Hd. unfold Qtrunc, Qdiv, Qinv, Qmult, inject_Z; simpl.
  destruct d as [|p|p]; [done| |]; simpl.
  - f_equal; lia.
  - rewrite <- (Z.quot_opp_opp (n * Z.pos v)) by done. f_equal; lia.
Qed.

Lemma Qtrunc_div (a b : Z) :
  b ≠ 0 → Qtrunc (inject_Z a / inject_Z b)%Q = Z.quot a b.
Proof.
  intros Hb. unfold Qtrunc, Qdiv, Qinv, Qmult, inject_Z; simpl.
  destruct b as [|p|p]; [done| |]; simpl.
  - by rewrite Z.mul_1_r.
  - rewrite <- (Z.quot_opp_opp a (Z.neg p)) by done. f_equal; lia.
Qed.

(** Truncation toward zero, as a property of [Z.quot]. *)
Lemma quot_truncates (n d : Z) : d ≠ 0 → truncates n d (Z.quot n d).
Proof.
  intros Hd. unfold truncates.
  pose proof (Z.quot_rem n d Hd) as Hqr.
  pose proof (Z.rem_bound_abs n d Hd) as Hb.
  destruct (Z.le_ge_cases 0 n) as [Hn|Hn].
  - pose proof (Z.mul_quot_le n d Hn Hd).
    pose proof (Z.rem_nonneg n d Hd Hn).
    set (q := Z.quot n d) in *. set (r := Z.rem n d) in *.
    set (p := d * q) in *. lia.
  - pose proof (Z.mul_quot_ge n d Hn Hd).
    pose proof (Z.rem_nonpos n d Hd Hn).
    set (q := Z.quot n d) in *. set (r := Z.rem n d) in *.
    set (p := d * q) in *. lia.
Qed.

(** The accumulation loop computes the three edge sums. *)
Lemma green_sums_edges (prev : Point) (pts : list Point) (a b c : Z) :
  green_sums prev pts (a, b, c)
  = (a + sum_Z (cross <$> edges_from prev pts),
     b + sum_Z ((λ e, cross e * (e.1.1 + e.2.1)) <$> edges_from prev pts),
     c + sum_Z ((λ e, cross e * (e.1.2 + e.2.2)) <$> edges_from prev pts)).
Proof.
  revert prev a b c. induction pts as [|p rest IH]; intros prev a b c; simpl.
  - by rewrite !Z.add_0_r.
  - rewrite IH. simpl. by rewrite !Z.add_assoc.
Qed.

Lemma green_sums_polygon (pl : Point) (pts : Contour) :
  last pts = Some pl →
  green_sums pl pts (0, 0, 0) = (twice_area pts, moment_x pts, moment_y pts).
Proof.
  intros Hl. rewrite green_sums_edges.
  unfold twice_area, moment_x, moment_y, polygon_edges. by rewrite Hl.
Qed.

Lemma twice_area_nil : twice_area [] = 0.
Proof. reflexivity. Qed.

(** With a non-zero area the centroid is the truncated moment ratio. *)
Lemma get_centroid_nonzero (pts : Contour) :
  twice_area pts ≠ 0 →
  _get_centroid pts
  = Some (Z.quot (moment_x pts) (3 * twice_area pts),
          Z.quot (moment_y pts) (3 * twice_area pts)).
Proof.
  intros Ha. unfold _get_centroid, cv_moments.
  destruct (last pts) as [pl|] eqn:Hl.
  2:{ apply last_None in Hl. subst pts. done. }
  rewrite (green_sums_polygon pl pts Hl).
  destruct (Z.eqb_spec (twice_area pts) 0) as [|_]; [done|].
  destruct (Z.ltb_spec 0 (twice_area pts)) as [Hpos|Hneg]; cbn [m00 m10 m01].
  - replace (Qeq_bool (inject_Z (twice_area pts) * (1 # 2)) 0) with false.
    2:{ symmetry. unfold Qeq_bool, Qmult, inject_Z; simpl. lia. }
    cbn [negb]. rewrite !Qtrunc_scaled by done.
    rewrite !(Z.mul_comm (twice_area pts) 6).
    change 6 with (3 * 2). rewrite <- !Z.mul_assoc, !(Z.mul_comm 2), !Z.mul_assoc.
    rewrite !Z.quot_mul_cancel_r by lia. done.
  - replace (Qeq_bool (inject_Z (twice_area pts) * (-1 # 2)) 0) with false.
    2:{ symmetry. unfold Qeq_bool, Qmult, inject_Z; simpl. lia. }
    cbn [negb]. rewrite !Qtrunc_scaled_neg by done.
    rewrite !(Z.mul_comm (twice_area pts) 6).
    change 6 with (3 * 2). rewrite <- !Z.mul_assoc, !(Z.mul_comm 2), !Z.mul_assoc.
    rewrite !Z.quot_mul_cancel_r by lia. done.
Qed.

(** With a zero area the centroid is the fallback. *)
Lemma get_centroid_zero (pts : Contour) :
  twice_area pts = 0 → _get_centroid pts = mean_point pts.
Proof.
  intros Ha. unfold _get_centroid, cv_moments.
  destruct (last pts) as [pl|] eqn:Hl; [|done].
  rewrite (green_sums_polygon pl pts Hl), Ha. done.
Qed.

Lemma mean_point_nonempty (pts : Contour) :
  pts ≠ [] →
  mean_point pts
  = Some (Z.quot (sum_Z (fst <$> pts)) (Z.of_nat (length pts)),
          Z.quot (sum_Z (snd <$> pts)) (Z.of_nat (length pts))).
Proof.
  intros Hne. destruct pts as [|p rest]; [done|].
  unfold mean_point. rewrite !Qtrunc_div; [done| |]; simpl; lia.
Qed.

(** *** The structure of a pass *)

Lemma mapM_entries_lookup {A B : Type} (f : A → option B)
    (data : list (string * A)) (data' : list (string * B)) (k : nat)
    (name : string) (r : A) :
  mapM (λ '(img_name, record), record' ← f record; Some (img_name, record'))
       data = Some data' →
  data !! k = Some (name, r) →
  ∃ r', f r = Some r' ∧ data' !! k = Some (name, r').
Proof.
  intros HM Hk. apply mapM_Some_1 in HM.
  destruct (Forall2_lookup_l _ _ _ _ _ HM Hk) as ([name' r'] & Hk' & Hf).
  simpl in Hf. destruct (f r) as [r''|]; simplify_eq/=. eauto.
Qed.

Lemma metrics_record_Some (r1 r' : AnnotationRecord) :
  metrics_record r1 = Some r' →
  ∃ prs,
    mapM pair_record
      (combinations2
         (filter (λ o, has_tmp o = true) (metrics_object <$> objects r1)))
      = Some prs ∧
    r' = mkRecord (width r1) (height r1) (animals_found r1)
           (pop_tmp ∘ metrics_object <$> objects r1) (Some prs).
Proof.
  unfold metrics_record. intros H.
  destruct (mapM pair_record _) as [prs|] eqn:E; simplify_eq/=.
  exists prs. split; [done|]. unfold set_pairs, set_objects; simpl.
  by rewrite <- list_fmap_compose.
Qed.

Lemma preprocess_record_Some (r r1 : AnnotationRecord) :
  preprocess_record r = Some r1 →
  ∃ objs, mapM preprocess_object (objects r) = Some objs ∧
          r1 = set_objects objs r.
Proof.
  unfold preprocess_record. intros H.
  destruct (mapM preprocess_object _) as [objs|] eqn:E; simplify_eq/=. eauto.
Qed.

Lemma measure_lookup (data data' : Data) (cnt k : nat) (name : string)
    (r : AnnotationRecord) :
  measure data = Some (data', cnt) →
  data !! k = Some (name, r) →
  ∃ r1 r', preprocess_record r = Some r1 ∧ metrics_record r1 = Some r' ∧
           data' !! k = Some (name, r').
Proof.
  unfold measure, _calculate_all_metrics. intros HM Hk.
  destruct (_preprocess_coordinates data) as [d1|] eqn:E1; simplify_eq/=.
  destruct (mapM _ d1) as [d2|] eqn:E2; simplify_eq/=.
  destruct (mapM_entries_lookup _ _ _ _ _ _ E1 Hk) as (r1 & Hr1 & Hk1).
  destruct (mapM_entries_lookup _ _ _ _ _ _ E2 Hk1) as (r' & Hr' & Hk').
  eauto.
Qed.

Lemma measure_lookup_object (data data' : Data) (cnt k i : nat)
    (name : string) (r : AnnotationRecord) (obj : ObjectRecord) :
  measure data = Some (data', cnt) →
  data !! k = Some (name, r) →
  objects r !! i = Some obj →
  ∃ r' obj', data' !! k = Some (name, r') ∧
             objects r' !! i = Some obj' ∧
             measured_object obj = Some obj'.
Proof.
  intros HM Hk Hi.
  destruct (measure_lookup _ _ _ _ _ _ HM Hk) as (r1 & r' & H1 & H2 & Hk').
  apply preprocess_record_Some in H1 as (objs & Hobjs & ->).
  apply metrics_record_Some in H2 as (prs & _ & ->).
  apply mapM_Some_1 in Hobjs.
  destruct (Forall2_lookup_l _ _ _ _ _ Hobjs Hi) as (o1 & Hi1 & Ho1).
  eexists; exists (pop_tmp (metrics_object o1)). split; [exact Hk'|]. simpl.
  rewrite list_lookup_fmap, Hi1. split; [done|].
  unfold measured_object. by rewrite Ho1.
Qed.

(** *** One object *)

Lemma preprocess_object_other (obj : ObjectRecord) :
  ¬ two_eyes obj → preprocess_object obj = Some obj.
Proof.
  unfold two_eyes, preprocess_object. intros H. by rewrite decide_False.
Qed.

Lemma preprocess_object_two (obj : ObjectRecord) (e1 e2 : Contour)
    (c1 c2 : Point) :
  eyes obj = Some [e1; e2] →
  _get_centroid e1 = Some c1 →
  _get_centroid e2 = Some c2 →
  preprocess_object obj
  = Some (if c1.1 <=? c2.1 then set_tmp c1 c2 obj else set_tmp c2 c1 obj).
Proof.
  intros He H1 H2. unfold preprocess_object. rewrite He. simpl.
  rewrite H1, H2. simpl. by destruct (c1.1 <=? c2.1).
Qed.

Lemma preprocess_object_two_inv (obj o1 : ObjectRecord) (e1 e2 : Contour) :
  eyes obj = Some [e1; e2] →
  preprocess_object obj = Some o1 →
  ∃ c1 c2, _get_centroid e1 = Some c1 ∧ _get_centroid e2 = Some c2.
Proof.
  intros He. unfold preprocess_object. rewrite He. simpl.
  destruct (_get_centroid e1) as [c1|]; [|done].
  destruct (_get_centroid e2) as [c2|]; [|done]. eauto.
Qed.

Lemma measured_object_other (obj : ObjectRecord) :
  ¬ two_eyes obj → no_tmp obj → measured_object obj = Some obj.
Proof.
  intros H [HL HR]. unfold measured_object.
  rewrite preprocess_object_other by done. simpl.
  unfold metrics_object. rewrite HL. unfold pop_tmp.
  destruct obj; simpl in *. by subst.
Qed.

Lemma measured_object_two (obj : ObjectRecord) (e1 e2 : Contour)
    (c1 c2 : Point) :
  eyes obj = Some [e1; e2] →
  _get_centroid e1 = Some c1 →
  _get_centroid e2 = Some c2 →
  measured_object obj
  = Some (let '(l, r) := if c1.1 <=? c2.1 then (c1, c2) else (c2, c1) in
          pop_tmp (set_metrics (rounded_distance l r) l r obj)).
Proof.
  intros He H1 H2. unfold measured_object.
  rewrite (preprocess_object_two _ _ _ _ _ He H1 H2).
  by destruct (c1.1 <=? c2.1).
Qed.

(** *** Pairs *)

Lemma combinations2_fmap {A B : Type} (f : A → B) (l : list A) :
  combinations2 (f <$> l) = prod_map f f <$> combinations2 l.
Proof.
  induction l as [|x t IH]; [done|]. cbn [combinations2 fmap list_fmap].
  change (list_fmap A B f t) with (f <$> t).
  rewrite fmap_app, IH, <- !list_fmap_compose. done.
Qed.

Lemma elem_of_combinations2_seq (s n i j : nat) :
  (i, j) ∈ combinations2 (seq s n) ↔ (s ≤ i ∧ i < j ∧ j < s + n)%nat.
Proof.
  revert s. induction n as [|n IH]; intros s; simpl.
  - rewrite elem_of_nil. lia.
  - rewrite elem_of_app, list_elem_of_fmap, IH. split.
    + intros [(y & Heq & Hy)|H]; [|lia].
      simplify_eq. apply elem_of_seq in Hy. lia.
    + intros (H1 & H2 & H3). destruct (decide (i = s)) as [->|]; [|right; lia].
      left. exists j. split; [done|]. apply elem_of_seq. lia.
Qed.

Lemma NoDup_combinations2_seq (s n : nat) : NoDup (combinations2 (seq s n)).
Proof.
  revert s. induction n as [|n IH]; intros s; simpl; [constructor|].
  apply NoDup_app. split; [|split].
  - apply NoDup_fmap_2; [|apply NoDup_seq]. intros ???. by simplify_eq.
  - intros [i j] (y & Heq & Hy)%list_elem_of_fmap. simplify_eq.
    rewrite elem_of_combinations2_seq. lia.
  - apply IH.
Qed.

Lemma length_combinations2 {A : Type} (l : list A) :
  (2 * length (combinations2 l) = length l * (length l - 1))%nat.
Proof.
  induction l as [|x t IH]; [done|]. simpl.
  rewrite length_app, length_fmap. nia.
Qed.

(** The pairs of [combinations2 l] are those of the positions [i < j],
    in the same order. *)
Lemma combinations2_positions {A : Type} (l : list A) (s : nat) :
  Forall2 (λ ij ab, (s ≤ ij.1)%nat ∧ (s ≤ ij.2)%nat ∧
                    l !! (ij.1 - s)%nat = Some ab.1 ∧
                    l !! (ij.2 - s)%nat = Some ab.2)
          (combinations2 (seq s (length l))) (combinations2 l).
Proof.
  revert s. induction l as [|x t IH]; intros s; simpl; [constructor|].
  apply Forall2_app.
  - apply Forall2_fmap. apply Forall2_same_length_lookup. split.
    + by rewrite length_seq.
    + intros i j b Hj Hb. simpl. apply lookup_seq in Hj as [-> Hlt].
      repeat split; [lia..| |].
      * by replace (s - s)%nat with 0%nat by lia.
      * by replace (S s + i - s)%nat with (S i) by lia.
  - eapply Forall2_impl; [apply (IH (S s))|].
    intros [i j] [a b] (H1 & H2 & H3 & H4); simpl in *.
    repeat split; [lia..| |].
    + by replace (i - s)%nat with (S (i - S s)) by lia.
    + by replace (j - s)%nat with (S (j - S s)) by lia.
Qed.

Lemma has_tmp_metrics (o : ObjectRecord) :
  has_tmp (metrics_object o) = has_tmp o.
Proof.
  unfold metrics_object, has_tmp.
  destruct (_tmp_eye_L o) eqn:EL, (_tmp_eye_R o) eqn:ER; simpl;
    by rewrite ?EL, ?ER.
Qed.

Lemma has_tmp_true (o : ObjectRecord) :
  has_tmp o = true ↔ ∃ l r, _tmp_eye_L o = Some l ∧ _tmp_eye_R o = Some r.
Proof.
  unfold has_tmp. rewrite andb_true_iff, !bool_decide_eq_true.
  unfold is_Some. split.
  - intros [[l Hl] [r Hr]]. eauto.
  - intros (l & r & Hl & Hr). eauto.
Qed.

Lemma preprocess_object_eyes (obj o1 : ObjectRecord) :
  preprocess_object obj = Some o1 →
  eyes o1 = eyes obj ∧ object_id o1 = object_id obj ∧
  (two_eyes obj → has_tmp o1 = true) ∧ (¬ two_eyes obj → o1 = obj).
Proof.
  unfold preprocess_object, two_eyes. intros H.
  destruct (decide (length (default [] (eyes obj)) = 2%nat)) as [H2|H2].
  - apply bind_Some in H as (cs & _ & H).
    apply bind_Some in H as (l & _ & H).
    apply bind_Some in H as (r & _ & H). simplify_eq. done.
  - simplify_eq. done.
Qed.

Lemma metrics_object_fields (o : ObjectRecord) :
  eyes (metrics_object o) = eyes o ∧
  object_id (metrics_object o) = object_id o.
Proof.
  unfold metrics_object. by destruct (_tmp_eye_L o), (_tmp_eye_R o).
Qed.

Lemma measured_object_fields (obj obj' : ObjectRecord) :
  measured_object obj = Some obj' →
  eyes obj' = eyes obj ∧ object_id obj' = object_id obj.
Proof.
  unfold measured_object. intros H.
  destruct (preprocess_object obj) as [o1|] eqn:E; simplify_eq/=.
  destruct (preprocess_object_eyes _ _ E) as (He & Hi & _).
  destruct (metrics_object_fields o1) as [He' Hi']. split; congruence.
Qed.

(** The objects Part A collects are, once cleaned, the objects of the
    result that carry two contours. *)
Lemma qualifying_objects (objs objs1 : list ObjectRecord) :
  Forall2 (λ obj o1, preprocess_object obj = Some o1) objs objs1 →
  Forall no_tmp objs →
  pop_tmp <$> filter (λ o, has_tmp o = true) (metrics_object <$> objs1)
  = filter two_eyes (pop_tmp ∘ metrics_object <$> objs1).
Proof.
  induction 1 as [|obj o1 objs objs1 Ho1 _ IH]; intros Hno; [done|].
  apply Forall_cons in Hno as [[HL HR] Hno]. specialize (IH Hno).
  destruct (preprocess_object_eyes _ _ Ho1) as (He & _ & Hyes & Hnot).
  rewrite !fmap_cons, !filter_cons.
  destruct (decide (two_eyes obj)) as [H2|H2].
  - rewrite decide_True by (rewrite has_tmp_metrics; auto).
    rewrite decide_True.
    2:{ unfold two_eyes in *. simpl.
        by rewrite (proj1 (metrics_object_fields o1)), He. }
    rewrite fmap_cons. by rewrite IH.
  - rewrite (Hnot H2).
    rewrite decide_False.
    2:{ rewrite has_tmp_metrics, has_tmp_true. intros (l & r & ? & ?).
        congruence. }
    rewrite decide_False; [done|].
    unfold two_eyes in *. simpl.
    by rewrite (proj1 (metrics_object_fields obj)).
Qed.

Lemma pair_record_pop (ab : ObjectRecord * ObjectRecord) :
  pair_record (prod_map pop_tmp pop_tmp ab) = pair_record ab.
Proof. by destruct ab. Qed.

Lemma mapM_fmap_compose {A B C : Type} (f : B → option C) (g : A → B)
    (l : list A) :
  mapM f (g <$> l) = mapM (f ∘ g) l.
Proof.
  induction l as [|x t IH]; [done|]. simpl. unfold fmap in IH.
  destruct (f (g x)); simpl; [by rewrite IH|done].
Qed.

(** The pair records of a measured record are those of the pairs of
    objects with two contours, in the order of [combinations2]. *)
Lemma measure_pairs (data data' : Data) (cnt k : nat) (name : string)
    (r : AnnotationRecord) :
  measure data = Some (data', cnt) →
  data !! k = Some (name, r) →
  Forall no_tmp (objects r) →
  ∃ r' prs,
    data' !! k = Some (name, r') ∧
    pairs r' = Some prs ∧
    Forall2 (λ obj obj', measured_object obj = Some obj')
            (objects r) (objects r') ∧
    mapM pair_record (combinations2 (filter two_eyes (objects r')))
    = Some prs.
Proof.
  intros HM Hk Hno.
  destruct (measure_lookup _ _ _ _ _ _ HM Hk) as (r1 & r' & H1 & H2 & Hk').
  apply preprocess_record_Some in H1 as (objs & Hobjs & ->).
  apply metrics_record_Some in H2 as (prs & Hprs & ->).
  apply mapM_Some_1 in Hobjs. simpl in *.
  eexists; exists prs. split; [exact Hk'|]. split; [done|]. simpl. split.
  - apply Forall2_fmap_r. eapply Forall2_impl; [exact Hobjs|].
    intros obj o1 Ho1. unfold measured_object. by rewrite Ho1.
  - rewrite <- (qualifying_objects _ _ Hobjs Hno), combinations2_fmap.
    rewrite mapM_fmap_compose. rewrite <- Hprs. apply mapM_ext.
    intros ab. apply pair_record_pop.
Qed.

(** *** The pass returns *)

Lemma get_centroid_is_Some (pts : Contour) :
  pts ≠ [] → is_Some (_get_centroid pts).
Proof.
  intros Hne. destruct (decide (twice_area pts = 0)) as [Ha|Ha].
  - rewrite (get_centroid_zero _ Ha), (mean_point_nonempty _ Hne). eauto.
  - rewrite (get_centroid_nonzero _ Ha). eauto.
Qed.

Lemma preprocess_object_is_Some (obj : ObjectRecord) :
  usable_eyes obj → is_Some (preprocess_object obj).
Proof.
  intros Hu. destruct (decide (two_eyes obj)) as [H2|H2].
  - specialize (Hu H2). unfold two_eyes in H2.
    destruct (eyes obj) as [[|e1 [|e2 [|e3 rest]]]|] eqn:He; try done.
    simpl in Hu. apply Forall_cons in Hu as [Hn1 Hu].
    apply Forall_cons in Hu as [Hn2 _].
    destruct (get_centroid_is_Some _ Hn1) as [c1 Hc1].
    destruct (get_centroid_is_Some _ Hn2) as [c2 Hc2].
    rewrite (preprocess_object_two _ _ _ _ _ He Hc1 Hc2). eauto.
  - rewrite preprocess_object_other by done. eauto.
Qed.

Lemma elem_of_combinations2 {A : Type} (l : list A) (a b : A) :
  (a, b) ∈ combinations2 l → a ∈ l ∧ b ∈ l.
Proof.
  induction l as [|x t IH]; simpl; [by rewrite elem_of_nil|].
  rewrite elem_of_app, list_elem_of_fmap, !elem_of_cons.
  intros [(y & Heq & Hy)|H]; [simplify_eq; auto|].
  destruct (IH H); auto.
Qed.

Lemma metrics_object_right (o : ObjectRecord) :
  has_tmp o = true → is_Some (eye_R_center (metrics_object o)).
Proof.
  intros (l & r & HL & HR)%has_tmp_true. unfold metrics_object.
  rewrite HL, HR. simpl. eauto.
Qed.

Lemma metrics_record_is_Some (r1 : AnnotationRecord) :
  is_Some (metrics_record r1).
Proof.
  unfold metrics_record.
  destruct (mapM pair_record _) as [prs|] eqn:E; [simpl; eauto|].
  apply mapM_None_1, Exists_exists in E as ([a b] & Hin & Hnone).
  apply elem_of_combinations2 in Hin as [Ha Hb].
  apply list_elem_of_filter in Ha as [Ha (oa & -> & _)%list_elem_of_fmap].
  apply list_elem_of_filter in Hb as [Hb (ob & -> & _)%list_elem_of_fmap].
  rewrite has_tmp_metrics in Ha, Hb.
  destruct (metrics_object_right _ Ha) as [ra Hra].
  destruct (metrics_object_right _ Hb) as [rb Hrb].
  unfold pair_record in Hnone. simpl in Hnone.
  by rewrite Hra, Hrb in Hnone.
Qed.

Lemma mapM_entries_is_Some {A B : Type} (f : A → option B)
    (data : list (string * A)) :
  Forall (λ entry, is_Some (f entry.2)) data →
  is_Some (mapM (λ '(img_name, record),
                   record' ← f record; Some (img_name, record')) data).
Proof.
  intros H. apply mapM_is_Some_2. eapply Forall_impl; [exact H|].
  intros [name r] [r' Hr']; simpl in *. rewrite Hr'. simpl. eauto.
Qed.

(** Every document whose contours have points is measured. *)
Lemma measure_total (data : Data) :
  usable_data data → ∃ data' cnt, measure data = Some (data', cnt).
Proof.
  intros Hu. unfold measure, _preprocess_coordinates, _calculate_all_metrics.
  destruct (mapM_entries_is_Some preprocess_record data) as [d1 Hd1].
  { eapply Forall_impl; [exact Hu|]. intros [name r] Hobjs; simpl in *.
    unfold preprocess_record.
    destruct (mapM_is_Some_2 preprocess_object (objects r)) as [objs Ho].
    - eapply Forall_impl; [exact Hobjs|].
      intros obj. apply preprocess_object_is_Some.
    - rewrite Ho. simpl. eauto. }
  rewrite Hd1. simpl.
  destruct (mapM_entries_is_Some metrics_record d1) as [d2 Hd2].
  { apply Forall_forall. intros [name r1] _. apply metrics_record_is_Some. }
  rewrite Hd2. simpl. eauto.
Qed.

Lemma preprocess_object_usable (obj : ObjectRecord) :
  is_Some (preprocess_object obj) → usable_eyes obj.
Proof.
  intros [o1 Ho1] H2. unfold two_eyes in H2.
  destruct (eyes obj) as [[|e1 [|e2 [|e3 rest]]]|] eqn:He; try done.
  destruct (preprocess_object_two_inv _ _ _ _ He Ho1)
    as (c1 & c2 & Hc1 & Hc2).
  simpl. repeat constructor; intros ->; done.
Qed.

(** The pass returns exactly on the documents whose contours have
    points. *)
Lemma measure_returns_iff (data : Data) :
  is_Some (measure data) ↔ usable_data data.
Proof.
  split.
  - intros [[data' cnt] HM]. apply Forall_lookup. intros k [name r] Hk.
    destruct (measure_lookup _ _ _ _ _ _ HM Hk) as (r1 & _ & H1 & _ & _).
    apply preprocess_record_Some in H1 as (objs & Hobjs & _). simpl.
    assert (is_Some (mapM preprocess_object (objects r))) as Hsome
      by (by rewrite Hobjs).
    apply mapM_is_Some_1 in Hsome.
    eapply Forall_impl; [exact Hsome|].
    intros obj. apply preprocess_object_usable.
  - intros Hu. destruct (measure_total _ Hu) as (data' & cnt & ->). eauto.
Qed.

(** *** Rounding and truncation *)

Lemma round2_sqrt_nearest (n : Z) :
  0 ≤ n → ∃ h, round2_sqrt n = h # 100 ∧ nearest_hundredth n h.
Proof.
  intros Hn. exists ((Z.sqrt (40000 * n) + 1) / 2). split; [done|].
  pose proof (Z.sqrt_spec (40000 * n) ltac:(lia)) as Hs. simpl in Hs.
  pose proof (Z.sqrt_nonneg (40000 * n)) as Hs0.
  set (s := Z.sqrt (40000 * n)) in *.
  pose proof (Z.div_mod (s + 1) 2 ltac:(lia)) as Hdm.
  pose proof (Z.mod_pos_bound (s + 1) 2 ltac:(lia)) as Hm.
  set (h := (s + 1) / 2) in *. set (m := (s + 1) mod 2) in *.
  unfold nearest_hundredth. nia.
Qed.

Lemma squared_distance_nonneg (p1 p2 : Point) : 0 ≤ squared_distance p1 p2.
Proof. unfold squared_distance. nia. Qed.

Lemma rounded_distance_nearest (p1 p2 : Point) :
  ∃ h, rounded_distance p1 p2 = h # 100 ∧
       nearest_hundredth (squared_distance p1 p2) h.
Proof. apply round2_sqrt_nearest, squared_distance_nonneg. Qed.

Lemma get_centroid_truncated (pts : Contour) (c : Point) :
  _get_centroid pts = Some c → truncated_centroid pts c.
Proof.
  intros Hc. unfold truncated_centroid.
  destruct (decide (twice_area pts = 0)) as [Ha|Ha].
  - rewrite (get_centroid_zero _ Ha) in Hc.
    assert (pts ≠ []) as Hne by (intros ->; done).
    rewrite (mean_point_nonempty _ Hne) in Hc. simplify_eq. simpl.
    split; apply quot_truncates; destruct pts; simpl; (done || lia).
  - rewrite (get_centroid_nonzero _ Ha) in Hc. simplify_eq. simpl.
    split; apply quot_truncates; lia.
Qed.

Lemma collinear_zero_area (p q r : Point) :
  collinear p q r → twice_area [p; q; r] = 0.
Proof.
  unfold collinear, twice_area, polygon_edges, cross; simpl. lia.
Qed.



(** *** More on pairs *)

Lemma filter_delete_skip {A : Type} (P : A → Prop) `{∀ x, Decision (P x)}
    (l : list A) (i : nat) (x : A) :
  l !! i = Some x → ¬ P x → filter P (delete i l) = filter P l.
Proof.
  intros Hi Hx. rewrite delete_take_drop.
  rewrite <- (take_drop_middle l i x Hi) at 3.
  by rewrite !filter_app, filter_cons_False.
Qed.

Lemma pair_record_Some (a b : ObjectRecord) (p : PairRecord) :
  pair_record (a, b) = Some p →
  ∃ ra rb, eye_R_center a = Some ra ∧ eye_R_center b = Some rb ∧
           p = mkPair (id_or_unknown a) (id_or_unknown b)
                      (rounded_distance ra rb).
Proof.
  unfold pair_record; simpl. intros H.
  destruct (eye_R_center a) as [ra|]; [|done].
  destruct (eye_R_center b) as [rb|]; [|done].
  simplify_eq/=. eauto.
Qed.

Lemma mapM_elem_of {A B : Type} (f : A → option B) (l : list A)
    (k : list B) (y : B) :
  mapM f l = Some k → y ∈ k → ∃ x, x ∈ l ∧ f x = Some y.
Proof.
  intros HM (i & Hi)%list_elem_of_lookup. apply mapM_Some_1 in HM.
  destruct (Forall2_lookup_r _ _ _ _ _ HM Hi) as (x & Hx & Hf).
  exists x. split; [|done]. apply list_elem_of_lookup. eauto.
Qed.

Lemma mapM_entries_Forall2 {A B : Type} (f : A → option B)
    (data : list (string * A)) (data' : list (string * B)) :
  mapM (λ '(img_name, record), record' ← f record; Some (img_name, record'))
       data = Some data' ↔
  Forall2 (λ e e', e'.1 = e.1 ∧ f e.2 = Some e'.2) data data'.
Proof.
  rewrite mapM_Some.
  split; intros H; (eapply Forall2_impl; [exact H|]);
    intros [n r] [n' r']; simpl; destruct (f r) as [r''|]; simpl;
    intros; destruct_and?; simplify_eq; auto.
Qed.

(** What an earlier pass left under ["pairs"] does not reach the result. *)
Lemma measure_old_pairs (data data' : Data) (cnt k : nat) (name : string)
    (r : AnnotationRecord) (old : option (list PairRecord)) :
  measure data = Some (data', cnt) →
  data !! k = Some (name, r) →
  measure (<[k := (name, with_pairs old r)]> data) = Some (data', cnt).
Proof.
  unfold measure, _preprocess_coordinates, _calculate_all_metrics.
  intros HM Hk.
  destruct (mapM _ data) as [d1|] eqn:E1; simplify_eq/=.
  destruct (mapM _ d1) as [d2|] eqn:E2; simplify_eq/=.
  apply mapM_entries_Forall2 in E1, E2.
  destruct (Forall2_lookup_l _ _ _ _ _ E1 Hk) as ([n1 r1] & Hk1 & Hn1 & H1).
  destruct (Forall2_lookup_l _ _ _ _ _ E2 Hk1) as ([n2 r2] & Hk2 & Hn2 & H2).
  simpl in *. subst n1 n2.
  apply preprocess_record_Some in H1 as (objs & Hobjs & ->).
  assert (mapM (λ '(img_name, record),
                  record' ← preprocess_record record; Some (img_name, record'))
               (<[k := (name, with_pairs old r)]> data)
          = Some (<[k := (name, set_objects objs (with_pairs old r))]> d1))
    as ->.
  { apply mapM_entries_Forall2. apply Forall2_insert; [done|]. simpl.
    split; [done|]. unfold preprocess_record. simpl. by rewrite Hobjs. }
  simpl.
  assert (mapM (λ '(img_name, record),
                  record' ← metrics_record record; Some (img_name, record'))
               (<[k := (name, set_objects objs (with_pairs old r))]> d1)
          = Some data') as ->; [|done].
  apply mapM_entries_Forall2. rewrite <- (list_insert_id data' k _ Hk2).
  apply Forall2_insert; [done|]. simpl. split; [done|]. exact H2.
Qed.

(** Every pair record is the rounded distance between the right landmarks
    of two objects of the result. *)
Lemma measure_pair_sources (data data' : Data) (cnt k : nat) (name : string)
    (r : AnnotationRecord) :
  measure data = Some (data', cnt) →
  data !! k = Some (name, r) →
  ∃ r' prs, data' !! k = Some (name, r') ∧ pairs r' = Some prs ∧
    ∀ p, p ∈ prs →
      ∃ a b ra rb, a ∈ objects r' ∧ b ∈ objects r' ∧
                   eye_R_center a = Some ra ∧ eye_R_center b = Some rb ∧
                   right_eye_dist p = rounded_distance ra rb.
Proof.
  intros HM Hk.
  destruct (measure_lookup _ _ _ _ _ _ HM Hk) as (r1 & r' & _ & H2 & Hk').
  apply metrics_record_Some in H2 as (prs & Hprs & ->).
  eexists; exists prs. split; [exact Hk'|]. split; [done|]. simpl.
  intros p Hp.
  destruct (mapM_elem_of _ _ _ _ Hprs Hp) as ([a b] & Hin & Hrec).
  apply pair_record_Some in Hrec as (ra & rb & Hra & Hrb & ->).
  apply elem_of_combinations2 in Hin as [Ha Hb].
  apply list_elem_of_filter in Ha as [_ Ha], Hb as [_ Hb].
  exists (pop_tmp a), (pop_tmp b), ra, rb. simpl.
  rewrite list_fmap_compose. repeat split; try done.
  - by apply list_elem_of_fmap_2.
  - by apply list_elem_of_fmap_2.
Qed.

(** The document a pass returns carries no temporary key. *)
Lemma measure_no_tmp (data data' : Data) (cnt : nat) :
  measure data = Some (data', cnt) →
  Forall (λ entry, Forall no_tmp (objects entry.2)) data'.
Proof.
  unfold measure, _calculate_all_metrics. intros HM.
  destruct (_preprocess_coordinates data) as [d1|]; simplify_eq/=.
  destruct (mapM _ d1) as [d2|] eqn:E2; simplify_eq/=.
  apply mapM_entries_Forall2 in E2.
  apply Forall_lookup. intros k [name r'] Hk'.
  destruct (Forall2_lookup_r _ _ _ _ _ E2 Hk') as ([n1 r1] & _ & _ & Hr1).
  simpl in *. apply metrics_record_Some in Hr1 as (prs & _ & ->). simpl.
  apply Forall_fmap, Forall_forall. by intros obj _.
Qed.

End MeasurementFacts.

(** ** Measurement: the stated properties *)

Module MeasurementClaims.
Import Measurement Polygon MeasurementFacts Precision.

(** Claim C5, as the code has it.  Every contour with at least one point,
    in the range where the arithmetic is exact, has a centroid: when the
    signed area is not zero it is the area-weighted polygon centroid (each
    coordinate truncated), and when the signed area is zero, as for three
    collinear points, it is the arithmetic mean of the points (truncated),
    with no division by zero. *)
Theorem get_centroid_total (pts : Contour) :
  pts ≠ [] →
  exact_contour pts →
  ∃ c, _get_centroid pts = Some c ∧
       (twice_area pts ≠ 0 →
        c = (Z.quot (moment_x pts) (3 * twice_area pts),
             Z.quot (moment_y pts) (3 * twice_area pts))) ∧
       (twice_area pts = 0 →
        c = (Z.quot (sum_Z (fst <$> pts)) (Z.of_nat (length pts)),
             Z.quot (sum_Z (snd <$> pts)) (Z.of_nat (length pts)))) ∧
       (∀ p q r, pts = [p; q; r] → collinear p q r →
        c = (Z.quot (p.1 + q.1 + r.1) 3, Z.quot (p.2 + q.2 + r.2) 3)).
Proof.
  intros Hne _. destruct (decide (twice_area pts = 0)) as [Ha|Ha].
  - eexists. split; [|split; [|split]].
    + rewrite (get_centroid_zero _ Ha). by apply mean_point_nonempty.
    + done.
    + done.
    + intros p q r -> _. simpl. by rewrite !Z.add_0_r, !Z.add_assoc.
  - eexists. split; [|split; [|split]].
    + by apply get_centroid_nonzero.
    + done.
    + done.
    + intros p q r -> Hcol. by apply collinear_zero_area in Hcol.
Qed.

Lemma get_centroid_total_witness :
  _get_centroid Demo.flat = Some (2, 2) ∧
  _get_centroid (square 70 50 5) = Some (70, 50).
Proof.
  split.
  - destruct (get_centroid_total Demo.flat) as (c & Hc & _ & Hmean & _).
    + discriminate.
    + by_decide.
    + rewrite Hc. f_equal. apply Hmean. reflexivity.
  - destruct (get_centroid_total (square 70 50 5)) as (c & Hc & Harea & _).
    + discriminate.
    + by_decide.
    + rewrite Hc. f_equal. apply Harea. discriminate.
Defined.

(** Claim C5 fails as stated: the empty contour has no centroid (the mean
    of no point is not a number, and what the code returns is not a
    point), and the pass raises on an object that carries it. *)
Lemma empty_contour_has_no_centroid :
  _get_centroid [] = None ∧
  measure [("a.jpg"%string,
            mkRecord 200 200 1
              [Demo.animal 0 (30, 30, 90, 70) [] [[]; square 50 50 5]] None)]
  = None.
Proof. split; reflexivity. Qed.



(** Claim C4.  For an object with exactly two contours the two centroids
    are sorted by horizontal coordinate: the stored left landmark is not to
    the right of the stored right landmark, and when the horizontal
    coordinates are equal the first contour gives the left landmark. *)
Theorem left_right_assignment (data : Data) (k i : nat) (name : string)
    (r : AnnotationRecord) (obj : ObjectRecord) (e1 e2 : Contour) :
  usable_data data →
  data !! k = Some (name, r) →
  objects r !! i = Some obj →
  eyes obj = Some [e1; e2] →
  ∃ data' cnt r' obj' c1 c2 l rr,
    measure data = Some (data', cnt) ∧
    data' !! k = Some (name, r') ∧ objects r' !! i = Some obj' ∧
    _get_centroid e1 = Some c1 ∧ _get_centroid e2 = Some c2 ∧
    eye_L_center obj' = Some l ∧ eye_R_center obj' = Some rr ∧
    l.1 ≤ rr.1 ∧
    (c1.1 ≤ c2.1 → l = c1 ∧ rr = c2) ∧
    (c2.1 < c1.1 → l = c2 ∧ rr = c1).
Proof.
  intros Hu Hk Hi He.
  destruct (measure_total _ Hu) as (data' & cnt & HM).
  destruct (measure_lookup_object _ _ _ _ _ _ _ _ HM Hk Hi)
    as (r' & obj' & Hk' & Hi' & Hobj').
  assert (∃ c1 c2, _get_centroid e1 = Some c1 ∧ _get_centroid e2 = Some c2)
    as (c1 & c2 & Hc1 & Hc2).
  { unfold measured_object in Hobj'.
    destruct (preprocess_object obj) as [o1|] eqn:Ho1; [|done].
    eapply preprocess_object_two_inv; eauto. }
  rewrite (measured_object_two _ _ _ _ _ He Hc1 Hc2) in Hobj'.
  exists data', cnt, r', obj', c1, c2.
  destruct (Z.leb_spec c1.1 c2.1) as [Hle|Hlt]; simplify_eq.
  - exists c1, c2. repeat split; try done; lia.
  - exists c2, c1. repeat split; try done; lia.
Qed.

Lemma left_right_assignment_witness :
  ∃ data' cnt r' obj' c1 c2 l rr,
    measure Demo.document = Some (data', cnt) ∧
    data' !! 0%nat = Some ("a.jpg"%string, r') ∧
    objects r' !! 0%nat = Some obj' ∧
    _get_centroid (square 70 50 5) = Some c1 ∧
    _get_centroid (square 50 50 4) = Some c2 ∧
    eye_L_center obj' = Some l ∧ eye_R_center obj' = Some rr ∧
    l.1 ≤ rr.1 ∧
    (c1.1 ≤ c2.1 → l = c1 ∧ rr = c2) ∧
    (c2.1 < c1.1 → l = c2 ∧ rr = c1).
Proof.
  eapply (left_right_assignment Demo.document 0 0 "a.jpg" Demo.image_record).
  - by_decide.
  - reflexivity.
  - reflexivity.
  - reflexivity.
Defined.

(** Claim C3.  An object whose contour sequence has a length other than
    two gets no metrics: the pass leaves its record as it was (no distance,
    no left or right landmark is written), the pair records are those of
    the other objects, and, identifiers being unique, none names it. *)
Theorem other_counts_excluded (data : Data) (k i : nat) (name : string)
    (r : AnnotationRecord) (obj : ObjectRecord) :
  usable_data data →
  data !! k = Some (name, r) →
  Forall no_tmp (objects r) →
  objects r !! i = Some obj →
  ¬ two_eyes obj →
  ∃ data' cnt r' prs,
    measure data = Some (data', cnt) ∧
    data' !! k = Some (name, r') ∧
    objects r' !! i = Some obj ∧
    pairs r' = Some prs ∧
    mapM pair_record
         (combinations2 (filter two_eyes (delete i (objects r')))) = Some prs ∧
    ((∀ j o, j ≠ i → objects r !! j = Some o →
             id_or_unknown o ≠ id_or_unknown obj) →
     ∀ p, p ∈ prs →
          obj_1_id p ≠ id_or_unknown obj ∧ obj_2_id p ≠ id_or_unknown obj).
Proof.
  intros Hu Hk Hno Hi Hn2.
  destruct (measure_total _ Hu) as (data' & cnt & HM).
  destruct (measure_pairs _ _ _ _ _ _ HM Hk Hno)
    as (r' & prs & Hk' & Hprs & Hobjs & Hcomb).
  assert (objects r' !! i = Some obj) as Hi'.
  { destruct (Forall2_lookup_l _ _ _ _ _ Hobjs Hi) as (obj' & Hi' & Hm).
    rewrite measured_object_other in Hm; [by simplify_eq|done|].
    by eapply Forall_lookup_1 in Hno. }
  exists data', cnt, r', prs.
  split; [done|]. split; [done|]. split; [done|]. split; [done|]. split.
  { by rewrite (filter_delete_skip _ _ _ _ Hi' Hn2). }
  intros Huniq p Hp.
  destruct (mapM_elem_of _ _ _ _ Hcomb Hp) as ([a b] & Hin & Hrec).
  apply pair_record_Some in Hrec as (ra & rb & _ & _ & ->). simpl.
  apply elem_of_combinations2 in Hin as [Ha Hb].
  assert (∀ c, c ∈ filter two_eyes (objects r') →
               id_or_unknown c ≠ id_or_unknown obj) as Hother.
  { intros c [Hc2 (j & Hj)%list_elem_of_lookup]%list_elem_of_filter.
    destruct (Forall2_lookup_r _ _ _ _ _ Hobjs Hj) as (o & Ho & Hm).
    assert (j ≠ i) by (intros ->; simplify_eq; done).
    unfold id_or_unknown at 1.
    rewrite (proj2 (measured_object_fields _ _ Hm)). by eapply Huniq. }
  split; by apply Hother.
Qed.

Lemma other_counts_excluded_witness :
  ∃ data' cnt r' prs,
    measure Demo.document = Some (data', cnt) ∧
    data' !! 0%nat = Some ("a.jpg"%string, r') ∧
    objects r' !! 2%nat
    = Some (Demo.animal 2 (60, 120, 120, 160)
              [(60, 120); (120, 120); (120, 160); (60, 160)]
              [square 90 140 3]) ∧
    pairs r' = Some prs ∧
    mapM pair_record
         (combinations2 (filter two_eyes (delete 2%nat (objects r'))))
    = Some prs ∧
    ((∀ j o, j ≠ 2%nat → objects Demo.image_record !! j = Some o →
             id_or_unknown o ≠ IdInt 2) →
     ∀ p, p ∈ prs → obj_1_id p ≠ IdInt 2 ∧ obj_2_id p ≠ IdInt 2).
Proof.
  eapply (other_counts_excluded Demo.document 0 2 "a.jpg" Demo.image_record).
  - by_decide.
  - reflexivity.
  - by_decide.
  - reflexivity.
  - by_decide.
Defined.

(** Claim C6.  For every image the pass emits exactly one pair record
    for each pair of positions [i < j] of the qualifying objects (the
    objects with two contours, which hold both landmarks); the record
    carries the declared identifiers of the two objects in that order and,
    for landmarks in the range where the arithmetic is exact, the
    Euclidean distance between the two right landmarks rounded to two
    decimal places; and the pair records are built anew, whatever
    ["pairs"] held before. *)
Theorem pair_records_complete (data : Data) (k : nat) (name : string)
    (r : AnnotationRecord) :
  usable_data data →
  data !! k = Some (name, r) →
  Forall no_tmp (objects r) →
  ∃ data' cnt r' prs,
    measure data = Some (data', cnt) ∧
    data' !! k = Some (name, r') ∧
    pairs r' = Some prs ∧
    let q := filter (λ o, length (default [] (eyes o)) = 2%nat) (objects r') in
    let positions := combinations2 (seq 0 (length q)) in
    Forall (λ o, is_Some (eye_L_center o) ∧ is_Some (eye_R_center o)) q ∧
    Forall2 (λ ij p,
               ∃ a b (ra rb : Point),
                 q !! ij.1 = Some a ∧ q !! ij.2 = Some b ∧
                 eye_R_center a = Some ra ∧ eye_R_center b = Some rb ∧
                 obj_1_id p = match object_id a with
                              | Some n => IdInt n
                              | None => IdUnknown
                              end ∧
                 obj_2_id p = match object_id b with
                              | Some n => IdInt n
                              | None => IdUnknown
                              end ∧
                 (exact_distance ra rb →
                  ∃ h, right_eye_dist p = h # 100 ∧
                       nearest_hundredth
                         ((ra.1 - rb.1) ^ 2 + (ra.2 - rb.2) ^ 2) h))
            positions prs ∧
    NoDup positions ∧
    (∀ i j, (i, j) ∈ positions ↔ (i < j < length q)%nat) ∧
    (∀ old, measure (<[k := (name, with_pairs old r)]> data)
            = Some (data', cnt)).
Proof.
  intros Hu Hk Hno.
  destruct (measure_total _ Hu) as (data' & cnt & HM).
  destruct (measure_pairs _ _ _ _ _ _ HM Hk Hno)
    as (r' & prs & Hk' & Hprs & Hobjs & Hcomb).
  exists data', cnt, r', prs. split; [done|]. split; [done|].
  split; [done|]. cbv zeta.
  change (filter (λ o, length (default [] (eyes o)) = 2%nat) (objects r'))
    with (filter two_eyes (objects r')).
  split; [|split; [|split; [|split]]].
  - apply Forall_forall. intros o [Ho2 Ho]%list_elem_of_filter.
    apply list_elem_of_lookup in Ho as (j & Hj).
    destruct (Forall2_lookup_r _ _ _ _ _ Hobjs Hj) as (o0 & Ho0 & Hm).
    destruct (measured_object_fields _ _ Hm) as [He _].
    unfold two_eyes in Ho2. rewrite He in Ho2.
    destruct (eyes o0) as [[|e1 [|e2 [|]]]|] eqn:Heyes; simplify_eq/=.
    assert (∃ c1 c2, _get_centroid e1 = Some c1 ∧ _get_centroid e2 = Some c2)
      as (c1 & c2 & Hc1 & Hc2).
    { unfold measured_object in Hm.
      destruct (preprocess_object o0) as [o1|] eqn:Ho1; [|done].
      exact (preprocess_object_two_inv _ _ _ _ Heyes Ho1). }
    rewrite (measured_object_two _ _ _ _ _ Heyes Hc1 Hc2) in Hm.
    destruct (c1.1 <=? c2.1); simplify_eq/=; split; eauto.
  - apply mapM_Some_1 in Hcomb.
    eapply Forall2_trans; [|apply (combinations2_positions _ 0)|exact Hcomb].
    intros [i j] [a b] p (_ & _ & Ha & Hb) Hp. simpl in *.
    rewrite Nat.sub_0_r in Ha, Hb.
    apply pair_record_Some in Hp as (ra & rb & Hra & Hrb & ->).
    exists a, b, ra, rb. simpl. split_and!; try done.
    intros _. destruct (rounded_distance_nearest ra rb) as (h & Hh & Hnear).
    exists h. by rewrite Hh.
  - apply NoDup_combinations2_seq.
  - intros i j. rewrite elem_of_combinations2_seq. lia.
  - intros old. by apply measure_old_pairs.
Qed.


Lemma pair_records_complete_witness :
  ∃ data' cnt r',
    measure Scenario.reversed_document = Some (data', cnt) ∧
    data' !! 0%nat = Some ("a.jpg"%string, r') ∧
    pairs r' = Some [mkPair (IdInt 7) (IdInt 2) (10000 # 100)] ∧
    ∀ old,
      measure (<[0%nat := ("a.jpg"%string,
                           with_pairs old Scenario.reversed_record)]>
                 Scenario.reversed_document)
      = Some (data', cnt).
Proof.
  destruct (pair_records_complete Scenario.reversed_document 0 "a.jpg"
              Scenario.reversed_record)
    as (data' & cnt & r' & prs & HM & Hk & Hprs & _ & Hall & _ & _ & Hold).
  - by_decide.
  - reflexivity.
  - by_decide.
  - exists data', cnt, r'. split_and!; try done.
    rewrite Hprs. f_equal.
    vm_compute in HM. injection HM as <- <-.
    vm_compute in Hk. injection Hk as <-.
    cbn in Hall.
    apply Forall2_cons_inv_l in Hall as (p & rest & Hp & Hrest & ->).
    apply Forall2_nil_inv_l in Hrest as ->.
    destruct Hp as (a & b & ra & rb & Ha & Hb & Hra & Hrb & H1 & H2 & Hd).
    cbn in Ha, Hb. injection Ha as <-. injection Hb as <-.
    cbn in Hra, Hrb, H1, H2. injection Hra as <-. injection Hrb as <-.
    destruct Hd as (h & Hh & H0 & Hlo & Hhi).
    { unfold exact_distance. cbn. lia. }
    cbn in Hlo, Hhi.
    assert (h = 10000) as -> by nia.
    destruct p; cbn in *. by subst.
Defined.

(** Claim C10.  Every landmark is a point with integer coordinates, the
    centroid of one of the two contours with each coordinate truncated
    toward zero: of the moment ratio when the area is not zero, of the
    arithmetic mean (from which it then differs by less than one pixel)
    when the area is zero.  The distance stored in the object and every
    distance stored in a pair record are the Euclidean distances between
    such points, rounded to two decimal places.  The contours and the
    landmarks are in the range where the arithmetic is exact. *)
Theorem landmarks_are_truncated_integers (data : Data) (k i : nat)
    (name : string) (r : AnnotationRecord) (obj : ObjectRecord)
    (e1 e2 : Contour) :
  usable_data data →
  data !! k = Some (name, r) →
  objects r !! i = Some obj →
  eyes obj = Some [e1; e2] →
  exact_contour e1 →
  exact_contour e2 →
  ∃ data' cnt r' obj' (l rr : Point) prs,
    measure data = Some (data', cnt) ∧
    data' !! k = Some (name, r') ∧ objects r' !! i = Some obj' ∧
    eye_L_center obj' = Some l ∧ eye_R_center obj' = Some rr ∧
    (∃ e, e ∈ [e1; e2] ∧ _get_centroid e = Some l ∧ truncated_centroid e l) ∧
    (∃ e, e ∈ [e1; e2] ∧ _get_centroid e = Some rr ∧
          truncated_centroid e rr) ∧
    (exact_distance l rr →
     ∃ h, eyes_dist obj' = Some (h # 100) ∧
          nearest_hundredth ((l.1 - rr.1) ^ 2 + (l.2 - rr.2) ^ 2) h) ∧
    pairs r' = Some prs ∧
    (∀ p, p ∈ prs →
       ∃ a b (ra rb : Point),
         a ∈ objects r' ∧ b ∈ objects r' ∧
         eye_R_center a = Some ra ∧ eye_R_center b = Some rb ∧
         (exact_distance ra rb →
          ∃ h, right_eye_dist p = h # 100 ∧
               nearest_hundredth
                 ((ra.1 - rb.1) ^ 2 + (ra.2 - rb.2) ^ 2) h)).
Proof.
  intros Hu Hk Hi He _ _.
  destruct (measure_total _ Hu) as (data' & cnt & HM).
  destruct (measure_lookup_object _ _ _ _ _ _ _ _ HM Hk Hi)
    as (r' & obj' & Hk' & Hi' & Hobj').
  destruct (measure_pair_sources _ _ _ _ _ _ HM Hk)
    as (r'' & prs & Hk'' & Hprs & Hsrc).
  assert (r'' = r') as -> by congruence.
  assert (∃ c1 c2, _get_centroid e1 = Some c1 ∧ _get_centroid e2 = Some c2)
    as (c1 & c2 & Hc1 & Hc2).
  { unfold measured_object in Hobj'.
    destruct (preprocess_object obj) as [o1|] eqn:Ho1; [|done].
    eapply preprocess_object_two_inv; eauto. }
  rewrite (measured_object_two _ _ _ _ _ He Hc1 Hc2) in Hobj'.
  pose proof (get_centroid_truncated _ _ Hc1) as Ht1.
  pose proof (get_centroid_truncated _ _ Hc2) as Ht2.
  assert (e1 ∈ [e1; e2]) as Hin1 by (apply elem_of_cons; auto).
  assert (e2 ∈ [e1; e2]) as Hin2
    by (apply elem_of_cons; right; apply elem_of_cons; auto).
  assert (∀ p, p ∈ prs →
            ∃ a b (ra rb : Point),
              a ∈ objects r' ∧ b ∈ objects r' ∧
              eye_R_center a = Some ra ∧ eye_R_center b = Some rb ∧
              (exact_distance ra rb →
               ∃ h, right_eye_dist p = h # 100 ∧
                    nearest_hundredth
                      ((ra.1 - rb.1) ^ 2 + (ra.2 - rb.2) ^ 2) h)) as Hpairs.
  { intros p Hp. destruct (Hsrc p Hp) as (a & b & ra & rb & ? & ? & ? & ? & Hd).
    destruct (rounded_distance_nearest ra rb) as (h & Hh & Hnear).
    exists a, b, ra, rb. split_and!; try done.
    intros _. exists h. by rewrite Hd, Hh. }
  exists data', cnt, r', obj'.
  destruct (Z.leb_spec c1.1 c2.1) as [Hle|Hlt]; simplify_eq.
  - destruct (rounded_distance_nearest c1 c2) as (h & Hh & Hnear).
    exists c1, c2, prs. simpl. rewrite Hh in *. split_and!; eauto.
  - destruct (rounded_distance_nearest c2 c1) as (h & Hh & Hnear).
    exists c2, c1, prs. simpl. rewrite Hh in *. split_and!; eauto.
Qed.

Lemma landmarks_are_truncated_integers_witness :
  ∃ data' cnt r' obj' prs,
    measure Demo.document = Some (data', cnt) ∧
    data' !! 0%nat = Some ("a.jpg"%string, r') ∧
    objects r' !! 1%nat = Some obj' ∧
    eye_L_center obj' = Some (150, 50) ∧
    eye_R_center obj' = Some (170, 50) ∧
    truncated_centroid (square 150 50 3) (150, 50) ∧
    truncated_centroid (square 170 50 3) (170, 50) ∧
    eyes_dist obj' = Some (2000 # 100) ∧
    pairs r' = Some prs ∧
    ∀ p, p ∈ prs →
      ∃ a b (ra rb : Point) h,
        a ∈ objects r' ∧ b ∈ objects r' ∧
        eye_R_center a = Some ra ∧ eye_R_center b = Some rb ∧
        right_eye_dist p = h # 100 ∧
        nearest_hundredth ((ra.1 - rb.1) ^ 2 + (ra.2 - rb.2) ^ 2) h.
Proof.
  destruct (landmarks_are_truncated_integers Demo.document 0 1 "a.jpg"
              Demo.image_record (Demo.animal 1 (130, 30, 190, 70)
                 [(130, 30); (190, 30); (190, 70); (130, 70)]
                 [square 150 50 3; square 170 50 3])
              (square 150 50 3) (square 170 50 3))
    as (data' & cnt & r' & obj' & l & rr & prs & HM & Hk & Hi & HL & HR
        & (eL & HeL & HcL & HtL) & (eR & HeR & HcR & HtR) & Hd & Hprs & Hpairs).
  - by_decide.
  - reflexivity.
  - reflexivity.
  - reflexivity.
  - by_decide.
  - by_decide.
  - exists data', cnt, r', obj', prs.
    vm_compute in HM. injection HM as <- <-.
    vm_compute in Hk. injection Hk as <-.
    vm_compute in Hi. injection Hi as <-.
    vm_compute in HL. injection HL as <-.
    vm_compute in HR. injection HR as <-.
    assert (eL = square 150 50 3) as ->.
    { apply elem_of_cons in HeL as [->|HeL]; [done|].
      apply list_elem_of_singleton in HeL as ->.
      vm_compute in HcL. discriminate. }
    assert (eR = square 170 50 3) as ->.
    { apply elem_of_cons in HeR as [->|HeR]; [vm_compute in HcR; discriminate|].
      by apply list_elem_of_singleton in HeR as ->. }
    destruct Hd as (h & Hh & H0 & Hlo & Hhi).
    { unfold exact_distance. cbn. lia. }
    cbn in Hlo, Hhi. assert (h = 2000) as -> by nia.
    split_and!; try done.
    intros p Hp.
    destruct (Hpairs p Hp) as (a & b & ra & rb & Ha & Hb & Hra & Hrb & Hdist).
    assert (ra = (70, 50) ∨ ra = (170, 50)) as Hca.
    { cbn in Ha.
      repeat (apply elem_of_cons in Ha as [->|Ha];
              [vm_compute in Hra; simplify_eq; auto|]).
      by apply elem_of_nil in Ha. }
    assert (rb = (70, 50) ∨ rb = (170, 50)) as Hcb.
    { cbn in Hb.
      repeat (apply elem_of_cons in Hb as [->|Hb];
              [vm_compute in Hrb; simplify_eq; auto|]).
      by apply elem_of_nil in Hb. }
    destruct Hdist as (h & Hh' & Hn).
    { unfold exact_distance. destruct Hca as [->| ->], Hcb as [->| ->];
        cbn; lia. }
    exists a, b, ra, rb, h. split_and!; done.
Defined.

End MeasurementClaims.

(** ** Masking *)

Module MaskingFacts.

Section MaskingSection.
Variable covers : Contour → nat → nat → bool.

Lemma pixel_fillPoly (img : Image) (pts : Contour) (color : Color) (x y : nat) :
  pixel (fillPoly covers img pts color) x y
  = (λ c, if covers pts x y then color else c) <$> pixel img x y.
Proof.
  unfold pixel, fillPoly. rewrite list_lookup_imap.
  destruct (img !! y) as [row|]; simpl; [|done].
  by rewrite list_lookup_imap.
Qed.

Lemma pixel_crop (img : Image) (x1 y1 x2 y2 : Z) (x y : nat) :
  pixel (crop_to_bbox img (x1, y1, x2, y2)) x y
  = row ← img !! y;
    (λ c, if in_slice (length img) y1 y2 y && in_slice (length row) x1 x2 x
          then c else black) <$> row !! x.
Proof.
  unfold pixel, crop_to_bbox. rewrite list_lookup_imap.
  destruct (img !! y) as [row|]; simpl; [|done].
  by rewrite list_lookup_imap.
Qed.

Lemma pixel_mask_sibling (idx : nat) (img : Image) (entry : nat * ObjectRecord)
    (x y : nat) :
  pixel (mask_sibling covers idx img entry) x y
  = (λ c, match segmentation entry.2 with
          | Some (SegPoints pts) =>
              if decide (entry.1 = idx) then c
              else if covers pts x y then black else c
          | _ => c
          end) <$> pixel img x y.
Proof.
  destruct entry as [j other]. unfold mask_sibling. simpl.
  destruct (decide (j = idx)).
  - destruct (pixel img x y); simpl; [|done].
    by destruct (segmentation other) as [[]|].
  - destruct (segmentation other) as [[pts|]|].
    + apply pixel_fillPoly.
    + by destruct (pixel img x y).
    + by destruct (pixel img x y).
Qed.

Lemma pixel_fold_is_Some (idx : nat) (l : list (nat * ObjectRecord))
    (img : Image) (x y : nat) :
  is_Some (pixel (foldl (mask_sibling covers idx) img l) x y)
  ↔ is_Some (pixel img x y).
Proof.
  revert img. induction l as [|e l IH]; intros img; simpl; [done|].
  rewrite IH, pixel_mask_sibling, fmap_is_Some. done.
Qed.

Lemma pixel_fold_black (idx : nat) (l : list (nat * ObjectRecord))
    (img : Image) (x y : nat) :
  pixel img x y = Some black →
  pixel (foldl (mask_sibling covers idx) img l) x y = Some black.
Proof.
  revert img. induction l as [|e l IH]; intros img Hb; simpl; [done|].
  apply IH. rewrite pixel_mask_sibling, Hb. simpl.
  destruct (segmentation e.2) as [[pts|]|]; try done.
  destruct (decide (e.1 = idx)); [done|]. by destruct (covers pts x y).
Qed.

Lemma pixel_fold_sibling (idx : nat) (l : list (nat * ObjectRecord))
    (img : Image) (j : nat) (other : ObjectRecord) (pts : Contour)
    (x y : nat) :
  (j, other) ∈ l → j ≠ idx →
  segmentation other = Some (SegPoints pts) →
  covers pts x y = true →
  is_Some (pixel img x y) →
  pixel (foldl (mask_sibling covers idx) img l) x y = Some black.
Proof.
  intros Hin Hj Hseg Hcov. revert img.
  induction l as [|e l IH]; intros img [c Hc]; simpl.
  - by apply elem_of_nil in Hin.
  - apply elem_of_cons in Hin as [<-|Hin].
    + apply pixel_fold_black. rewrite pixel_mask_sibling, Hc. simpl.
      rewrite Hseg, decide_False by done. by rewrite Hcov.
    + apply IH; [done|]. rewrite pixel_mask_sibling, Hc. simpl. eauto.
Qed.

(** Pixels no sibling covers keep their colour. *)
Lemma pixel_fold_unchanged (idx : nat) (l : list (nat * ObjectRecord))
    (img : Image) (x y : nat) :
  (∀ j other pts, (j, other) ∈ l → j ≠ idx →
     segmentation other = Some (SegPoints pts) → covers pts x y = false) →
  pixel (foldl (mask_sibling covers idx) img l) x y = pixel img x y.
Proof.
  revert img. induction l as [|e l IH]; intros img Hno; simpl; [done|].
  rewrite IH.
  2:{ intros j other pts Hin. apply Hno. by apply elem_of_cons; right. }
  rewrite pixel_mask_sibling.
  destruct (pixel img x y) as [c|]; simpl; [|done].
  destruct e as [j other]; simpl.
  destruct (segmentation other) as [[pts|]|] eqn:Hseg; try done.
  destruct (decide (j = idx)); [done|].
  rewrite (Hno j other pts); [done| |done..]. apply elem_of_cons; auto.
Qed.

Lemma in_slice_inside (n : nat) (lo hi : Z) (i : nat) :
  0 ≤ hi → (i < n)%nat → in_slice n lo hi i = true →
  lo ≤ Z.of_nat i < hi.
Proof.
  unfold in_slice, slice_bound. intros Hhi Hi.
  rewrite andb_true_iff, !bool_decide_eq_true.
  destruct (Z.ltb_spec hi 0); [lia|].
  destruct (Z.ltb_spec lo 0); intros [H1 H2]; split; lia.
Qed.

Lemma in_slice_nonneg (n : nat) (lo hi : Z) (i : nat) :
  0 ≤ lo → 0 ≤ hi → (i < n)%nat →
  in_slice n lo hi i = true ↔ lo ≤ Z.of_nat i < hi.
Proof.
  unfold in_slice, slice_bound. intros Hlo Hhi Hi.
  rewrite andb_true_iff, !bool_decide_eq_true.
  destruct (Z.ltb_spec lo 0); [lia|].
  destruct (Z.ltb_spec hi 0); [lia|].
  split; [intros [H1 H2]|intros H1]; split; lia.
Qed.

(** Pixels of the target's box that no sibling covers keep their colour. *)
Lemma isolation_keeps_target (img_bgr : Image)
    (all_objects : list ObjectRecord) (obj_index : nat) (obj : ObjectRecord)
    (x1 y1 x2 y2 : Z) (x y : nat) :
  bbox obj = (x1, y1, x2, y2) →
  0 ≤ x1 → 0 ≤ y1 → 0 ≤ x2 → 0 ≤ y2 →
  x1 ≤ Z.of_nat x < x2 → y1 ≤ Z.of_nat y < y2 →
  (∀ j other pts, j ≠ obj_index → all_objects !! j = Some other →
     segmentation other = Some (SegPoints pts) → covers pts x y = false) →
  pixel (masked_input covers img_bgr obj obj_index all_objects) x y
  = pixel img_bgr x y.
Proof.
  intros Hbox Hx1 Hy1 Hx2 Hy2 Hx Hy Hfree. unfold masked_input.
  rewrite Hbox, pixel_crop. unfold mask_siblings.
  set (clean := foldl (mask_sibling covers obj_index) img_bgr
                      (imap pair all_objects)).
  assert (pixel clean x y = pixel img_bgr x y) as <-.
  { apply pixel_fold_unchanged. intros j other pts Hin Hj Hseg.
    apply list_elem_of_lookup in Hin as [n Hn].
    rewrite list_lookup_imap in Hn.
    destruct (all_objects !! n) as [o|] eqn:Ho; simplify_eq/=. eauto. }
  unfold pixel. destruct (clean !! y) as [row|] eqn:Hrow; simpl; [|done].
  destruct (row !! x) as [c|] eqn:Hc; simpl; [|done].
  rewrite (proj2 (in_slice_nonneg _ y1 y2 y Hy1 Hy2
                    (lookup_lt_Some _ _ _ Hrow)) Hy).
  rewrite (proj2 (in_slice_nonneg _ x1 x2 x Hx1 Hx2
                    (lookup_lt_Some _ _ _ Hc)) Hx).
  done.
Qed.

(** Claim C7.  The image handed to the refinement detector has the shape
    of the base image; every pixel of the region of a non-target object
    (the pixels the fill of its primary contour paints) is black, and so
    is every pixel outside the target's bounding box.  The bounding box is
    in image-pixel coordinates: its far corner is not negative. *)
Theorem isolation_masks_siblings_and_outside (img_bgr : Image)
    (all_objects : list ObjectRecord) (obj_index : nat) (obj : ObjectRecord)
    (x1 y1 x2 y2 : Z) :
  all_objects !! obj_index = Some obj →
  bbox obj = (x1, y1, x2, y2) →
  0 ≤ x2 → 0 ≤ y2 →
  let out := masked_input covers img_bgr obj obj_index all_objects in
  (∀ x y, is_Some (pixel out x y) ↔ is_Some (pixel img_bgr x y)) ∧
  (∀ j other pts x y,
     j ≠ obj_index → all_objects !! j = Some other →
     segmentation other = Some (SegPoints pts) →
     covers pts x y = true →
     is_Some (pixel img_bgr x y) →
     pixel out x y = Some black) ∧
  (∀ x y,
     is_Some (pixel img_bgr x y) →
     ¬ (x1 ≤ Z.of_nat x < x2 ∧ y1 ≤ Z.of_nat y < y2) →
     pixel out x y = Some black).
Proof.
  intros Hobj Hbox Hx2 Hy2 out. subst out. unfold masked_input.
  rewrite Hbox. unfold mask_siblings.
  set (clean := foldl (mask_sibling covers obj_index) img_bgr
                      (imap pair all_objects)).
  assert (∀ x y, is_Some (pixel clean x y) ↔ is_Some (pixel img_bgr x y))
    as Hshape by (intros; apply pixel_fold_is_Some).
  assert (∀ x y, is_Some (pixel (crop_to_bbox clean (x1, y1, x2, y2)) x y)
                 ↔ is_Some (pixel clean x y)) as Hcrop.
  { intros x y. rewrite pixel_crop. unfold pixel.
    destruct (clean !! y) as [row|]; simpl; [|done].
    by rewrite fmap_is_Some. }
  split; [|split].
  - intros x y. by rewrite Hcrop.
  - intros j other pts x y Hj Hother Hseg Hcov Hpix.
    assert (pixel clean x y = Some black) as Hb.
    { eapply pixel_fold_sibling; eauto.
      apply list_elem_of_lookup. exists j.
      by rewrite list_lookup_imap, Hother. }
    rewrite pixel_crop. unfold pixel in Hb.
    destruct (clean !! y) as [row|]; simpl in *; [|done].
    rewrite Hb. simpl. by destruct (_ && _).
  - intros x y Hpix Hout. apply Hshape in Hpix as [c Hc].
    rewrite pixel_crop. unfold pixel in Hc.
    destruct (clean !! y) as [row|] eqn:Hrow; simpl in *; [|done].
    rewrite Hc. simpl.
    destruct (in_slice (length clean) y1 y2 y) eqn:Hsy; [|done].
    destruct (in_slice (length row) x1 x2 x) eqn:Hsx; [|done].
    apply in_slice_inside in Hsy; [|done|by eapply lookup_lt_Some].
    apply in_slice_inside in Hsx; [|done|by eapply lookup_lt_Some].
    lia.
Qed.

End MaskingSection.

Lemma isolation_masks_siblings_and_outside_witness :
  let out := masked_input Demo.box_raster Demo.picture Demo.left_cat 0
               [Demo.left_cat; Demo.right_cat] in
  (∀ x y, is_Some (pixel out x y) ↔ is_Some (pixel Demo.picture x y)) ∧
  (∀ j other pts x y,
     j ≠ 0%nat → [Demo.left_cat; Demo.right_cat] !! j = Some other →
     segmentation other = Some (SegPoints pts) →
     Demo.box_raster pts x y = true →
     is_Some (pixel Demo.picture x y) →
     pixel out x y = Some black) ∧
  (∀ x y,
     is_Some (pixel Demo.picture x y) →
     ¬ (0 ≤ Z.of_nat x < 3 ∧ 1 ≤ Z.of_nat y < 5) →
     pixel out x y = Some black).
Proof.
  apply (isolation_masks_siblings_and_outside Demo.box_raster Demo.picture
           [Demo.left_cat; Demo.right_cat] 0 Demo.left_cat 0 1 3 5).
  - reflexivity.
  - reflexivity.
  - lia.
  - lia.
Defined.

(** Isolating the left animal of the demonstration picture: its box
    stays white, the right animal's region and the rest are black. *)
Example isolate_left_cat :
  masked_input Demo.box_raster Demo.picture Demo.left_cat 0
    [Demo.left_cat; Demo.right_cat]
  = [replicate 8 black;
     replicate 3 Demo.white ++ replicate 5 black;
     replicate 3 Demo.white ++ replicate 5 black;
     replicate 3 Demo.white ++ replicate 5 black;
     replicate 3 Demo.white ++ replicate 5 black;
     replicate 8 black].
Proof. vm_compute. reflexivity. Qed.

End MaskingFacts.

(** ** Verification *)

Module VerifierFacts.
Import Verifier.

Section Facts.
Variable ind : gmap (string * string) Q.
Variable prm : gmap (string * (string * string)) Q.

Lemma compare_row_step (t : Tally) (row : GtRow) :
  ∃ v, classified (lookup_actual ind prm row) (Expected_Dist row) v ∧
       printed (compare_row ind prm t row) = printed t ++ [v] ∧
       match_count (compare_row ind prm t row)
       = (match_count t + (if is_match v then 1 else 0))%nat ∧
       miss_count (compare_row ind prm t row)
       = (miss_count t + (if is_match v then 0 else 1))%nat ∧
       (total_error (compare_row ind prm t row)
        == total_error t + verdict_error v)%Q.
Proof.
  unfold compare_row.
  destruct (lookup_actual ind prm row) as [actual|] eqn:Ha.
  - destruct (Qeq_bool actual 0 && negb (Qeq_bool (Expected_Dist row) 0))
      eqn:Hz.
    + exists DetectionFailure. simpl. split_and!; try done; try lia.
      * exists actual. apply andb_true_iff in Hz as [Hz1 Hz2].
        apply Qeq_bool_iff in Hz1. apply negb_true_iff in Hz2.
        split_and!; try done. intros Hz3. apply Qeq_bool_iff in Hz3.
        congruence.
      * ring.
    + exists (Match (Qabs (actual - Expected_Dist row))). simpl.
      split_and!; try done; try lia.
      exists actual. split_and!; try done. intros [Hz1 Hz2].
      apply Qeq_bool_iff in Hz1. rewrite Hz1 in Hz. simpl in Hz.
      apply negb_false_iff, Qeq_bool_iff in Hz. done.
  - exists Miss. simpl. split_and!; try done; try lia. ring.
Qed.

Lemma classified_unique (actual : option Q) (expect : Q) (v1 v2 : Verdict) :
  classified actual expect v1 → classified actual expect v2 → v1 = v2.
Proof.
  destruct v1, v2; simpl; try done; intros; destruct_and?;
    repeat match goal with H : ∃ _, _ |- _ => destruct H as (? & ? & ? & ?) end;
    simplify_eq; try done; tauto.
Qed.

Lemma fold_compare_spec (rows : list GtRow) (t : Tally) :
  let t' := foldl (compare_row ind prm) t rows in
  ∃ vs, printed t' = printed t ++ vs ∧
        Forall2 (λ row v, classified (lookup_actual ind prm row)
                                     (Expected_Dist row) v) rows vs ∧
        match_count t'
        = (match_count t
           + length (filter (λ v, is_match v = true) vs))%nat ∧
        miss_count t'
        = (miss_count t
           + length (filter (λ v, is_match v = false) vs))%nat ∧
        (total_error t' == total_error t + sum_Q (verdict_error <$> vs))%Q.
Proof.
  revert t. induction rows as [|row rows IH]; intros t; simpl.
  - exists []. rewrite app_nil_r. simpl. split_and!; try done; try lia.
    ring.
  - destruct (IH (compare_row ind prm t row)) as (vs & Hp & Hc & Hm & Hx & He).
    destruct (compare_row_step t row) as (v & Hv & Hp1 & Hm1 & Hx1 & He1).
    exists (v :: vs). rewrite Hp, Hp1, <- app_assoc. split_and!; try done.
    + by constructor.
    + rewrite Hm, Hm1. destruct (is_match v) eqn:E.
      * rewrite filter_cons_True by done. simpl. lia.
      * rewrite filter_cons_False by (by rewrite E). lia.
    + rewrite Hx, Hx1. destruct (is_match v) eqn:E.
      * rewrite filter_cons_False by (by rewrite E). lia.
      * rewrite filter_cons_True by done. simpl. lia.
    + rewrite He, He1. unfold sum_Q. rewrite fmap_cons. cbn [foldr]. ring.
Qed.

(** The computed value a row refers to, read off the two tables. *)
Lemma lookup_actual_spelled (row : GtRow) :
  (Type_ row = "Individual"%string →
   lookup_actual ind prm row = ind !! (Image_Name row, Obj_ID_1 row)) ∧
  (Type_ row = "Pair"%string →
   lookup_actual ind prm row
   = prm !! (Image_Name row,
             if String.leb (Obj_ID_1 row) (Obj_ID_2 row)
             then (Obj_ID_1 row, Obj_ID_2 row)
             else (Obj_ID_2 row, Obj_ID_1 row))) ∧
  (Type_ row ≠ "Individual"%string → Type_ row ≠ "Pair"%string →
   lookup_actual ind prm row = None).
Proof.
  unfold lookup_actual, sorted_ids. split_and!.
  - intros HT. by rewrite decide_True.
  - intros HT. rewrite decide_False by (by rewrite HT).
    by rewrite decide_True.
  - intros H1 H2. by rewrite !decide_False.
Qed.

(** Claim C8.  Every ground-truth row gets exactly one of three verdicts,
    decided by the computed value the row refers to (for an Individual row
    the value stored for the image and the object, for a Pair row the
    value stored for the image and the two identifiers in sorted order, no
    value otherwise): a miss when no computed value exists, a detection
    failure when the computed value is zero while the expected one is not,
    a match otherwise, with the absolute error.  Matches alone are counted
    in the match count and add their error to the total; misses and
    detection failures are counted together and add nothing; the mean
    absolute error is the total divided by the match count.  One
    Individual row expecting 20.00 with the computed value 22.50 is a match
    and gives 2.50. *)
Theorem verifier_classification (gt_rows : list GtRow) :
  let t := compare_rows ind prm gt_rows in
  Forall2 (λ row v,
             ∃ actual,
               (Type_ row = "Individual"%string →
                actual = ind !! (Image_Name row, Obj_ID_1 row)) ∧
               (Type_ row = "Pair"%string →
                actual = prm !! (Image_Name row,
                                 if String.leb (Obj_ID_1 row) (Obj_ID_2 row)
                                 then (Obj_ID_1 row, Obj_ID_2 row)
                                 else (Obj_ID_2 row, Obj_ID_1 row))) ∧
               (Type_ row ≠ "Individual"%string →
                Type_ row ≠ "Pair"%string → actual = None) ∧
               classified actual (Expected_Dist row) v)
          gt_rows (printed t) ∧
  (∀ actual expect v1 v2,
     classified actual expect v1 → classified actual expect v2 → v1 = v2) ∧
  match_count t = length (filter (λ v, is_match v = true) (printed t)) ∧
  miss_count t = length (filter (λ v, is_match v = false) (printed t)) ∧
  (total_error t == sum_Q (verdict_error <$> printed t))%Q ∧
  match mae t with
  | Some m =>
      (0 < match_count t)%nat ∧
      (m == sum_Q (verdict_error <$> printed t)
            / inject_Z (Z.of_nat (match_count t)))%Q
  | None => match_count t = 0%nat
  end ∧
  (∀ img oid oid2 actual expect,
     ind !! (img, oid) = Some actual →
     (actual == 45 # 2)%Q → (expect == 20)%Q →
     let t1 := compare_rows ind prm
                 [mkRow img "Individual" oid oid2 expect] in
     ∃ diff m, printed t1 = [Match diff] ∧ (diff == 5 # 2)%Q ∧
               match_count t1 = 1%nat ∧ miss_count t1 = 0%nat ∧
               mae t1 = Some m ∧ (m == 5 # 2)%Q).
Proof.
  intros t.
  destruct (fold_compare_spec gt_rows (mkTally 0 0 0 []))
    as (vs & Hp & Hc & Hm & Hx & He).
  fold (compare_rows ind prm gt_rows) in Hp, Hm, Hx, He. fold t in Hp, Hm, Hx, He.
  simpl in Hp, Hm, Hx, He. subst vs.
  split_and!; try done.
  - eapply Forall2_impl; [exact Hc|]. intros row v Hv. simpl in Hv.
    exists (lookup_actual ind prm row).
    destruct (lookup_actual_spelled row) as (H1 & H2 & H3).
    split_and!; done.
  - apply classified_unique.
  - by rewrite He, Qplus_0_l.
  - unfold mae. destruct (decide (0 < match_count t)%nat) as [Hpos|Hz].
    + split; [done|]. by rewrite He, Qplus_0_l.
    + lia.
  - intros img oid oid2 actual expect Hact Ha He2 t1.
    assert (¬ (actual == 0)%Q) as Hnz.
    { rewrite Ha. discriminate. }
    assert (Qabs (actual - expect) == 5 # 2)%Q as Hd.
    { rewrite Ha, He2. reflexivity. }
    assert (compare_rows ind prm [mkRow img "Individual" oid oid2 expect]
            = mkTally (0 + Qabs (actual - expect)) 1 0
                      [Match (Qabs (actual - expect))]) as Ht1.
    { unfold compare_rows. cbn [foldl]. unfold compare_row, lookup_actual.
      cbn [Type_ Image_Name Obj_ID_1 Expected_Dist].
      rewrite decide_True by done. rewrite Hact.
      replace (Qeq_bool actual 0) with false; [done|].
      symmetry. apply not_true_iff_false. intros H.
      by apply Qeq_bool_iff in H. }
    subst t1. rewrite Ht1.
    exists (Qabs (actual - expect)),
           ((0 + Qabs (actual - expect)) / inject_Z (Z.of_nat 1))%Q.
    split_and!; try done.
    rewrite Hd. reflexivity.
Qed.

End Facts.

Lemma verifier_classification_witness :
  let t := compare_rows Scenario.computed_distances Scenario.computed_pairs Scenario.ground_truth in
  ∃ d1 d2 m,
    printed t = [Match d1; DetectionFailure; Miss; Match d2; Miss] ∧
    (d1 == 5 # 2)%Q ∧ (d2 == 5 # 2)%Q ∧
    match_count t = 2%nat ∧ miss_count t = 3%nat ∧
    mae t = Some m ∧ (m == 5 # 2)%Q.
Proof.
  intros t.
  destruct (verifier_classification Scenario.computed_distances Scenario.computed_pairs Scenario.ground_truth)
    as (HF & _ & Hm & Hx & _ & Hmae & _).
  fold t in HF, Hm, Hx, Hmae.
  remember (printed t) as vs eqn:Hvs.
  unfold Scenario.ground_truth in HF.
  apply Forall2_cons_inv_l in HF as (v1 & l1 & H1 & HF & ->).
  apply Forall2_cons_inv_l in HF as (v2 & l2 & H2 & HF & ->).
  apply Forall2_cons_inv_l in HF as (v3 & l3 & H3 & HF & ->).
  apply Forall2_cons_inv_l in HF as (v4 & l4 & H4 & HF & ->).
  apply Forall2_cons_inv_l in HF as (v5 & l5 & H5 & HF & ->).
  apply Forall2_nil_inv_l in HF as ->.
  destruct H1 as (a1 & Ha1 & _ & _ & Hc1).
  destruct H2 as (a2 & Ha2 & _ & _ & Hc2).
  destruct H3 as (a3 & Ha3 & _ & _ & Hc3).
  destruct H4 as (a4 & _ & Ha4 & _ & Hc4).
  destruct H5 as (a5 & _ & Ha5 & _ & Hc5).
  specialize (Ha1 eq_refl). specialize (Ha2 eq_refl).
  specialize (Ha3 eq_refl). specialize (Ha4 eq_refl).
  specialize (Ha5 eq_refl).
  vm_compute in Ha1, Ha2, Ha3, Ha4, Ha5. subst a1 a2 a3 a4 a5.
  assert (∃ d1, v1 = Match d1 ∧ (d1 == 5 # 2)%Q) as (d1 & -> & Hd1).
  { destruct v1 as [| |d]; simpl in Hc1.
    - discriminate.
    - destruct Hc1 as (a & [= <-] & Hz & _). discriminate.
    - destruct Hc1 as (a & [= <-] & _ & ->). by eexists. }
  assert (v2 = DetectionFailure) as ->.
  { destruct v2 as [| |d]; simpl in Hc2.
    - discriminate.
    - done.
    - destruct Hc2 as (a & [= <-] & Hz & _). exfalso. apply Hz.
      split; [reflexivity|discriminate]. }
  assert (v3 = Miss) as ->.
  { destruct v3 as [| |d]; simpl in Hc3; [done|..];
      by destruct Hc3 as (a & ? & _). }
  assert (∃ d2, v4 = Match d2 ∧ (d2 == 5 # 2)%Q) as (d2 & -> & Hd2).
  { destruct v4 as [| |d]; simpl in Hc4.
    - discriminate.
    - destruct Hc4 as (a & [= <-] & Hz & _). discriminate.
    - destruct Hc4 as (a & [= <-] & _ & ->). by eexists. }
  assert (v5 = Miss) as ->.
  { destruct v5 as [| |d]; simpl in Hc5; [done|..];
      by destruct Hc5 as (a & ? & _). }
  assert (match_count t = 2%nat) as Hm2 by (rewrite Hm; reflexivity).
  assert (miss_count t = 3%nat) as Hx3 by (rewrite Hx; reflexivity).
  destruct (mae t) as [m|]; [|congruence].
  exists d1, d2, m. split_and!; try done.
  destruct Hmae as [_ ->]. rewrite Hm2. cbn [fmap list_fmap verdict_error sum_Q foldr].
  rewrite Hd1, Hd2. reflexivity.
Defined.

(** One row, one computed value. *)
Example one_individual_row :
  let t := compare_rows {[ ("a.jpg"%string, "0"%string) := 2250 # 100 ]} ∅
             [mkRow "a.jpg" "Individual" "0" "" (2000 # 100)] in
  printed t = [Match (25000 # 10000)] ∧
  match_count t = 1%nat ∧ miss_count t = 0%nat ∧
  (default 0 (mae t) == 5 # 2)%Q.
Proof. vm_compute. split_and!; try reflexivity. Qed.

(** A miss, a detection failure and a match. *)
Example three_rows :
  let t := compare_rows {[ ("a.jpg"%string, "0"%string) := 0%Q;
                           ("a.jpg"%string, "1"%string) := 2250 # 100 ]} ∅
             [mkRow "a.jpg" "Individual" "7" "" (2000 # 100);
              mkRow "a.jpg" "Individual" "0" "" (2000 # 100);
              mkRow "a.jpg" "Individual" "1" "" (2000 # 100)] in
  printed t = [Miss; DetectionFailure; Match (25000 # 10000)] ∧
  match_count t = 1%nat ∧ miss_count t = 2%nat.
Proof. vm_compute. split_and!; reflexivity. Qed.

End VerifierFacts.

(** ** Refinement *)

Module RefinerFacts.
Import Refiner.


Lemma quiet_signal_last (pre : list Event) (e : Event) :
  quiet pre → stops_at_signal (pre ++ [e]).
Proof.
  intros Hq pre' e' post Heq Hsig.
  destruct post as [|p post] using rev_ind; [done|].
  clear IHpost. exfalso.
  rewrite app_comm_cons, app_assoc in Heq.
  apply app_inj_tail in Heq as [-> _].
  apply Forall_app in Hq as [_ Hq]. apply Forall_cons in Hq as [Hq _].
  congruence.
Qed.

Lemma quiet_stops (new : list Event) : quiet new → stops_at_signal new.
Proof.
  intros Hq pre e post -> Hsig.
  apply Forall_app in Hq as [_ Hq]. apply Forall_cons in Hq as [Hq _].
  congruence.
Qed.

Lemma ended_stops (flow : Flow) (new : list Event) :
  ended flow new → stops_at_signal new.
Proof.
  destruct flow as [| |exn]; simpl.
  - apply quiet_stops.
  - intros (pre & k & -> & Hq). by apply quiet_signal_last.
  - intros (pre & e & -> & Hq & _). by apply quiet_signal_last.
Qed.

Lemma ended_app (flow : Flow) (new1 new2 : list Event) :
  quiet new1 → ended flow new2 → ended flow (new1 ++ new2).
Proof.
  intros Hq. destruct flow as [| |exn]; simpl.
  - intros Hq2. by apply Forall_app.
  - intros (pre & k & -> & Hq2). exists (new1 ++ pre), k.
    rewrite app_assoc. split; [done|]. by apply Forall_app.
  - intros (pre & e & -> & Hq2 & Hr). exists (new1 ++ pre), e.
    rewrite app_assoc. split; [done|]. split; [|done]. by apply Forall_app.
Qed.

Section RunFacts.
Variable covers : Contour → nat → nat → bool.
Variable World : Type.
Variable sam3 : World → Image → Reply * World.
Variable waitKey : World → Z * World.
Variable imread : string → option Image.
Variable show : bool.

Lemma refine_object_spec (img : Image) (k : nat) (lp : Loop World) (i : nat) :
  let res := refine_object covers sam3 img k lp i in
  length (all_objects (final res)) = length (all_objects lp) ∧
  (∀ j, j ≠ i → all_objects (final res) !! j = all_objects lp !! j) ∧
  (∀ obj, all_objects lp !! i = Some obj → has_eyes obj = true →
          res = inr lp) ∧
  ∃ new, loop_events (final res) = loop_events lp ++ new ∧
         Forall (λ e, event_object e = i ∧
                      loop_stored k (all_objects lp)
                                  (all_objects (final res)) e) new ∧
         ended (flow_of res) new ∧
         (new = [] → res = inr lp).
Proof.
  unfold refine_object.
  destruct (all_objects lp !! i) as [obj|] eqn:Hobj.
  2:{ simpl. split_and!; try done. exists []. rewrite app_nil_r.
      split_and!; try done; constructor. }
  destruct (has_eyes obj) eqn:Heyes.
  { simpl. split_and!; try done. exists []. rewrite app_nil_r.
    split_and!; try done; constructor. }
  destruct (sam3 _ _) as [reply w]. destruct lp as [objs w0 evs md].
  simpl in *.
  destruct reply as [masks| |]; simpl.
  - split_and!.
    + by rewrite length_insert.
    + intros j Hj. by rewrite list_lookup_insert_ne.
    + intros ? [= <-]. congruence.
    + eexists. split; [done|]. split_and!; try done.
      * constructor; [|done]. simpl. split_and!; try done. exists obj.
        split_and!; try done.
        apply list_lookup_insert_eq. by eapply lookup_lt_Some.
      * by repeat constructor.
  - split_and!; try done.
    + intros ? [= <-]. congruence.
    + eexists. split; [done|]. split_and!; try done.
      * constructor; [|done]. simpl. split_and!; try done. by exists obj.
      * exists [], (DetectorCall k i Interrupted). by repeat constructor.
  - split_and!; try done.
    + intros ? [= <-]. congruence.
    + eexists. split; [done|]. split_and!; try done.
      * constructor; [|done]. simpl. split_and!; try done. by exists obj.
      * exists [], (DetectorCall k i Failed). by repeat constructor.
Qed.

Lemma loop_stored_frame (k : nat) (objs0 objs1 objs0' objs1' : list ObjectRecord)
    (e : Event) :
  loop_stored k objs0 objs1 e →
  objs0' !! event_object e = objs0 !! event_object e →
  objs1' !! event_object e = objs1 !! event_object e →
  loop_stored k objs0' objs1' e.
Proof.
  destruct e as [k' j reply|]; simpl; [|done].
  intros (-> & obj & H0 & He & H1) E0 E1. split; [done|]. exists obj.
  by rewrite E0, E1.
Qed.

Lemma refine_objects_spec (img : Image) (k : nat) (indices : list nat)
    (lp : Loop World) :
  NoDup indices →
  let res := refine_objects covers sam3 img k indices lp in
  length (all_objects (final res)) = length (all_objects lp) ∧
  (∀ j, j ∉ indices → all_objects (final res) !! j = all_objects lp !! j) ∧
  (∀ j obj, all_objects lp !! j = Some obj → has_eyes obj = true →
            all_objects (final res) !! j = Some obj) ∧
  ∃ new, loop_events (final res) = loop_events lp ++ new ∧
         Forall (λ e, event_object e ∈ indices ∧
                      loop_stored k (all_objects lp)
                                  (all_objects (final res)) e) new ∧
         ended (flow_of res) new ∧
         ((∀ j obj, j ∈ indices → all_objects lp !! j = Some obj →
                    has_eyes obj = true) → res = inr lp).
Proof.
  intros Hnd. revert lp.
  induction indices as [|i rest IH]; intros lp; simpl.
  { split_and!; try done. exists []. rewrite app_nil_r.
    split_and!; try done; constructor. }
  apply NoDup_cons in Hnd as [Hi Hnd]. specialize (IH Hnd).
  destruct (refine_object_spec img k lp i)
    as (Hlen1 & Hoth1 & Hskip1 & new1 & Hev1 & Hst1 & Hend1 & Hnil1).
  destruct (refine_object covers sam3 img k lp i) as [[exn lp1]|lp1] eqn:Hstep;
    simpl in *.
  - split_and!; try done.
    + intros j Hj. apply Hoth1. intros ->. apply Hj, elem_of_cons; auto.
    + intros j obj Hj He. destruct (decide (j = i)) as [->|Hne].
      * by specialize (Hskip1 _ Hj He).
      * by rewrite Hoth1.
    + exists new1. split_and!; try done.
      * eapply Forall_impl; [exact Hst1|]. intros e [<- Hs]. split; [|done].
        apply elem_of_cons; auto.
      * intros Hall. destruct Hend1 as (pre & e & -> & _ & _).
        apply Forall_app in Hst1 as [_ Hst1].
        apply Forall_cons in Hst1 as [[Hei Hs] _].
        destruct e as [k' j reply|]; simpl in *; [|done].
        destruct Hs as (_ & obj & Hobj & He & _). subst j.
        specialize (Hall i obj ltac:(apply elem_of_cons; auto) Hobj).
        congruence.
  - destruct (IH lp1) as (Hlen2 & Hoth2 & Hskip2 & new2 & Hev2 & Hst2 & Hend2 & Hnil2).
    set (res := refine_objects covers sam3 img k rest lp1) in *.
    split_and!.
    + congruence.
    + intros j Hj. rewrite Hoth2, Hoth1; [done| |].
      * intros ->. apply Hj, elem_of_cons; auto.
      * intros Hin. apply Hj, elem_of_cons; auto.
    + intros j obj Hj He. apply Hskip2; [|done].
      destruct (decide (j = i)) as [->|Hne].
      * specialize (Hskip1 _ Hj He). by simplify_eq.
      * by rewrite Hoth1.
    + exists (new1 ++ new2). split_and!.
      * by rewrite Hev2, Hev1, app_assoc.
      * apply Forall_app. split.
        -- eapply Forall_impl; [exact Hst1|]. intros e [Hei Hs].
           split; [subst i; apply elem_of_cons; auto|].
           eapply loop_stored_frame; [exact Hs|done|].
           rewrite Hei. by apply Hoth2.
        -- eapply Forall_impl; [exact Hst2|]. intros e [Hei Hs].
           split; [apply elem_of_cons; auto|].
           eapply loop_stored_frame; [exact Hs| |done].
           symmetry. apply Hoth1. intros Heq. rewrite Heq in Hei. done.
      * by apply ended_app.
      * intros Hall.
        assert (lp1 = lp) as ->.
        { destruct (all_objects lp !! i) as [obj|] eqn:Hobj.
          - assert (inr lp1 = inr lp :> Exn * Loop World + Loop World)
              as [= ->]; [|done].
            apply (Hskip1 obj eq_refl).
            apply (Hall i obj); [apply elem_of_cons; auto|done].
          - unfold refine_object in Hstep. rewrite Hobj in Hstep.
            by simplify_eq. }
        apply Hnil2. intros j obj Hj. apply Hall, elem_of_cons; auto.
Qed.

Lemma object_at_lookup (d : Data) (k j : nat) (name : string)
    (r : AnnotationRecord) :
  d !! k = Some (name, r) → object_at d k j = objects r !! j.
Proof. intros H. unfold object_at. by rewrite H. Qed.

Lemma object_at_insert (d : Data) (k j : nat) (name : string)
    (r : AnnotationRecord) :
  (k < length d)%nat → object_at (<[k := (name, r)]> d) k j = objects r !! j.
Proof. intros H. unfold object_at. by rewrite list_lookup_insert_eq. Qed.

Lemma call_stored_frame (d0 d1 d0' d1' : Data) (e : Event) :
  call_stored d0 d1 e →
  d0' !! event_image e = d0 !! event_image e →
  d1' !! event_image e = d1 !! event_image e →
  call_stored d0' d1' e.
Proof.
  destruct e as [k j reply|]; simpl; [|done].
  intros (obj & H0 & He & H1) E0 E1. exists obj.
  unfold object_at in *. by rewrite E0, E1.
Qed.

Lemma store_objects_id (k : nat) (name : string) (record : AnnotationRecord)
    (st : State World) :
  data st !! k = Some (name, record) →
  store_objects k name record
    (mkLoop (objects record) (world st) (events st) false) st = st.
Proof.
  intros Hk. unfold store_objects. simpl.
  replace (set_objects (objects record) record) with record
    by (by destruct record).
  rewrite list_insert_id by done. by destruct st.
Qed.

Lemma refine_image_spec (st : State World) (k : nat) :
  let res := refine_image covers sam3 waitKey imread show st k in
  length (data res.2) = length (data st) ∧
  (∀ k', k' ≠ k → data res.2 !! k' = data st !! k') ∧
  (∀ j obj, object_at (data st) k j = Some obj → has_eyes obj = true →
            object_at (data res.2) k j = Some obj) ∧
  disk res.2 = disk st ∧
  ∃ new, events res.2 = events st ++ new ∧
         Forall (λ e, event_image e = k ∧
                      call_stored (data st) (data res.2) e) new ∧
         ended res.1 new ∧
         ((∀ entry, data st !! k = Some entry →
                    imread entry.1 = None ∨
                    Forall (λ obj, has_eyes obj = true) (objects entry.2)) →
          res = (Continue, st)).
Proof.
  unfold refine_image.
  destruct (data st !! k) as [[name record]|] eqn:Hk.
  2:{ simpl. split_and!; try done. exists []. rewrite app_nil_r.
      split_and!; try done; constructor. }
  destruct (imread name) as [img|] eqn:Himg.
  2:{ simpl. split_and!; try done. exists []. rewrite app_nil_r.
      split_and!; try done; constructor. }
  pose proof (lookup_lt_Some _ _ _ Hk) as Hlt.
  set (lp0 := mkLoop (objects record) (world st) (events st) false).
  destruct (refine_objects_spec img k (seq 0 (length (objects record))) lp0
              (NoDup_seq _ _))
    as (Hlen & _ & Hskip & new & Hev & Hst & Hend & Hnil).
  assert (∀ lp : Loop World,
            Forall (λ e, event_object e ∈ seq 0 (length (objects record)) ∧
                         loop_stored k (objects record) (all_objects lp) e)
                   new →
            ∀ d', (∀ j, object_at d' k j = all_objects lp !! j) →
            Forall (λ e, event_image e = k ∧ call_stored (data st) d' e) new)
    as Hconv.
  { intros lp HF d' Hd'. eapply Forall_impl; [exact HF|].
    intros [k' j reply|] [_ Hs]; simpl in *; [|done].
    destruct Hs as (-> & obj & H0 & He & H1). split; [done|]. exists obj.
    rewrite (object_at_lookup _ _ _ _ _ Hk), Hd'. done. }
  assert (∀ lp : Loop World,
            (∀ j obj, objects record !! j = Some obj → has_eyes obj = true →
                      all_objects lp !! j = Some obj) →
            ∀ d', (∀ j, object_at d' k j = all_objects lp !! j) →
            ∀ j obj, object_at (data st) k j = Some obj →
                     has_eyes obj = true → object_at d' k j = Some obj)
    as Hkeep.
  { intros lp Hs d' Hd' j obj Hj He. rewrite Hd'. apply Hs; [|done].
    by rewrite <- (object_at_lookup _ _ _ _ _ Hk). }
  assert ((∀ entry : string * AnnotationRecord,
             Some (name, record) = Some entry →
             imread entry.1 = None ∨
             Forall (λ obj, has_eyes obj = true) (objects entry.2)) →
          refine_objects covers sam3 img k (seq 0 (length (objects record))) lp0
          = inr lp0) as Hidle.
  { intros Hall. apply Hnil. intros j obj _ Hj.
    destruct (Hall _ eq_refl) as [Hno|Hall']; simpl in *; [congruence|].
    by eapply Forall_lookup_1 in Hall'. }
  destruct (refine_objects covers sam3 img k _ lp0) as [[exn lp]|lp] eqn:Hloop;
    simpl in *.
  - split_and!.
    + by rewrite length_insert.
    + intros k' Hne. by rewrite list_lookup_insert_ne.
    + eapply Hkeep; [exact Hskip|]. intros j. by apply object_at_insert.
    + done.
    + exists new. split_and!; try done.
      * eapply Hconv; [exact Hst|]. intros j. by apply object_at_insert.
      * intros Hall. specialize (Hidle Hall). done.
  - destruct (is_modified lp && show) eqn:Hmod.
    + destruct (waitKey (loop_world lp)) as [key w] eqn:Hkey. 
      assert (∀ flow : Flow,
        length (data (flow, mkState
                  (<[k:=(name, set_objects (all_objects lp) record)]> (data st))
                  w (loop_events lp ++ [KeyPress k key]) (disk st)).2)
        = length (data st) ∧
        (∀ k', k' ≠ k →
           <[k:=(name, set_objects (all_objects lp) record)]> (data st) !! k'
           = data st !! k') ∧
        (∀ j obj, object_at (data st) k j = Some obj → has_eyes obj = true →
           object_at (<[k:=(name, set_objects (all_objects lp) record)]>
                        (data st)) k j = Some obj) ∧
        Forall (λ e, event_image e = k ∧
                     call_stored (data st)
                       (<[k:=(name, set_objects (all_objects lp) record)]>
                          (data st)) e)
               (new ++ [KeyPress k key])) as Hcommon.
      { intros flow. simpl. split_and!.
        - by rewrite length_insert.
        - intros k' Hne. by rewrite list_lookup_insert_ne.
        - eapply Hkeep; [exact Hskip|]. intros j. by apply object_at_insert.
        - apply Forall_app. split.
          + eapply Hconv; [exact Hst|]. intros j. by apply object_at_insert.
          + by repeat constructor. }
      assert (is_modified lp = true) as Hm
        by (by apply andb_true_iff in Hmod as [? _]).
      destruct (Z.eqb_spec key 27) as [->|Hne]; simpl.
      * destruct (Hcommon Break) as (H1 & H2 & H3 & H4).
        split_and!; try done.
        exists (new ++ [KeyPress k 27]). split_and!; try done.
        -- by rewrite Hev, app_assoc.
        -- by exists new, k.
        -- intros Hall. specialize (Hidle Hall). by simplify_eq.
      * destruct (Hcommon Continue) as (H1 & H2 & H3 & H4).
        split_and!; try done.
        exists (new ++ [KeyPress k key]). split_and!; try done.
        -- by rewrite Hev, app_assoc.
        -- apply Forall_app. split; [done|]. constructor; [|done].
           simpl. by apply Z.eqb_neq.
        -- intros Hall. specialize (Hidle Hall). by simplify_eq.
    + simpl. split_and!.
      * by rewrite length_insert.
      * intros k' Hne. by rewrite list_lookup_insert_ne.
      * eapply Hkeep; [exact Hskip|]. intros j. by apply object_at_insert.
      * done.
      * exists new. split_and!; try done.
        -- eapply Hconv; [exact Hst|]. intros j. by apply object_at_insert.
        -- intros Hall. specialize (Hidle Hall). simplify_eq.
           f_equal. by apply store_objects_id.
Qed.

Lemma object_at_same (d d' : Data) (k j : nat) :
  d' !! k = d !! k → object_at d' k j = object_at d k j.
Proof. intros H. unfold object_at. by rewrite H. Qed.

Lemma refine_images_spec (positions : list nat) (st : State World) :
  NoDup positions →
  let res := refine_images covers sam3 waitKey imread show positions st in
  length (data res.2) = length (data st) ∧
  (∀ k, k ∉ positions → data res.2 !! k = data st !! k) ∧
  (∀ k j obj, object_at (data st) k j = Some obj → has_eyes obj = true →
              object_at (data res.2) k j = Some obj) ∧
  disk res.2 = disk st ∧
  ∃ new, events res.2 = events st ++ new ∧
         Forall (λ e, event_image e ∈ positions ∧
                      call_stored (data st) (data res.2) e) new ∧
         match res.1 with
         | None => ended Continue new ∨ ended Break new
         | Some exn => ended (Raise exn) new
         end ∧
         ((∀ k entry, k ∈ positions → data st !! k = Some entry →
                      imread entry.1 = None ∨
                      Forall (λ obj, has_eyes obj = true) (objects entry.2)) →
          res = (None, st)).
Proof.
  intros Hnd. revert st.
  induction positions as [|i rest IH]; intros st; simpl.
  { split_and!; try done. exists []. rewrite app_nil_r.
    split_and!; try done; first [by constructor|by left; constructor]. }
  apply NoDup_cons in Hnd as [Hi Hnd]. specialize (IH Hnd).
  destruct (refine_image_spec st i)
    as (Hlen1 & Hoth1 & Hkeep1 & Hdisk1 & new1 & Hev1 & Hst1 & Hend1 & Hnil1).
  assert (∀ k j obj, object_at (data st) k j = Some obj →
            has_eyes obj = true →
            object_at
              (data (refine_image covers sam3 waitKey imread show st i).2) k j
            = Some obj) as Hkeep1'.
  { intros k j obj Hj He. destruct (decide (k = i)) as [->|Hne].
    - by apply Hkeep1.
    - rewrite (object_at_same (data st)); [done|]. by apply Hoth1. }
  assert (Forall (λ e, event_image e ∈ i :: rest ∧
                       call_stored (data st)
                         (data (refine_image covers sam3 waitKey imread show
                                  st i).2) e) new1) as Hst1'.
  { eapply Forall_impl; [exact Hst1|]. intros e [<- Hs]. split; [|done].
    apply elem_of_cons; auto. }
  destruct (refine_image covers sam3 waitKey imread show st i)
    as [[| |exn] st1] eqn:Hstep; simpl in *.
  - destruct (IH st1)
      as (Hlen2 & Hoth2 & Hkeep2 & Hdisk2 & new2 & Hev2 & Hst2 & Hend2 & Hnil2).
    set (res := refine_images covers sam3 waitKey imread show rest st1) in *.
    split_and!.
    + congruence.
    + intros k Hk. rewrite Hoth2, Hoth1; [done| |].
      * intros ->. apply Hk, elem_of_cons; auto.
      * intros Hin. apply Hk, elem_of_cons; auto.
    + intros k j obj Hj He. apply Hkeep2; [|done]. by apply Hkeep1'.
    + congruence.
    + exists (new1 ++ new2). split_and!.
      * by rewrite Hev2, Hev1, app_assoc.
      * apply Forall_app. split.
        -- eapply Forall_impl; [exact Hst1|]. intros e [Hei Hs].
           split; [subst i; apply elem_of_cons; auto|].
           eapply call_stored_frame; [exact Hs|done|].
           rewrite Hei. by apply Hoth2.
        -- eapply Forall_impl; [exact Hst2|]. intros e [Hei Hs].
           split; [apply elem_of_cons; auto|].
           eapply call_stored_frame; [exact Hs| |done].
           symmetry. apply Hoth1. intros Heq. rewrite Heq in Hei. done.
      * destruct res.1 as [exn|].
        -- by apply (ended_app (Raise exn)).
        -- destruct Hend2 as [Hend2|Hend2];
             [left; by apply (ended_app Continue)
             |right; by apply (ended_app Break)].
      * intros Hall.
        assert (st1 = st) as ->.
        { assert ((Continue, st1) = (Continue, st)) as [= ->]; [|done].
          apply Hnil1. intros entry Hentry. eapply Hall; [|done].
          apply elem_of_cons; auto. }
        apply Hnil2. intros k entry Hk. apply Hall, elem_of_cons; auto.
  - split_and!; try done.
    + intros k Hk. apply Hoth1. intros ->. apply Hk, elem_of_cons; auto.
    + exists new1. split_and!; try done; [by right|].
      intros Hall.
      assert ((Break, st1) = (Continue, st)) as [=]. 
      apply Hnil1. intros entry Hentry. eapply Hall; [|done].
      apply elem_of_cons; auto.
  - split_and!; try done.
    + intros k Hk. apply Hoth1. intros ->. apply Hk, elem_of_cons; auto.
    + exists new1. split_and!; try done.
      intros Hall.
      assert ((Raise exn, st1) = (Continue, st)) as [=]. 
      apply Hnil1. intros entry Hentry. eapply Hall; [|done].
      apply elem_of_cons; auto.
Qed.

Lemma run_spec (st : State World) :
  let res := run covers sam3 waitKey imread show st in
  disk res.2 = data res.2 ∧
  res.1 ≠ Some KeyboardInterrupt ∧
  (∀ k j obj, object_at (data st) k j = Some obj → has_eyes obj = true →
              object_at (data res.2) k j = Some obj) ∧
  ∃ new, events res.2 = events st ++ new ∧
         Forall (call_stored (data st) (data res.2)) new ∧
         stops_at_signal new ∧
         (res.1 = Some OtherError →
          ∃ pre k j, new = pre ++ [DetectorCall k j Failed]) ∧
         (nothing_to_refine imread (data st) →
          res = (None, save_results st)).
Proof.
  unfold run.
  destruct (refine_images_spec (seq 0 (length (data st))) st (NoDup_seq _ _))
    as (Hlen & Hoth & Hkeep & Hdisk & new & Hev & Hst & Hend & Hnil).
  destruct (refine_images covers sam3 waitKey imread show _ st)
    as [raised st'] eqn:Hloop; simpl in *.
  split_and!; try done.
  - by destruct raised as [[]|].
  - exists new. split_and!; try done.
    + eapply Forall_impl; [exact Hst|]. by intros e [_ Hs].
    + destruct raised as [exn|].
      * by apply (ended_stops (Raise exn)).
      * destruct Hend;
          [by apply (ended_stops Continue)|by apply (ended_stops Break)].
    + destruct raised as [[]|]; try done. intros _.
      destruct Hend as (pre & e & -> & _ & Hr).
      destruct e as [k j [ | | ]|k key]; try done. eauto.
    + intros Hall.
      assert ((raised, st') = (None, st)) as [= -> ->]; [|done].
      apply Hnil. intros k entry _ Hk.
      by eapply Forall_lookup_1 in Hall.
Qed.

(** When the operator's interrupt reaches [run] (it arrives at a detector
    call) and the windows close, the document is saved as it stands
    however the run loop ends (normally, by the escape key, by the
    interrupt, or by an error): the file holds the result of every
    detector call completed before the signal, and objects whose call
    raised are as they were.  The signal is the last event: no detector
    call is launched after it.  The interrupt does not leave [run] as an
    exception.  [SignalsFacts] has the runs in which the interrupt arrives
    while a sibling is masked or the windows do not close. *)
Theorem run_persists_progress (st : State World) :
  let res := run covers sam3 waitKey imread show st in
  disk res.2 = data res.2 ∧
  res.1 ≠ Some KeyboardInterrupt ∧
  ∃ new, events res.2 = events st ++ new ∧
         Forall (call_stored (data st) (disk res.2)) new ∧
         stops_at_signal new ∧
         (res.1 = Some OtherError →
          ∃ pre k j, new = pre ++ [DetectorCall k j Failed]).
Proof.
  intros res.
  destruct (run_spec st) as (Hdisk & Hki & _ & new & Hev & Hst & Hstop & Herr & _).
  fold res in Hdisk, Hki, Hev, Hst, Herr.
  split_and!; try done. exists new. rewrite Hdisk. by split_and!.
Qed.

(** Claim C1, as the code has it.  A run leaves every object whose
    contour sequence is not empty as it was and makes no detector call for
    it; and when nothing is left to refine (every image is unreadable or
    all its objects carry contours, as after a first run that found
    contours everywhere) the run makes no detector call, asks for no key
    and saves the document it was given. *)
Theorem rerun_skips_objects_with_eyes (st : State World) :
  let res := run covers sam3 waitKey imread show st in
  (∀ k j obj,
     object_at (data st) k j = Some obj → has_eyes obj = true →
     object_at (data res.2) k j = Some obj ∧
     ∀ new reply, events res.2 = events st ++ new →
                  DetectorCall k j reply ∉ new) ∧
  (nothing_to_refine imread (data st) →
   res = (None, save_results st)).
Proof.
  intros res.
  destruct (run_spec st) as (_ & _ & Hkeep & new & Hev & Hst & _ & _ & Hidle).
  fold res in Hkeep, Hev, Hst, Hidle. split; [|done].
  intros k j obj Hobj Heyes. split; [by apply Hkeep|].
  intros new' reply Hev' Hin.
  rewrite Hev in Hev'. apply app_inv_head in Hev'. subst new'.
  eapply Forall_forall in Hst; [|exact Hin]. simpl in Hst.
  destruct Hst as (obj' & Hobj' & Heyes' & _). congruence.
Qed.

End RunFacts.

Lemma rerun_skips_objects_with_eyes_witness :
  let run1 := run Demo.box_raster Demo.sam3_always Demo.no_key
                Demo.read_picture false Demo.start in
  nothing_to_refine Demo.read_picture (data run1.2) ∧
  run Demo.box_raster Demo.sam3_always Demo.no_key Demo.read_picture false
      run1.2
  = (None, save_results run1.2).
Proof.
  intros run1.
  assert (nothing_to_refine Demo.read_picture (data run1.2)) as Hdone
    by by_decide.
  split; [exact Hdone|].
  apply (rerun_skips_objects_with_eyes Demo.box_raster nat Demo.sam3_always
           Demo.no_key Demo.read_picture false run1.2).
  exact Hdone.
Defined.

(** A run interrupted during its second detector call: the first result
    is in the saved document, the second object is as it was, no call
    follows the interrupt (the second image is not reached), and [run]
    returns without an exception. *)
Example interrupted_run :
  let res := run Demo.box_raster Demo.sam3_interrupted Demo.no_key
               Demo.read_picture false Demo.start in
  res.1 = None ∧
  events res.2 = [DetectorCall 0 0 (Masks [[Demo.pupil]]);
                  DetectorCall 0 1 Interrupted] ∧
  eyes <$> object_at (disk res.2) 0 0 = Some (Some [Demo.pupil]) ∧
  eyes <$> object_at (disk res.2) 0 1 = Some (Some []) ∧
  eyes <$> object_at (disk res.2) 1 0 = Some (Some []).
Proof. vm_compute. split_and!; reflexivity. Qed.

(** Claim C1 fails as stated: the first object is completed by the first
    run with the empty sequence as its result; the second run calls the
    detector for it again and stores a different result, so the record
    after two runs is not the record after one. *)
Lemma rerun_resubmits_empty_result :
  let run1 := run Demo.box_raster Demo.sam3_late Demo.no_key
                Demo.read_picture false Demo.start in
  let run2 := run Demo.box_raster Demo.sam3_late Demo.no_key
                Demo.read_picture false run1.2 in
  DetectorCall 0 0 (Masks []) ∈ events run1.2 ∧
  eyes <$> object_at (data run1.2) 0 0 = Some (Some []) ∧
  events run2.2
  = events run1.2 ++ [DetectorCall 0 0 (Masks [[Demo.pupil]])] ∧
  eyes <$> object_at (data run2.2) 0 0 = Some (Some [Demo.pupil]) ∧
  data run2.2 ≠ data run1.2.
Proof.
  intros run1 run2. split_and!.
  - vm_compute. apply elem_of_cons. by left.
  - vm_compute. reflexivity.
  - vm_compute. reflexivity.
  - vm_compute. reflexivity.
  - intros Heq.
    apply (f_equal (λ d, eyes <$> object_at d 0 0)) in Heq.
    vm_compute in Heq. discriminate.
Qed.

End RefinerFacts.

(** ** The comparison loop of the verifier *)

Module VerifierMore.
Import Verifier VerifierFacts Loader.

Lemma sorted_ids_swap (a b : string) : sorted_ids a b = sorted_ids b a.
Proof.
  unfold sorted_ids.
  destruct (String.leb a b) eqn:H12, (String.leb b a) eqn:H21; try done.
  - by rewrite (String.leb_antisym _ _ H12 H21).
  - destruct (String.leb_total a b); congruence.
Qed.

Lemma filter_complement_length {A : Type} (f : A → bool) (l : list A) :
  (length (filter (λ x, f x = true) l) + length (filter (λ x, f x = false) l)
   = length l)%nat.
Proof.
  induction l as [|x l IH]; [done|]. destruct (f x) eqn:E.
  - rewrite filter_cons_True, filter_cons_False by congruence. simpl. lia.
  - rewrite filter_cons_False, filter_cons_True by congruence. simpl. lia.
Qed.

Lemma verdict_error_nonneg (actual : option Q) (expect : Q) (v : Verdict) :
  classified actual expect v → (0 <= verdict_error v)%Q.
Proof.
  destruct v as [| |d]; [done..|].
  intros (a & _ & _ & ->). cbn [verdict_error]. apply Qabs_nonneg.
Qed.

Lemma sum_Q_nonneg (l : list Q) :
  Forall (λ q, (0 <= q)%Q) l → (0 <= sum_Q l)%Q.
Proof.
  induction 1 as [|q l Hq _ IH]; simpl; [done|].
  replace 0%Q with (0 + 0)%Q by done. by apply Qplus_le_compat.
Qed.

Lemma sum_Q_zero (l : list Q) :
  Forall (λ q, (0 <= q)%Q) l →
  (sum_Q l == 0)%Q ↔ Forall (λ q, (q == 0)%Q) l.
Proof.
  induction 1 as [|q l Hq Hl IH]; simpl.
  - split; [constructor|done].
  - pose proof (sum_Q_nonneg l Hl) as Hs. split.
    + intros Hz. assert (q == 0)%Q as Hq0.
      { apply Qle_antisym; [|done]. rewrite <- Hz.
        rewrite <- (Qplus_0_r q) at 1.
        by apply Qplus_le_compat; [apply Qle_refl|]. }
      constructor; [done|]. apply IH. rewrite Hq0, Qplus_0_l in Hz. done.
    + intros Hall. apply Forall_cons in Hall as [Hq0 Hall].
      rewrite Hq0, Qplus_0_l. by apply IH.
Qed.

Section Counts.
Variable ind : gmap (string * string) Q.
Variable prm : gmap (string * (string * string)) Q.

(** Property X1.  Every row of the ground-truth table is counted once:
    the matches and the misses (detection failures included) add up to
    the number of rows, and one line is printed for each row. *)
Theorem every_row_counted_once (gt_rows : list GtRow) :
  let t := compare_rows ind prm gt_rows in
  (match_count t + miss_count t = length gt_rows)%nat ∧
  length (printed t) = length gt_rows.
Proof.
  intros t.
  destruct (fold_compare_spec ind prm gt_rows (mkTally 0 0 0 []))
    as (vs & Hp & Hc & Hm & Hx & _).
  fold (compare_rows ind prm gt_rows) in Hp, Hm, Hx. fold t in Hp, Hm, Hx.
  simpl in Hp, Hm, Hx. rewrite Hp, Hm, Hx.
  rewrite filter_complement_length. split; symmetry; by eapply Forall2_length.
Qed.

(** Property X2.  A mean absolute error that is reported is not
    negative, and it is zero exactly when every matched row has the
    expected value. *)
Theorem mae_nonnegative (gt_rows : list GtRow) (m : Q) :
  mae (compare_rows ind prm gt_rows) = Some m →
  (0 <= m)%Q ∧
  ((m == 0)%Q ↔
   Forall (λ v, (verdict_error v == 0)%Q)
          (printed (compare_rows ind prm gt_rows))).
Proof.
  set (t := compare_rows ind prm gt_rows).
  destruct (fold_compare_spec ind prm gt_rows (mkTally 0 0 0 []))
    as (vs & Hp & Hc & _ & _ & He).
  fold (compare_rows ind prm gt_rows) in Hp, He. fold t in Hp, He.
  simpl in Hp, He. subst vs. rewrite Qplus_0_l in He.
  assert (Forall (λ q, (0 <= q)%Q) (verdict_error <$> printed t)) as Hnn.
  { apply Forall_fmap. eapply Forall2_Forall_r; [exact Hc|].
    apply Forall_forall. intros row _ v Hv. simpl.
    by eapply verdict_error_nonneg. }
  unfold mae. destruct (decide (0 < match_count t)%nat) as [Hpos|]; [|done].
  intros [= <-].
  assert (0 < inject_Z (Z.of_nat (match_count t)))%Q as Hn.
  { unfold Qlt, inject_Z. simpl. lia. }
  rewrite He. split.
  - apply Qle_shift_div_l; [done|]. rewrite Qmult_0_l. by apply sum_Q_nonneg.
  - assert (Forall (λ v, (verdict_error v == 0)%Q) (printed t) ↔
            Forall (λ q, (q == 0)%Q) (verdict_error <$> printed t)) as ->
      by (by rewrite Forall_fmap).
    rewrite <- (sum_Q_zero _ Hnn). split.
    + intros Hz.
      apply (Qmult_inj_r _ _ (/ inject_Z (Z.of_nat (match_count t)))).
      * intros Hinv. apply (Qlt_irrefl 0).
        apply Qinv_lt_0_compat in Hn. by rewrite Hinv in Hn.
      * rewrite Qmult_0_l. exact Hz.
    + intros Hz. unfold Qdiv. by rewrite Hz, Qmult_0_l.
Qed.

(** Property X3.  The order in which a pair row names its two objects
    does not matter: the row with the identifiers exchanged finds the same
    computed value, the one stored for the image and the two identifiers
    in sorted order, and is tallied the same way. *)
Theorem pair_row_order_irrelevant (t : Tally) (row : GtRow) :
  Type_ row = "Pair"%string →
  lookup_actual ind prm (swap_ids row) = lookup_actual ind prm row ∧
  compare_row ind prm t (swap_ids row) = compare_row ind prm t row ∧
  lookup_actual ind prm row
  = prm !! (Image_Name row,
            if String.leb (Obj_ID_1 row) (Obj_ID_2 row)
            then (Obj_ID_1 row, Obj_ID_2 row)
            else (Obj_ID_2 row, Obj_ID_1 row)).
Proof.
  intros HT.
  assert (lookup_actual ind prm (swap_ids row) = lookup_actual ind prm row)
    as Hl.
  { unfold lookup_actual, swap_ids. simpl. rewrite HT.
    rewrite decide_False by done. rewrite decide_True by done.
    by rewrite sorted_ids_swap. }
  split; [done|]. split.
  - unfold compare_row. by rewrite Hl.
  - unfold lookup_actual, sorted_ids. rewrite HT.
    rewrite decide_False by done. by rewrite decide_True.
Qed.

End Counts.

Lemma mae_nonnegative_witness :
  let t := compare_rows {[ ("a.jpg"%string, "0"%string) := 2250 # 100 ]} ∅
             [Scenario.individual_row] in
  (0 <= default 0 (mae t))%Q ∧
  ((default 0 (mae t) == 0)%Q ↔
   Forall (λ v, (verdict_error v == 0)%Q) (printed t)).
Proof.
  apply (mae_nonnegative {[ ("a.jpg"%string, "0"%string) := 2250 # 100 ]} ∅
           [Scenario.individual_row]).
  vm_compute. reflexivity.
Defined.

Lemma pair_row_order_irrelevant_witness :
  let t := mkTally (5 # 2) 1 2 [Match (5 # 2); Miss; Miss] in
  lookup_actual Scenario.computed_distances Scenario.computed_pairs Scenario.pair_row = Some (10250 # 100) ∧
  lookup_actual Scenario.computed_distances Scenario.computed_pairs (swap_ids Scenario.pair_row) = Some (10250 # 100) ∧
  compare_row Scenario.computed_distances Scenario.computed_pairs t (swap_ids Scenario.pair_row)
  = compare_row Scenario.computed_distances Scenario.computed_pairs t Scenario.pair_row.
Proof.
  intros t.
  destruct (pair_row_order_irrelevant Scenario.computed_distances Scenario.computed_pairs t Scenario.pair_row)
    as (Hl & Hc & Hv); [reflexivity|].
  rewrite Hl, Hv. split_and!; try done; vm_compute; reflexivity.
Defined.

End VerifierMore.

(** ** Invariants of the measurement pass *)

Module MeasurementMore.
Import Measurement Polygon MeasurementFacts Invariants.

Lemma measure_Forall2 (data data' : Data) (cnt : nat) :
  measure data = Some (data', cnt) ↔
  Forall2 (λ e e', e'.1 = e.1 ∧
                   (r1 ← preprocess_record e.2; metrics_record r1)
                   = Some e'.2) data data' ∧
  cnt = sum_list (pair_count ∘ snd <$> data').
Proof.
  unfold measure, _preprocess_coordinates, _calculate_all_metrics. split.
  - intros HM.
    destruct (mapM _ data) as [d1|] eqn:E1; simplify_eq/=.
    destruct (mapM _ d1) as [d2|] eqn:E2; simplify_eq/=.
    split; [|done]. apply mapM_entries_Forall2 in E1, E2.
    apply Forall2_same_length_lookup. split.
    { apply Forall2_length in E1, E2. congruence. }
    intros k [n r] [n' r'] Hk Hk'.
    destruct (Forall2_lookup_l _ _ _ _ _ E1 Hk) as ([n1 r1] & Hk1 & Hn1 & H1).
    destruct (Forall2_lookup_l _ _ _ _ _ E2 Hk1) as ([n2 r2] & Hk2 & Hn2 & H2).
    simplify_eq/=. by rewrite H1.
  - intros [HF ->].
    assert (∃ d1, Forall2 (λ e e1, e1.1 = e.1 ∧
                                   preprocess_record e.2 = Some e1.2) data d1 ∧
                  Forall2 (λ e1 e', e'.1 = e1.1 ∧
                                    metrics_record e1.2 = Some e'.2) d1 data')
      as (d1 & H1 & H2).
    { induction HF as [|[n r] [n' r'] data data' [Hn Hr] _ (d1 & H1 & H2)].
      - exists []. split; constructor.
      - simpl in *. apply bind_Some in Hr as (r1 & Hr1 & Hr').
        exists ((n, r1) :: d1). split; constructor; done. }
    apply mapM_entries_Forall2 in H1, H2. rewrite H1. simpl.
    by rewrite H2.
Qed.

(** One record through both phases. *)
Lemma measured_record_spec (r r' : AnnotationRecord) :
  (r1 ← preprocess_record r; metrics_record r1) = Some r' →
  same_header r r' ∧
  Forall2 (λ obj obj', measured_object obj = Some obj')
          (objects r) (objects r') ∧
  (Forall no_tmp (objects r) →
   ∃ prs, pairs r' = Some prs ∧
          mapM pair_record (combinations2 (filter two_eyes (objects r')))
          = Some prs).
Proof.
  intros H. apply bind_Some in H as (r1 & H1 & H2).
  apply preprocess_record_Some in H1 as (objs & Hobjs & ->).
  apply metrics_record_Some in H2 as (prs & Hprs & ->).
  apply mapM_Some_1 in Hobjs. simpl in *. split; [done|]. split.
  - apply Forall2_fmap_r. eapply Forall2_impl; [exact Hobjs|].
    intros obj o1 Ho1. unfold measured_object. by rewrite Ho1.
  - intros Hno. exists prs. split; [done|].
    rewrite <- (qualifying_objects _ _ Hobjs Hno), combinations2_fmap.
    rewrite mapM_fmap_compose. rewrite <- Hprs. apply mapM_ext.
    intros ab. apply pair_record_pop.
Qed.

Lemma measured_object_detection (obj obj' : ObjectRecord) :
  measured_object obj = Some obj' →
  same_detection obj obj' ∧ eyes obj' = eyes obj.
Proof.
  unfold measured_object, preprocess_object. intros H.
  destruct (decide _) as [H2|H2]; simpl in H.
  - apply fmap_Some in H as (o1 & H & ->).
    apply bind_Some in H as (cs & _ & H).
    apply bind_Some in H as (l & _ & H).
    apply bind_Some in H as (r & _ & H). simplify_eq. done.
  - simplify_eq. unfold metrics_object.
    by destruct (_tmp_eye_L obj), (_tmp_eye_R obj).
Qed.

Lemma measured_object_no_tmp (obj obj' : ObjectRecord) :
  measured_object obj = Some obj' → no_tmp obj'.
Proof.
  unfold measured_object. intros H.
  apply fmap_Some in H as (o1 & _ & ->). done.
Qed.

Lemma measured_object_again (obj obj' : ObjectRecord) :
  no_tmp obj →
  measured_object obj = Some obj' → measured_object obj' = Some obj'.
Proof.
  intros Hno H. destruct (decide (two_eyes obj)) as [H2|H2].
  - unfold two_eyes in H2.
    destruct (eyes obj) as [[|e1 [|e2 [|e3 rest]]]|] eqn:He; try done.
    assert (is_Some (preprocess_object obj)) as [o1 Ho1].
    { unfold measured_object in H.
      apply fmap_Some in H as (o1 & Ho1 & _). by rewrite Ho1. }
    destruct (preprocess_object_two_inv _ _ _ _ He Ho1)
      as (c1 & c2 & Hc1 & Hc2).
    rewrite (measured_object_two _ _ _ _ _ He Hc1 Hc2) in H.
    assert (eyes obj' = Some [e1; e2]) as He'.
    { injection H as <-. by destruct (c1.1 <=? c2.1). }
    rewrite (measured_object_two _ _ _ _ _ He' Hc1 Hc2).
    injection H as <-. destruct (c1.1 <=? c2.1); reflexivity.
  - rewrite (measured_object_other _ H2 Hno) in H. injection H as <-.
    by apply measured_object_other.
Qed.

Lemma measured_object_metrics (obj obj' : ObjectRecord) :
  measured_object obj = Some obj' → two_eyes obj →
  ∃ l r, eyes_dist obj' = Some (rounded_distance l r) ∧
         eye_L_center obj' = Some l ∧ eye_R_center obj' = Some r.
Proof.
  intros H H2. unfold two_eyes in H2.
  destruct (eyes obj) as [[|e1 [|e2 [|e3 rest]]]|] eqn:He; try done.
  assert (is_Some (preprocess_object obj)) as [o1 Ho1].
  { unfold measured_object in H.
    apply fmap_Some in H as (o1 & Ho1 & _). by rewrite Ho1. }
  destruct (preprocess_object_two_inv _ _ _ _ He Ho1)
    as (c1 & c2 & Hc1 & Hc2).
  rewrite (measured_object_two _ _ _ _ _ He Hc1 Hc2) in H.
  injection H as <-. destruct (c1.1 <=? c2.1); simpl; eauto.
Qed.

Lemma Forall2_fixed {A : Type} (f : A → option A) (l l' : list A) :
  Forall2 (λ x y, f x = Some y) l l' →
  Forall (λ x, f x = Some x) l → l' = l.
Proof.
  induction 1 as [|x y l l' Hxy _ IH]; intros HF; [done|].
  apply Forall_cons in HF as [Hx HF]. f_equal; [congruence|by apply IH].
Qed.

Lemma Forall2_fmap_eq {A B C : Type} (f : A → C) (g : B → C)
    (l : list A) (l' : list B) :
  Forall2 (λ x y, g y = f x) l l' → g <$> l' = f <$> l.
Proof.
  induction 1 as [|x y l l' Hxy _ IH]; [done|].
  rewrite !fmap_cons. by rewrite Hxy, IH.
Qed.

Lemma measured_names (data data' : Data) (cnt : nat) :
  measure data = Some (data', cnt) → data'.*1 = data.*1.
Proof.
  intros [HF _]%measure_Forall2. apply Forall2_fmap_eq.
  eapply Forall2_impl; [exact HF|]. by intros e e' [-> _].
Qed.

Lemma measured_ids (objs objs' : list ObjectRecord) :
  Forall2 (λ obj obj', measured_object obj = Some obj') objs objs' →
  object_id <$> objs' = object_id <$> objs.
Proof.
  intros HF. apply Forall2_fmap_eq. eapply Forall2_impl; [exact HF|].
  intros o o' Hm. by apply measured_object_fields in Hm as [_ ->].
Qed.

Lemma measured_record_again (r r' : AnnotationRecord) :
  Forall no_tmp (objects r) →
  (r1 ← preprocess_record r; metrics_record r1) = Some r' →
  (r1 ← preprocess_record r'; metrics_record r1) = Some r'.
Proof.
  intros Hno H.
  destruct (measured_record_spec _ _ H) as (Hh & Hobjs & Hprs).
  destruct (Hprs Hno) as (prs & Hp & Hcomb).
  assert (Forall (λ o, measured_object o = Some o) (objects r')) as Hfix.
  { apply Forall_lookup. intros i obj' Hi.
    destruct (Forall2_lookup_r _ _ _ _ _ Hobjs Hi) as (obj & Ho & Hm).
    eapply measured_object_again; [|exact Hm].
    by eapply Forall_lookup_1 in Hno. }
  assert (Forall no_tmp (objects r')) as Hno'.
  { eapply Forall_impl; [exact Hfix|]. intros o. apply measured_object_no_tmp. }
  assert (is_Some (r1 ← preprocess_record r'; metrics_record r1))
    as [r'' H''].
  { unfold preprocess_record.
    destruct (mapM_is_Some_2 preprocess_object (objects r')) as [objs Ho].
    - eapply Forall_impl; [exact Hfix|]. intros o Hm.
      unfold measured_object in Hm.
      apply fmap_Some in Hm as (o1 & Ho1 & _). simpl. by rewrite Ho1.
    - rewrite Ho. simpl. apply metrics_record_is_Some. }
  rewrite H''. f_equal.
  destruct (measured_record_spec _ _ H'')
    as ((Hw & Hht & Ha) & Hobjs'' & Hprs'').
  destruct (Hprs'' Hno') as (prs'' & Hp'' & Hcomb'').
  apply Forall2_fixed in Hobjs''; [|done].
  rewrite Hobjs'' in Hcomb''.
  destruct r' as [w h a objs ps], r'' as [w'' h'' a'' objs'' ps''].
  simpl in *. congruence.
Qed.

Lemma sorted_centroids_swap (c1 c2 : Point) :
  let '(l, r) := if c1.1 <=? c2.1 then (c1, c2) else (c2, c1) in
  let '(l', r') := if c2.1 <=? c1.1 then (c2, c1) else (c1, c2) in
  rounded_distance l r = rounded_distance l' r' ∧
  (c1.1 ≠ c2.1 → l = l' ∧ r = r').
Proof.
  assert (rounded_distance c1 c2 = rounded_distance c2 c1) as Hs.
  { unfold rounded_distance, squared_distance. f_equal. ring. }
  destruct (c1.1 <=? c2.1) eqn:E1, (c2.1 <=? c1.1) eqn:E2; split; try done;
    intros Hne; lia.
Qed.

Lemma filter_length_Forall2 {A : Type} (P : A → Prop) `{∀ x, Decision (P x)}
    (l l' : list A) :
  Forall2 (λ x y, P x ↔ P y) l l' →
  length (filter P l) = length (filter P l').
Proof.
  induction 1 as [|x y l l' Hxy _ IH]; [done|]. rewrite !filter_cons.
  destruct (decide (P x)) as [Hx|Hx].
  - rewrite decide_True by tauto. simpl. by rewrite IH.
  - rewrite decide_False by tauto. done.
Qed.

Lemma choose2_combinations2 {A : Type} (l : list A) :
  length (combinations2 l) = choose2 (length l).
Proof.
  unfold choose2. rewrite <- length_combinations2.
  by rewrite Nat.mul_comm, Nat.div_mul.
Qed.

Lemma measured_record_count (r r' : AnnotationRecord) :
  Forall no_tmp (objects r) →
  (r1 ← preprocess_record r; metrics_record r1) = Some r' →
  pair_count r' = choose2 (measurable r).
Proof.
  intros Hno H.
  destruct (measured_record_spec _ _ H) as (_ & Hobjs & Hprs).
  destruct (Hprs Hno) as (prs & Hp & Hcomb).
  unfold pair_count, measurable. rewrite Hp. simpl.
  apply mapM_Some_1, Forall2_length in Hcomb.
  rewrite <- Hcomb, choose2_combinations2.
  f_equal. symmetry. apply filter_length_Forall2.
  eapply Forall2_impl; [exact Hobjs|]. intros obj obj' Hm.
  apply measured_object_detection in Hm as [_ He]. unfold two_eyes.
  by rewrite He.
Qed.

(** Property X4.  The measurement pass only adds: in the document it
    returns, the image names, the sizes and counts of the images, and for
    every object the identifier, the class, the confidence, the box, the
    outline and the eye contours are those of the document it read. *)
Theorem measure_keeps_detection (data : Data) :
  usable_data data →
  ∃ data' cnt,
    measure data = Some (data', cnt) ∧
    Forall2 (λ e e', e'.1 = e.1 ∧ same_header e.2 e'.2 ∧
                     Forall2 (λ obj obj', same_detection obj obj' ∧
                                          eyes obj' = eyes obj)
                             (objects e.2) (objects e'.2))
            data data'.
Proof.
  intros Hu. destruct (measure_total _ Hu) as (data' & cnt & HM).
  exists data', cnt. split; [done|].
  apply measure_Forall2 in HM as [HF _].
  eapply Forall2_impl; [exact HF|]. intros [n r] [n' r'] [Hn Hr]; simpl in *.
  destruct (measured_record_spec _ _ Hr) as (Hh & Hobjs & _).
  split; [done|]. split; [done|].
  eapply Forall2_impl; [exact Hobjs|]. apply measured_object_detection.
Qed.

Lemma measure_keeps_detection_witness :
  ∃ data' cnt,
    measure Demo.document = Some (data', cnt) ∧
    Forall2 (λ e e', e'.1 = e.1 ∧ same_header e.2 e'.2 ∧
                     Forall2 (λ obj obj', same_detection obj obj' ∧
                                          eyes obj' = eyes obj)
                             (objects e.2) (objects e'.2))
            Demo.document data'.
Proof. apply (measure_keeps_detection Demo.document). by_decide. Defined.

(** Property X5.  Measuring is idempotent: a second pass over the
    document a pass returned returns the same document and the same pair
    count. *)
Theorem measure_idempotent (data : Data) :
  usable_data data →
  Forall (λ entry, Forall no_tmp (objects entry.2)) data →
  ∃ data' cnt,
    measure data = Some (data', cnt) ∧ measure data' = Some (data', cnt).
Proof.
  intros Hu Hno. destruct (measure_total _ Hu) as (data' & cnt & HM).
  exists data', cnt. split; [done|].
  apply measure_Forall2 in HM as [HF ->]. apply measure_Forall2.
  split; [|done]. apply Forall_Forall2_diag, Forall_lookup.
  intros k [n' r'] Hk'. split; [done|]. simpl.
  destruct (Forall2_lookup_r _ _ _ _ _ HF Hk') as ([n r] & Hk & _ & Hr).
  simpl in Hr. eapply measured_record_again; [|exact Hr].
  by eapply Forall_lookup_1 in Hno; [|exact Hk].
Qed.

Lemma measure_idempotent_witness :
  ∃ data' cnt,
    measure Demo.document = Some (data', cnt) ∧
    measure data' = Some (data', cnt).
Proof.
  apply (measure_idempotent Demo.document).
  - by_decide.
  - by_decide.
Defined.

(** Property X6.  The pair count the pass reports is the sum, over the
    images, of the number of pairs among the objects that carry two
    contours: [n * (n - 1) / 2] for [n] such objects. *)
Theorem total_pair_count_formula (data : Data) :
  usable_data data →
  Forall (λ entry, Forall no_tmp (objects entry.2)) data →
  ∃ data' cnt,
    measure data = Some (data', cnt) ∧
    cnt = sum_list ((λ entry, choose2 (measurable entry.2)) <$> data).
Proof.
  intros Hu Hno. destruct (measure_total _ Hu) as (data' & cnt & HM).
  exists data', cnt. split; [done|].
  apply measure_Forall2 in HM as [HF ->]. f_equal.
  clear Hu. induction HF as [|[n r] [n' r'] data data' [_ Hr] _ IH]; [done|].
  apply Forall_cons in Hno as [Hno1 Hno]. simpl in *.
  f_equal; [by apply measured_record_count|by apply IH].
Qed.

Lemma total_pair_count_formula_witness :
  ∃ data' cnt,
    measure Demo.document = Some (data', cnt) ∧
    cnt = sum_list ((λ entry, choose2 (measurable entry.2))
                      <$> Demo.document).
Proof.
  apply (total_pair_count_formula Demo.document).
  - by_decide.
  - by_decide.
Defined.

(** Property X7.  The rounded distance does not depend on the order of
    its two points; it is zero exactly for equal points, and two distinct
    pixel positions are at least 1.00 apart. *)
Theorem distance_symmetric_definite (p q : Point) :
  rounded_distance p q = rounded_distance q p ∧
  (p = q ↔ (rounded_distance p q == 0)%Q) ∧
  (p ≠ q → (1 <= rounded_distance p q)%Q).
Proof.
  assert (squared_distance p q = squared_distance q p) as Hs
    by (unfold squared_distance; ring).
  pose proof (squared_distance_nonneg p q) as Hnn.
  assert (p = q ↔ squared_distance p q = 0) as Hz.
  { destruct p as [x y], q as [x' y']. unfold squared_distance. simpl. split.
    - intros [= -> ->]. ring.
    - intros H. assert (x = x' ∧ y = y') as [-> ->] by nia. done. }
  assert (1 ≤ squared_distance p q →
          100 ≤ (Z.sqrt (40000 * squared_distance p q) + 1) / 2) as Hbig.
  { intros H1. apply Z.div_le_lower_bound; [lia|].
    assert (200 ≤ Z.sqrt (40000 * squared_distance p q)); [|lia].
    change 200 with (Z.sqrt (200 * 200)). apply Z.sqrt_le_mono. lia. }
  unfold rounded_distance. split; [by rewrite Hs|]. split.
  - rewrite Hz. split.
    + intros ->. done.
    + intros H0.
      destruct (decide (squared_distance p q = 0)) as [|Hne]; [done|].
      specialize (Hbig ltac:(lia)). unfold round2_sqrt, Qeq in H0.
      simpl in H0. lia.
  - intros Hne. assert (squared_distance p q ≠ 0) by (by rewrite <- Hz).
    specialize (Hbig ltac:(lia)). unfold round2_sqrt, Qle. simpl. lia.
Qed.

(** Property X8.  The order in which the two eye contours of an object
    are stored does not change its measured distance, nor, when the two
    centroids differ in their horizontal coordinate, which centroid is
    the left and which the right landmark. *)
Theorem eye_order_irrelevant (obj : ObjectRecord) (e1 e2 : Contour) :
  e1 ≠ [] → e2 ≠ [] →
  ∃ o o' c1 c2,
    measured_object (set_eyes [e1; e2] obj) = Some o ∧
    measured_object (set_eyes [e2; e1] obj) = Some o' ∧
    _get_centroid e1 = Some c1 ∧ _get_centroid e2 = Some c2 ∧
    eyes_dist o = eyes_dist o' ∧
    (c1.1 ≠ c2.1 →
     eye_L_center o = eye_L_center o' ∧ eye_R_center o = eye_R_center o').
Proof.
  intros H1 H2.
  destruct (get_centroid_is_Some _ H1) as [c1 Hc1].
  destruct (get_centroid_is_Some _ H2) as [c2 Hc2].
  eexists _, _, c1, c2.
  split; [by apply (measured_object_two _ e1 e2 c1 c2)|].
  split; [by apply (measured_object_two _ e2 e1 c2 c1)|].
  split; [done|]. split; [done|].
  pose proof (sorted_centroids_swap c1 c2) as Hsw.
  destruct (c1.1 <=? c2.1), (c2.1 <=? c1.1); simpl in *;
    destruct Hsw as [Hd Hlr]; (split; [congruence|]);
    intros Hne; destruct (Hlr Hne) as [El Er]; split; congruence.
Qed.

Lemma eye_order_irrelevant_witness :
  ∃ o o' c1 c2,
    measured_object (set_eyes [square 70 50 5; square 50 50 4] Demo.left_cat)
    = Some o ∧
    measured_object (set_eyes [square 50 50 4; square 70 50 5] Demo.left_cat)
    = Some o' ∧
    _get_centroid (square 70 50 5) = Some c1 ∧
    _get_centroid (square 50 50 4) = Some c2 ∧
    eyes_dist o = eyes_dist o' ∧
    (c1.1 ≠ c2.1 →
     eye_L_center o = eye_L_center o' ∧ eye_R_center o = eye_R_center o').
Proof.
  apply (eye_order_irrelevant Demo.left_cat (square 70 50 5) (square 50 50 4)).
  - by_decide.
  - by_decide.
Defined.

End MeasurementMore.

(** ** The centroid as a function of the polygon *)

Module CentroidFacts.
Import Measurement Polygon MeasurementFacts.

Lemma sum_Z_app (l k : list Z) : sum_Z (l ++ k) = sum_Z l + sum_Z k.
Proof.
  induction l as [|x l IH]; simpl; [done|]. rewrite IH. lia.
Qed.

Lemma sum_Z_perm (l k : list Z) : l ≡ₚ k → sum_Z l = sum_Z k.
Proof.
  induction 1 as [|x l k _ IH|x y l|l k m _ IH1 _ IH2]; simpl in *; lia.
Qed.

Lemma sum_Z_reverse (l : list Z) : sum_Z (reverse l) = sum_Z l.
Proof.
  induction l as [|x l IH]; [done|].
  rewrite reverse_cons, sum_Z_app, IH. simpl. lia.
Qed.

Lemma sum_Z_opp {A : Type} (g : A → Z) (l : list A) :
  sum_Z ((λ e, - g e) <$> l) = - sum_Z (g <$> l).
Proof.
  induction l as [|x l IH]; [done|]. rewrite !fmap_cons.
  unfold sum_Z in *. cbn [foldr]. rewrite IH. lia.
Qed.

Lemma edges_from_snoc (prev q : Point) (l : list Point) :
  edges_from prev (l ++ [q])
  = edges_from prev l ++ [(default prev (last l), q)].
Proof.
  revert prev. induction l as [|p l IH]; intros prev; [done|].
  cbn [app edges_from]. rewrite IH. do 3 f_equal.
  rewrite last_cons. by destruct (last l).
Qed.

(** The edges of a walk taken backwards are the edges of the walk, each
    turned round, up to the two edges that tie the walk to its ends. *)
Lemma edges_sum_reverse (f : Point * Point → Z) (l : list Point)
    (x a b : Point) :
  sum_Z (f <$> edges_from a (reverse (x :: l))) + f (x, b)
  = sum_Z ((λ e, f (e.2, e.1)) <$> edges_from b (x :: l))
    + f (a, default x (last l)).
Proof.
  revert x b. induction l as [|y l IH]; intros x b.
  { simpl. lia. }
  rewrite (reverse_cons (y :: l) x), edges_from_snoc, last_reverse.
  rewrite fmap_app, sum_Z_app. cbn [head default fmap list_fmap sum_Z foldr].
  specialize (IH y x). cbn [edges_from] in *. rewrite !fmap_cons in *.
  cbn [sum_Z foldr fst snd] in *.
  replace (default x (last (y :: l))) with (default y (last l))
    by (rewrite last_cons; by destruct (last l)).
  change (id y) with y. lia.
Qed.

Lemma polygon_sum_reverse (f : Point * Point → Z) (pts : Contour) :
  sum_Z (f <$> polygon_edges (reverse pts))
  = sum_Z ((λ e, f (e.2, e.1)) <$> polygon_edges pts).
Proof.
  destruct pts as [|x l]; [done|]. unfold polygon_edges.
  rewrite last_reverse. cbn [head].
  replace (last (x :: l)) with (Some (default x (last l)))
    by (rewrite last_cons; by destruct (last l)).
  pose proof (edges_sum_reverse f l x x (default x (last l))). lia.
Qed.

Lemma reverse_sums (pts : Contour) :
  twice_area (reverse pts) = - twice_area pts ∧
  moment_x (reverse pts) = - moment_x pts ∧
  moment_y (reverse pts) = - moment_y pts.
Proof.
  unfold twice_area, moment_x, moment_y.
  rewrite !polygon_sum_reverse, <- !sum_Z_opp. split_and!; f_equal;
    apply list_fmap_ext; intros i [[x1 y1] [x2 y2]] _; unfold cross; simpl;
    ring.
Qed.

Lemma polygon_sum_rotate (f : Point * Point → Z) (x : Point)
    (l : list Point) :
  sum_Z (f <$> polygon_edges (l ++ [x]))
  = sum_Z (f <$> polygon_edges (x :: l)).
Proof.
  unfold polygon_edges. rewrite last_snoc, last_cons, edges_from_snoc.
  rewrite fmap_app, sum_Z_app.
  destruct (last l) as [t|]; cbn [default from_option edges_from];
    rewrite fmap_cons; unfold sum_Z; cbn [foldr fmap list_fmap id];
    lia.
Qed.

Lemma get_centroid_sums (pts pts' : Contour) :
  twice_area pts' = twice_area pts →
  moment_x pts' = moment_x pts →
  moment_y pts' = moment_y pts →
  pts' ≡ₚ pts →
  _get_centroid pts' = _get_centroid pts.
Proof.
  intros Ha Hx Hy Hp.
  destruct (decide (twice_area pts = 0)) as [Hz|Hnz].
  - rewrite !get_centroid_zero by lia.
    destruct pts as [|p l].
    { apply Permutation_nil_r in Hp. by subst. }
    assert (pts' ≠ []) as Hne.
    { intros ->. by apply Permutation_nil_l in Hp. }
    rewrite !mean_point_nonempty by done.
    assert (∀ g : Point → Z, sum_Z (g <$> pts') = sum_Z (g <$> p :: l)) as Hs.
    { intros g. apply sum_Z_perm. by apply fmap_Permutation. }
    by rewrite !Hs, (Permutation_length Hp).
  - rewrite !get_centroid_nonzero by lia. by rewrite Ha, Hx, Hy.
Qed.

Lemma get_centroid_rotate_one (x : Point) (l : list Point) :
  _get_centroid (l ++ [x]) = _get_centroid (x :: l).
Proof.
  apply get_centroid_sums;
    [apply polygon_sum_rotate..|].
  by rewrite Permutation_app_comm.
Qed.

Lemma get_centroid_rotate (l1 l2 : list Point) :
  _get_centroid (l2 ++ l1) = _get_centroid (l1 ++ l2).
Proof.
  revert l2. induction l1 as [|x l1 IH]; intros l2.
  { by rewrite app_nil_r. }
  rewrite (cons_middle x l2 l1), app_assoc, IH, app_assoc.
  by rewrite get_centroid_rotate_one.
Qed.

Lemma get_centroid_reverse (pts : Contour) :
  _get_centroid (reverse pts) = _get_centroid pts.
Proof.
  destruct (reverse_sums pts) as (Ha & Hx & Hy).
  destruct (decide (twice_area pts = 0)) as [Hz|Hnz].
  - rewrite !get_centroid_zero by lia.
    destruct pts as [|p l]; [done|].
    rewrite !mean_point_nonempty; [| done |].
    2:{ rewrite reverse_cons. by destruct (reverse l). }
    by rewrite !fmap_reverse, !sum_Z_reverse, length_reverse.
  - rewrite !get_centroid_nonzero by lia. rewrite Ha, Hx, Hy.
    rewrite !Z.mul_opp_r, !Z.quot_opp_opp by lia. done.
Qed.

(** Property X9.  The centroid of a contour depends neither on the point
    at which the contour starts nor on the direction in which it is walked:
    a contour, the same contour started elsewhere and the same contour
    reversed have the same centroid (or none, when empty). *)
Theorem centroid_ignores_start_and_direction (l1 l2 : list Point) :
  _get_centroid (l2 ++ l1) = _get_centroid (l1 ++ l2) ∧
  _get_centroid (reverse (l1 ++ l2)) = _get_centroid (l1 ++ l2).
Proof. split; [apply get_centroid_rotate|apply get_centroid_reverse]. Qed.

End CentroidFacts.

(** ** What a refinement run changes *)

Module RefinerMore.
Import Measurement MeasurementFacts Refiner RefinerFacts Invariants.

Lemma refined_refl (obj : ObjectRecord) : refined obj obj.
Proof. by left. Qed.

Lemma refined_trans (a b c : ObjectRecord) :
  refined a b → refined b c → refined a c.
Proof.
  intros [->|(m & Ha & ->)]; [done|].
  intros [->|(m' & _ & ->)].
  - right. eauto.
  - right. exists m'. split; [done|]. by destruct a.
Qed.

Lemma refined_entry_refl (e : string * AnnotationRecord) : refined_entry e e.
Proof.
  unfold refined_entry. split_and!; try done.
  apply Forall_Forall2_diag, Forall_forall. intros obj _. apply refined_refl.
Qed.

Lemma refined_entry_trans (a b c : string * AnnotationRecord) :
  refined_entry a b → refined_entry b c → refined_entry a c.
Proof.
  intros (H1 & H2 & H3 & H4 & H5 & H6) (G1 & G2 & G3 & G4 & G5 & G6).
  unfold refined_entry. split_and!; try congruence.
  eapply Forall2_trans; [apply refined_trans|exact H6|exact G6].
Qed.






Lemma call_positions_app (l1 l2 : list Event) :
  call_positions (l1 ++ l2) = call_positions l1 ++ call_positions l2.
Proof. apply omap_app. Qed.

Lemma call_positions_image (k : nat) (l : list Event) :
  Forall (λ e, ∃ j reply, e = DetectorCall k j reply) l →
  call_positions l = pair k <$> (event_object <$> l).
Proof.
  induction 1 as [|e l (j & reply & ->) _ IH]; [done|].
  change (call_positions (DetectorCall k j reply :: l))
    with ((k, j) :: call_positions l).
  by rewrite IH.
Qed.

Lemma elem_of_call_positions (l : list Event) (k j : nat) :
  (k, j) ∈ call_positions l → ∃ e, e ∈ l ∧ event_image e = k.
Proof.
  unfold call_positions. rewrite list_elem_of_omap.
  intros ([k' j' reply|] & He & Hp); simplify_eq. eauto.
Qed.



Section RunMore.
Variable covers : Contour → nat → nat → bool.
Variable World : Type.
Variable sam3 : World → Image → Reply * World.
Variable waitKey : World → Z * World.
Variable imread : string → option Image.
Variable show : bool.

Lemma refine_object_more (img : Image) (k : nat) (lp : Loop World) (i : nat) :
  let res := refine_object covers sam3 img k lp i in
  Forall2 refined (all_objects lp) (all_objects (final res)) ∧
  ∃ new, loop_events (final res) = loop_events lp ++ new ∧
         (new = [] ∨ ∃ reply, new = [DetectorCall k i reply]).
Proof.
  assert (Forall2 refined (all_objects lp) (all_objects lp)) as Hrefl.
  { apply Forall_Forall2_diag, Forall_forall. intros obj _.
    apply refined_refl. }
  unfold refine_object.
  destruct (all_objects lp !! i) as [obj|] eqn:Hobj.
  2:{ simpl. split; [done|]. exists []. rewrite app_nil_r. auto. }
  destruct (has_eyes obj) eqn:Heyes.
  { simpl. split; [done|]. exists []. rewrite app_nil_r. auto. }
  destruct (sam3 _ _) as [reply w]. destruct lp as [objs w0 evs md].
  simpl in *.
  destruct reply as [masks| |]; simpl; (split; [|eauto]); try done.
  rewrite <- (list_insert_id objs i obj Hobj) at 1.
  apply Forall2_insert; [done|]. right. eauto.
Qed.

Lemma refine_objects_more (img : Image) (k : nat) (indices : list nat)
    (lp : Loop World) :
  let res := refine_objects covers sam3 img k indices lp in
  Forall2 refined (all_objects lp) (all_objects (final res)) ∧
  ∃ new, loop_events (final res) = loop_events lp ++ new ∧
         Forall (λ e, ∃ j reply, e = DetectorCall k j reply) new ∧
         (event_object <$> new) `sublist_of` indices.
Proof.
  revert lp. induction indices as [|i rest IH]; intros lp; simpl.
  { split.
    - apply Forall_Forall2_diag, Forall_forall. intros obj _.
      apply refined_refl.
    - exists []. rewrite app_nil_r. split_and!; try done. }
  destruct (refine_object_more img k lp i) as (Hr & new & Hev & Hnew).
  destruct (refine_object covers sam3 img k lp i) as [[exn lp']|lp'] eqn:Hone;
    simpl in *.
  - split; [done|]. exists new. split; [done|].
    destruct Hnew as [->|[reply ->]].
    + split; [constructor|]. apply sublist_nil_l.
    + split; [repeat constructor; eauto|]. simpl.
      apply sublist_skip, sublist_nil_l.
  - destruct (IH lp') as (Hr' & new' & Hev' & Hcalls & Hsub).
    split.
    { eapply Forall2_trans; [apply refined_trans|exact Hr|exact Hr']. }
    exists (new ++ new'). rewrite Hev', Hev, app_assoc. split; [done|].
    destruct Hnew as [->|[reply ->]]; simpl.
    + split; [done|]. by apply sublist_cons.
    + split; [constructor; eauto|]. by apply sublist_skip.
Qed.

Lemma refine_image_more (st : State World) (k : nat) :
  let res := refine_image covers sam3 waitKey imread show st k in
  Forall2 refined_entry (data st) (data res.2) ∧
  (∀ name record, data st !! k = Some (name, record) →
                  imread name = None → res = (Continue, st)) ∧
  (∀ k' entry, data st !! k' = Some entry → imread entry.1 = None →
               data res.2 !! k' = Some entry) ∧
  ∃ new, events res.2 = events st ++ new ∧
         Forall (λ e, event_image e = k) new ∧
         NoDup (call_positions new).
Proof.
  assert (Forall2 refined_entry (data st) (data st)) as Hrefl.
  { apply Forall_Forall2_diag, Forall_forall. intros e _.
    apply refined_entry_refl. }
  unfold refine_image.
  destruct (data st !! k) as [[name record]|] eqn:Hk.
  2:{ simpl. split_and!; try done. exists []. rewrite app_nil_r.
      split_and!; try done; constructor. }
  destruct (imread name) as [img|] eqn:Himg.
  2:{ simpl. split_and!; try done. exists []. rewrite app_nil_r.
      split_and!; try done; constructor. }
  set (lp0 := mkLoop (objects record) (world st) (events st) false).
  destruct (refine_objects_more img k (seq 0 (length (objects record))) lp0)
    as (Hr & new & Hev & Hcalls & Hsub).
  assert (∀ lp : Loop World,
            Forall2 refined (objects record) (all_objects lp) →
            Forall2 refined_entry (data st)
              (<[k := (name, set_objects (all_objects lp) record)]> (data st)))
    as Hstore.
  { intros lp Hlp. rewrite <- (list_insert_id (data st) k _ Hk) at 1.
    apply Forall2_insert; [done|]. unfold refined_entry. by split_and!. }
  assert (∀ objs k' entry,
            data st !! k' = Some entry → imread entry.1 = None →
            <[k := (name, set_objects objs record)]> (data st) !! k'
            = Some entry) as Hkeep.
  { intros objs k' entry Hk' Hnone. destruct (decide (k' = k)) as [->|Hne].
    - rewrite Hk in Hk'. injection Hk' as <-. simpl in Hnone. congruence.
    - by rewrite list_lookup_insert_ne. }
  assert (Forall (λ e, event_image e = k) new) as Himg_new.
  { eapply Forall_impl; [exact Hcalls|]. by intros e (j & reply & ->). }
  assert (NoDup (call_positions new)) as Hnd.
  { rewrite (call_positions_image k) by done.
    apply (NoDup_fmap_2 _). eapply sublist_NoDup; [|exact Hsub].
    apply NoDup_seq. }
  destruct (refine_objects covers sam3 img k _ lp0) as [[exn lp]|lp] eqn:Hloop;
    simpl in *.
  { split_and!; [by apply Hstore| intros ? ? [= <- <-]; congruence
                |apply Hkeep|].
    exists new. by split_and!. }
  destruct (is_modified lp && show) eqn:Hshow; simpl.
  2:{ split_and!; [by apply Hstore| intros ? ? [= <- <-]; congruence
                  |apply Hkeep|].
      exists new. by split_and!. }
  destruct (waitKey (loop_world lp)) as [key w].
  assert (Forall (λ e, event_image e = k) (new ++ [KeyPress k key])) as Hi2.
  { apply Forall_app. split; [done|]. by repeat constructor. }
  assert (NoDup (call_positions (new ++ [KeyPress k key]))) as Hnd2.
  { rewrite call_positions_app. simpl. by rewrite app_nil_r. }
  destruct (key =? 27); simpl;
    (split_and!; [by apply Hstore| intros ? ? [= <- <-]; congruence
                 |apply Hkeep|]);
    exists (new ++ [KeyPress k key]); rewrite Hev, app_assoc; by split_and!.
Qed.

Lemma refine_images_more (positions : list nat) (st : State World) :
  let res := refine_images covers sam3 waitKey imread show positions st in
  Forall2 refined_entry (data st) (data res.2) ∧
  (∀ k entry, data st !! k = Some entry → imread entry.1 = None →
              data res.2 !! k = Some entry) ∧
  ∃ new, events res.2 = events st ++ new ∧
         Forall (λ e, event_image e ∈ positions ∧
                      ∀ entry, data st !! event_image e = Some entry →
                               is_Some (imread entry.1)) new ∧
         (NoDup positions → NoDup (call_positions new)).
Proof.
  revert st. induction positions as [|i rest IH]; intros st; simpl.
  { split; [|split; [done|]].
    - apply Forall_Forall2_diag, Forall_forall. intros e _.
      apply refined_entry_refl.
    - exists []. rewrite app_nil_r. split_and!; try done. constructor. }
  destruct (refine_image_more st i)
    as (Hr & Hun & Hkeep & new & Hev & Himg & Hnd).
  assert (Forall (λ e, event_image e ∈ i :: rest ∧
                       ∀ entry, data st !! event_image e = Some entry →
                                is_Some (imread entry.1)) new) as Hnew.
  { apply Forall_forall. intros e He.
    pose proof (proj1 (Forall_forall _ _) Himg e He) as Hi. rewrite Hi.
    split; [left|]. intros [name record] Hk. simpl.
    destruct (imread name) eqn:Hread; [eauto|].
    specialize (Hun _ _ Hk Hread). rewrite Hun in Hev. simpl in Hev.
    assert (new = []) as ->.
    { apply (app_inv_head (events st)). by rewrite app_nil_r. }
    by apply elem_of_nil in He. }
  destruct (refine_image covers sam3 waitKey imread show st i)
    as [flow st'] eqn:Hone; simpl in *.
  destruct flow as [| |exn]; simpl.
  2,3: split; [done|]; split; [done|]; exists new; split_and!; done.
  destruct (IH st') as (Hr' & Hkeep' & new' & Hev' & Himg' & Hnd').
  split.
  { eapply Forall2_trans; [apply refined_entry_trans|exact Hr|exact Hr']. }
  split; [by eauto|].
  exists (new ++ new'). rewrite Hev', Hev, app_assoc. split; [done|]. split.
  - apply Forall_app. split; [done|].
    eapply Forall_impl; [exact Himg'|]. intros e [Hin Hread].
    split; [by right|]. intros entry Hk.
    destruct (Forall2_lookup_l _ _ _ _ _ Hr Hk) as (entry' & Hk' & Hn & _).
    rewrite <- Hn. by apply Hread.
  - intros Hnd0. apply NoDup_cons in Hnd0 as [Hi Hrest].
    rewrite call_positions_app. apply NoDup_app. split; [done|].
    split; [|by apply Hnd'].
    intros [k j] (e & He & Hk)%elem_of_call_positions
                 (e' & He' & Hk')%elem_of_call_positions.
    pose proof (proj1 (Forall_forall _ _) Himg e He) as H1.
    pose proof (proj1 (Forall_forall _ _) Himg' e' He') as [H2 _].
    apply Hi. congruence.
Qed.




(** Property X12.  Within one run no object is submitted to the detector
    twice: the positions (image, object) of the detector calls of the run
    are pairwise distinct. *)
Theorem one_call_per_object (st : State World) :
  let st' := (run covers sam3 waitKey imread show st).2 in
  ∃ new, events st' = events st ++ new ∧ NoDup (call_positions new).
Proof.
  unfold run.
  destruct (refine_images_more (seq 0 (length (data st))) st)
    as (_ & _ & new & Hev & _ & Hnd).
  destruct (refine_images _ _ _ _ _ _ st) as [raised st']. simpl in *.
  exists new. split; [done|]. apply Hnd, NoDup_seq.
Qed.


End RunMore.



End RefinerMore.

(** ** What an uninterrupted run completes *)

Module RefinerComplete.
Import Measurement MeasurementFacts Refiner RefinerFacts Invariants RefinerMore.


Section RunComplete.
Variable covers : Contour → nat → nat → bool.
Variable World : Type.
Variable sam3 : World → Image → Reply * World.
Variable waitKey : World → Z * World.
Variable imread : string → option Image.
Variable show : bool.






End RunComplete.


End RefinerComplete.

(** ** The operator's signal while a sibling is masked *)

Module SignalsFacts.
Import Refiner.

Section Quiet.
Variable covers : Contour → nat → nat → bool.
Variable World : Type.
Variable sam3 : World → Image → Reply * World.
Variable waitKey : World → Z * World.
Variable imread : string → option Image.
Variable show : bool.
Variable signal : World → Signals.Delivery * World.
Variable destroyAllWindows : World → option Exn * World.

(** No signal arrives while a sibling is masked, and the windows close. *)
Hypothesis signal_quiet : ∀ w, signal w = (Signals.NoSignal, w).
Hypothesis windows_close : ∀ w, destroyAllWindows w = (None, w).

Lemma ran_app (l1 l2 : list Signals.Event) :
  Signals.ran (l1 ++ l2) = Signals.ran l1 ++ Signals.ran l2.
Proof. apply omap_app. Qed.

Lemma mask_siblings_quiet (k i : nat) (l : list (nat * ObjectRecord))
    (img : Image) (w : World) (evs : list Signals.Event) :
  foldl (Signals.mask_sibling covers signal k i) (img, w, evs) l
  = (foldl (mask_sibling covers i) img l, w, evs).
Proof.
  revert img. induction l as [|[j o] l IH]; intros img; [done|].
  cbn [foldl]. rewrite <- IH. f_equal.
  unfold Signals.mask_sibling, mask_sibling.
  destruct (decide (j = i)); [done|].
  destruct (segmentation o) as [[pts|]|]; try done.
  by rewrite signal_quiet.
Qed.

Lemma refine_object_quiet (img : Image) (k : nat) (lp : Signals.Loop World)
    (i : nat) :
  Refiner.refine_object covers sam3 img k (Signals.plain_loop lp) i
  = match Signals.refine_object covers sam3 signal img k lp i with
    | inl (e, lp') => inl (e, Signals.plain_loop lp')
    | inr lp' => inr (Signals.plain_loop lp')
    end.
Proof.
  unfold Refiner.refine_object, Signals.refine_object.
  destruct lp as [objs w evs md]. cbn [Signals.plain_loop Refiner.all_objects
    Signals.all_objects Refiner.loop_world Signals.loop_world
    Refiner.loop_events Signals.loop_events Refiner.is_modified
    Signals.is_modified].
  destruct (objs !! i) as [obj|]; [|done].
  destruct (has_eyes obj); [done|].
  unfold Signals.mask_siblings. rewrite mask_siblings_quiet.
  unfold masked_input, mask_siblings.
  destruct (sam3 w _) as [reply w'].
  destruct reply; unfold Signals.plain_loop;
    cbn [Signals.all_objects Signals.loop_world Signals.loop_events
         Signals.is_modified]; by rewrite ran_app.
Qed.

Lemma refine_objects_quiet (img : Image) (k : nat) (indices : list nat)
    (lp : Signals.Loop World) :
  Refiner.refine_objects covers sam3 img k indices (Signals.plain_loop lp)
  = match Signals.refine_objects covers sam3 signal img k indices lp with
    | inl (e, lp') => inl (e, Signals.plain_loop lp')
    | inr lp' => inr (Signals.plain_loop lp')
    end.
Proof.
  revert lp. induction indices as [|i rest IH]; intros lp; [done|].
  cbn [Refiner.refine_objects Signals.refine_objects].
  rewrite refine_object_quiet.
  destruct (Signals.refine_object covers sam3 signal img k lp i)
    as [[e lp']|lp']; [done|]. apply IH.
Qed.

Lemma refine_image_quiet (st : Signals.State World) (k : nat) :
  Refiner.refine_image covers sam3 waitKey imread show (Signals.plain st) k
  = let res := Signals.refine_image covers sam3 waitKey imread show signal
                 st k in
    (res.1, Signals.plain res.2).
Proof.
  unfold Refiner.refine_image, Signals.refine_image.
  destruct st as [d w evs dk]. cbn [Signals.plain Refiner.data Signals.data
    Refiner.world Signals.world Refiner.events Signals.events
    Refiner.disk Signals.disk].
  destruct (d !! k) as [[name record]|]; [|done].
  destruct (imread name) as [img|]; [|done].
  change (Refiner.mkLoop (objects record) w (Signals.ran evs) false)
    with (Signals.plain_loop (Signals.mkLoop (objects record) w evs false)).
  rewrite refine_objects_quiet.
  destruct (Signals.refine_objects covers sam3 signal img k _ _)
    as [[e lp]|lp]; [done|].
  destruct lp as [objs w1 evs1 md].
  cbn [Signals.plain_loop Signals.all_objects Signals.loop_world
       Signals.loop_events Signals.is_modified Refiner.is_modified
       Refiner.store_objects Signals.store_objects Refiner.world
       Signals.world Refiner.data Signals.data Refiner.events Signals.events
       Refiner.disk Signals.disk Refiner.all_objects Refiner.loop_world
       Refiner.loop_events].
  destruct (md && show); [|done].
  destruct (waitKey w1) as [key w2].
  destruct (key =? 27); unfold Signals.plain;
    cbn [fst snd Signals.data Signals.world Signals.events Signals.disk];
    by rewrite ran_app.
Qed.

Lemma refine_images_quiet (positions : list nat) (st : Signals.State World) :
  Refiner.refine_images covers sam3 waitKey imread show positions (Signals.plain st)
  = let res := Signals.refine_images covers sam3 waitKey imread show signal
                 positions st in
    (res.1, Signals.plain res.2).
Proof.
  revert st. induction positions as [|k rest IH]; intros st; [done|].
  cbn [Refiner.refine_images Signals.refine_images].
  rewrite refine_image_quiet. cbn zeta.
  destruct (Signals.refine_image covers sam3 waitKey imread show signal st k)
    as [[| |e] st']; cbn [fst snd]; [|done..]. apply IH.
Qed.

(** [Refiner.run] is the run in which no signal arrives while a sibling
    is masked and the windows close. *)
Lemma run_quiet (st : Signals.State World) :
  Refiner.run covers sam3 waitKey imread show (Signals.plain st)
  = let res := Signals.run covers sam3 waitKey imread show signal
                 destroyAllWindows st in
    (res.1, Signals.plain res.2).
Proof.
  unfold Refiner.run, Signals.run.
  change (Refiner.data (Signals.plain st)) with (Signals.data st).
  rewrite refine_images_quiet. cbn zeta.
  destruct (Signals.refine_images covers sam3 waitKey imread show signal _ st)
    as [raised st']. cbn [fst snd].
  destruct show.
  - rewrite windows_close. by destruct st'.
  - done.
Qed.

End Quiet.

Lemma answered_app (l1 l2 : list Signals.Event) :
  Signals.answered l1 → Signals.answered l2 → Signals.answered (l1 ++ l2).
Proof.
  intros H1 H2. induction l1 as [|[e|k i j] l1 IH]; simpl in *; [done|by auto|].
  destruct H1 as [(reply & Hin) H1]. split; [|by auto].
  exists reply. apply elem_of_app. by left.
Qed.

Lemma answered_call (k i : nat) (sw : list Signals.Event) (reply : Reply) :
  Forall (λ e, ∃ j, e = Signals.Swallowed k i j) sw →
  Signals.answered (sw ++ [Signals.Ran (DetectorCall k i reply)]).
Proof.
  induction 1 as [|e sw (j & ->) _ IH]; simpl; [done|].
  split; [|done]. exists reply. apply elem_of_app. right.
  by apply list_elem_of_singleton.
Qed.

Section Events.
Variable covers : Contour → nat → nat → bool.
Variable World : Type.
Variable sam3 : World → Image → Reply * World.
Variable waitKey : World → Z * World.
Variable imread : string → option Image.
Variable show : bool.
Variable signal : World → Signals.Delivery * World.
Variable destroyAllWindows : World → option Exn * World.

Lemma mask_siblings_events (k i : nat) (l : list (nat * ObjectRecord))
    (img : Image) (w : World) (evs : list Signals.Event) :
  ∃ sw, (foldl (Signals.mask_sibling covers signal k i) (img, w, evs) l).2
        = evs ++ sw ∧
        Forall (λ e, ∃ j, e = Signals.Swallowed k i j) sw.
Proof.
  revert img w evs. induction l as [|[j o] l IH]; intros img w evs.
  { exists []. by rewrite app_nil_r. }
  cbn [foldl].
  assert (∃ img' w' sw,
            Signals.mask_sibling covers signal k i (img, w, evs) (j, o)
            = (img', w', evs ++ sw) ∧
            Forall (λ e, ∃ j, e = Signals.Swallowed k i j) sw)
    as (img' & w' & sw & -> & Hsw).
  { unfold Signals.mask_sibling.
    destruct (decide (j = i));
      [exists img, w, []; by rewrite app_nil_r|].
    destruct (segmentation o) as [[pts|]|];
      try (exists img, w, []; by rewrite app_nil_r).
    destruct (signal w) as [[| |] w'].
    - eexists _, w', []. by rewrite app_nil_r.
    - eexists _, w', [_]. split; [done|]. repeat constructor. eauto.
    - eexists _, w', [_]. split; [done|]. repeat constructor. eauto. }
  destruct (IH img' w' (evs ++ sw)) as (sw' & -> & Hsw').
  exists (sw ++ sw'). rewrite app_assoc. split; [done|].
  by apply Forall_app.
Qed.

Lemma refine_object_events (img : Image) (k : nat) (lp : Signals.Loop World)
    (i : nat) :
  ∃ new, Signals.loop_events
           (Signals.final (Signals.refine_object covers sam3 signal img k lp i))
         = Signals.loop_events lp ++ new ∧ Signals.answered new.
Proof.
  unfold Signals.refine_object.
  destruct (Signals.all_objects lp !! i) as [obj|];
    [|exists []; by rewrite app_nil_r].
  destruct (has_eyes obj); [exists []; by rewrite app_nil_r|].
  unfold Signals.mask_siblings.
  destruct (mask_siblings_events k i (imap pair (Signals.all_objects lp)) img
              (Signals.loop_world lp) (Signals.loop_events lp))
    as (sw & Hsw & Hall).
  destruct (foldl _ _ _) as [[clean w0] evs0]. simpl in Hsw. subst evs0.
  destruct (sam3 w0 _) as [reply w].
  exists (sw ++ [Signals.Ran (DetectorCall k i reply)]).
  split; [|by apply answered_call].
  destruct reply; simpl; by rewrite app_assoc.
Qed.

Lemma refine_objects_events (img : Image) (k : nat) (indices : list nat)
    (lp : Signals.Loop World) :
  ∃ new, Signals.loop_events
           (Signals.final (Signals.refine_objects covers sam3 signal img k indices lp))
         = Signals.loop_events lp ++ new ∧ Signals.answered new.
Proof.
  revert lp. induction indices as [|i rest IH]; intros lp; simpl.
  { exists []. by rewrite app_nil_r. }
  destruct (refine_object_events img k lp i) as (new & Hev & Hans).
  destruct (Signals.refine_object covers sam3 signal img k lp i)
    as [[e lp']|lp']; simpl in *; [by eauto|].
  destruct (IH lp') as (new' & Hev' & Hans').
  exists (new ++ new'). rewrite Hev', Hev, app_assoc. split; [done|].
  by apply answered_app.
Qed.

Lemma refine_image_events (st : Signals.State World) (k : nat) :
  ∃ new, Signals.events
           (Signals.refine_image covers sam3 waitKey imread show signal st k).2
         = Signals.events st ++ new ∧ Signals.answered new.
Proof.
  unfold Signals.refine_image.
  destruct (Signals.data st !! k) as [[name record]|];
    [|exists []; by rewrite app_nil_r].
  destruct (imread name) as [img|]; [|exists []; by rewrite app_nil_r].
  destruct (refine_objects_events img k (seq 0 (length (objects record)))
              (Signals.mkLoop (objects record) (Signals.world st)
                 (Signals.events st) false)) as (new & Hev & Hans).
  destruct (Signals.refine_objects covers sam3 signal img k _ _)
    as [[e lp]|lp]; simpl in *; [by eauto|].
  destruct (Signals.is_modified lp && show); simpl; [|by eauto].
  destruct (waitKey (Signals.loop_world lp)) as [key w].
  exists (new ++ [Signals.Ran (KeyPress k key)]).
  split; [|by apply answered_app].
  destruct (key =? 27); simpl; by rewrite Hev, app_assoc.
Qed.

Lemma refine_images_events (positions : list nat) (st : Signals.State World) :
  ∃ new, Signals.events
           (Signals.refine_images covers sam3 waitKey imread show signal
              positions st).2
         = Signals.events st ++ new ∧ Signals.answered new.
Proof.
  revert st. induction positions as [|k rest IH]; intros st; simpl.
  { exists []. by rewrite app_nil_r. }
  destruct (refine_image_events st k) as (new & Hev & Hans).
  destruct (Signals.refine_image covers sam3 waitKey imread show signal st k)
    as [[| |e] st']; simpl in *; [|by eauto..].
  destruct (IH st') as (new' & Hev' & Hans').
  exists (new ++ new'). rewrite Hev', Hev, app_assoc. split; [done|].
  by apply answered_app.
Qed.

(** No signal that arrives while a sibling is masked stops the run: each
    is followed by the detector call it arrived before. *)
Lemma run_answers_every_signal (st : Signals.State World) :
  ∃ new, Signals.events
           (Signals.run covers sam3 waitKey imread show signal
              destroyAllWindows st).2
         = Signals.events st ++ new ∧ Signals.answered new.
Proof.
  unfold Signals.run.
  destruct (refine_images_events (seq 0 (length (Signals.data st))) st)
    as (new & Hev & Hans).
  destruct (Signals.refine_images covers sam3 waitKey imread show signal _ st)
    as [raised st']. simpl in Hev.
  exists new. split; [|done].
  destruct show; [|done].
  destruct (destroyAllWindows (Signals.world st')) as [[e|] w]; done.
Qed.

(** Without the windows the run always saves. *)
Lemma run_saves_without_windows (st : Signals.State World) :
  show = false →
  let res := Signals.run covers sam3 waitKey imread show signal
               destroyAllWindows st in
  Signals.disk res.2 = Signals.data res.2.
Proof.
  intros ->. unfold Signals.run.
  by destruct (Signals.refine_images covers sam3 waitKey imread false signal
                 _ st) as [raised st'].
Qed.

End Events.

(** Claim C9, where the code departs from it.  A signal that arrives
    while a sibling is masked never stops the run: in every run each such
    signal is followed by the detector call it arrived before.  So with
    the detection stage's document, a detector that finds a pupil at every
    call, and the operator's signal arriving while the sibling of the
    first object is masked, [run] goes on to call the detector for that
    object and for every object after it, and ends as an uninterrupted run
    does.  And with the windows shown, a run interrupted during its second
    detector call whose window closing is cut short by a second signal
    leaves [run] with the exception and the file as it was: the result of
    the first call is in the document and not in the file. *)
Theorem signal_while_masking_is_discarded :
  (∀ (covers : Contour → nat → nat → bool) (World : Type)
     (sam3 : World → Image → Reply * World) (waitKey : World → Z * World)
     (imread : string → option Image) (show : bool)
     (signal : World → Signals.Delivery * World)
     (destroyAllWindows : World → option Exn * World)
     (st : Signals.State World),
     ∃ new, Signals.events
              (Signals.run covers sam3 waitKey imread show signal
                 destroyAllWindows st).2
            = Signals.events st ++ new ∧ Signals.answered new) ∧
  (let res := Signals.run Demo.box_raster Demo.sam3_always Demo.no_key
                Demo.read_picture false Scenario.signal_at_start
                Scenario.windows_close Scenario.signal_start in
   res.1 = None ∧
   Signals.events res.2
   = [Signals.Swallowed 0 0 1;
      Signals.Ran (DetectorCall 0 0 (Masks [[Demo.pupil]]));
      Signals.Ran (DetectorCall 0 1 (Masks [[Demo.pupil]]));
      Signals.Ran (DetectorCall 1 0 (Masks [[Demo.pupil]]))] ∧
   Signals.calls_after_signal (Signals.events res.2)
   = [(0, 0); (0, 1); (1, 0)]%nat ∧
   Signals.disk res.2 = Signals.data res.2) ∧
  (let res := Signals.run Demo.box_raster Demo.sam3_interrupted Demo.no_key
                Demo.read_picture true Scenario.no_signal
                Scenario.windows_interrupted Scenario.signal_start in
   res.1 = Some KeyboardInterrupt ∧
   eyes <$> object_at (Signals.data res.2) 0 0 = Some (Some [Demo.pupil]) ∧
   eyes <$> object_at (Signals.disk res.2) 0 0 = None ∧
   Signals.disk res.2 = Signals.disk Scenario.signal_start).
Proof.
  split; [|split].
  - intros. apply run_answers_every_signal.
  - vm_compute. split_and!; reflexivity.
  - vm_compute. split_and!; reflexivity.
Qed.

End SignalsFacts.

(** ** The target's own region *)

Module MaskingMore.
Import MaskingFacts.

(** Property X14.  In the image handed to the refinement detector, a
    pixel inside the target's bounding box that no other object's outline
    covers has the colour it has in the base image; an object whose
    outline is missing or does not decode covers nothing.  The near
    corner of the box is not negative. *)
Theorem target_region_is_kept (covers : Contour → nat → nat → bool)
    (img_bgr : Image) (all_objects : list ObjectRecord) (obj_index : nat)
    (obj : ObjectRecord) (x1 y1 x2 y2 : Z) (x y : nat) :
  bbox obj = (x1, y1, x2, y2) →
  0 ≤ x1 → 0 ≤ y1 →
  x1 ≤ Z.of_nat x < x2 → y1 ≤ Z.of_nat y < y2 →
  (∀ j other pts, j ≠ obj_index → all_objects !! j = Some other →
     segmentation other = Some (SegPoints pts) → covers pts x y = false) →
  pixel (masked_input covers img_bgr obj obj_index all_objects) x y
  = pixel img_bgr x y.
Proof.
  intros Hbox Hx1 Hy1 Hx Hy Hfree.
  apply (isolation_keeps_target covers img_bgr all_objects obj_index obj
           x1 y1 x2 y2 x y); try done; lia.
Qed.

Lemma target_region_is_kept_witness :
  pixel (masked_input Demo.box_raster Demo.picture Demo.left_cat 0
           [Demo.left_cat; Demo.right_cat]) 1 2
  = pixel Demo.picture 1 2.
Proof.
  apply (target_region_is_kept Demo.box_raster Demo.picture
           [Demo.left_cat; Demo.right_cat] 0 Demo.left_cat 0 1 3 5 1 2).
  - reflexivity.
  - lia.
  - lia.
  - lia.
  - lia.
  - intros j other pts Hj Ho Hs. destruct j as [|[|j]]; [done| |done].
    injection Ho as <-. injection Hs as <-. reflexivity.
Defined.

End MaskingMore.

(** ** The values the verifier finds *)

Module LoaderFacts.
Import Measurement Verifier Loader VerifierMore.

Lemma pretty_N_go_head (c : Ascii.ascii) (x : N) (s s' : string) :
  (∀ d, pretty_N_char d ≠ c) →
  s ≠ String c s' → pretty_N_go x s ≠ String c s'.
Proof.
  intros Hc. revert s. induction (N.lt_wf_0 x) as [x _ IH]; intros s Hs.
  assert (x = 0 ∨ 0 < x)%N as [->|Hpos] by lia.
  - by rewrite pretty_N_go_0.
  - rewrite pretty_N_go_step by done. apply IH.
    { by apply N.div_lt. }
    intros [= E _]. by apply (Hc (x `mod` 10)%N).
Qed.

(** The numeral of an integer starts with a digit or the minus sign. *)
Lemma pretty_Z_head (c : Ascii.ascii) (n : Z) (s' : string) :
  (∀ d, pretty_N_char d ≠ c) → String c EmptyString ≠ "-"%string →
  pretty n ≠ String c s'.
Proof.
  intros Hc Hdash.
  assert (∀ p : positive, pretty p ≠ String c s') as Hpos.
  { intros p. unfold pretty, pretty_positive, pretty, pretty_N.
    rewrite decide_False by done. by apply pretty_N_go_head. }
  destruct n as [|p|p]; unfold pretty, pretty_Z.
  - intros [= E _]. by apply (Hc 0%N).
  - apply Hpos.
  - intros [= E _]. apply Hdash. by rewrite <- E.
Qed.

Lemma pretty_Z_not_None (n : Z) : pretty n ≠ "None"%string.
Proof.
  apply pretty_Z_head; [|done].
  intros d. unfold pretty_N_char. by repeat case_match.
Qed.

Lemma pretty_Z_not_unknown (n : Z) : pretty n ≠ "unknown"%string.
Proof.
  apply pretty_Z_head; [|done].
  intros d. unfold pretty_N_char. by repeat case_match.
Qed.

Lemma str_object_id_inj (a b : ObjectRecord) :
  str_object_id a = str_object_id b → object_id a = object_id b.
Proof.
  unfold str_object_id.
  destruct (object_id a) as [n|], (object_id b) as [m|]; try done.
  - intros H. f_equal. by apply (inj pretty).
  - intros H. by apply pretty_Z_not_None in H.
  - intros H. symmetry in H. by apply pretty_Z_not_None in H.
Qed.

Lemma pair_id_text_inj (a b : ObjectRecord) :
  str_id (id_or_unknown a) = str_id (id_or_unknown b) →
  object_id a = object_id b.
Proof.
  unfold id_or_unknown.
  destruct (object_id a) as [n|], (object_id b) as [m|]; simpl; try done.
  - intros H. f_equal. by apply (inj pretty).
  - intros H. by apply pretty_Z_not_unknown in H.
  - intros H. symmetry in H. by apply pretty_Z_not_unknown in H.
Qed.

(** The objects loop leaves the keys of the other images alone. *)
Lemma load_objects_other (img name s : string) (objs : list ObjectRecord)
    (m : gmap (string * string) Q) :
  img ≠ name →
  foldl (load_object img) m objs !! (name, s) = m !! (name, s).
Proof.
  intros Hne. revert m. induction objs as [|obj objs IH]; intros m; [done|].
  simpl. rewrite IH. unfold load_object.
  destruct (eyes_dist obj); [|done].
  apply lookup_insert_ne. congruence.
Qed.

Lemma load_objects_absent (img s : string) (objs : list ObjectRecord)
    (m : gmap (string * string) Q) :
  Forall (λ o, str_object_id o ≠ s) objs →
  foldl (load_object img) m objs !! (img, s) = m !! (img, s).
Proof.
  revert m. induction objs as [|obj objs IH]; intros m HF; [done|].
  apply Forall_cons in HF as [Hobj HF]. simpl. rewrite IH by done.
  unfold load_object. destruct (eyes_dist obj); [|done].
  apply lookup_insert_ne. congruence.
Qed.

Lemma load_objects_unique (img : string) (objs : list ObjectRecord)
    (m : gmap (string * string) Q) (j : nat) (obj : ObjectRecord) :
  NoDup (object_id <$> objs) →
  objs !! j = Some obj →
  foldl (load_object img) m objs !! (img, str_object_id obj)
  = match eyes_dist obj with
    | Some dist => Some dist
    | None => m !! (img, str_object_id obj)
    end.
Proof.
  revert m j. induction objs as [|o objs IH]; intros m j Hnd Hj; [done|].
  rewrite fmap_cons in Hnd. apply NoDup_cons in Hnd as [Hnotin Hnd].
  destruct j as [|j]; simpl in *.
  - injection Hj as ->. rewrite load_objects_absent.
    + unfold load_object. destruct (eyes_dist obj); [|done].
      apply lookup_insert_eq.
    + apply Forall_forall. intros o Ho Heq. apply Hnotin.
      apply str_object_id_inj in Heq. rewrite <- Heq.
      by apply list_elem_of_fmap_2.
  - rewrite (IH _ j) by done. destruct (eyes_dist obj); [done|].
    unfold load_object. destruct (eyes_dist o); [|done].
    apply lookup_insert_ne. intros [= Heq]. apply Hnotin.
    apply str_object_id_inj in Heq. rewrite Heq.
    apply list_elem_of_fmap_2. by eapply list_elem_of_lookup_2.
Qed.

Lemma load_pairs_other (img name : string) (key : string * string)
    (prs : list PairRecord) (m : gmap (string * (string * string)) Q) :
  img ≠ name →
  foldl (load_pair img) m prs !! (name, key) = m !! (name, key).
Proof.
  intros Hne. revert m. induction prs as [|p prs IH]; intros m; [done|].
  simpl. rewrite IH. unfold load_pair. apply lookup_insert_ne. congruence.
Qed.

Lemma load_pairs_absent (img : string) (key : string * string)
    (prs : list PairRecord) (m : gmap (string * (string * string)) Q) :
  key ∉ pair_key <$> prs →
  foldl (load_pair img) m prs !! (img, key) = m !! (img, key).
Proof.
  revert m. induction prs as [|p prs IH]; intros m Hnotin; [done|].
  rewrite fmap_cons, not_elem_of_cons in Hnotin. destruct Hnotin as [Hp Hn].
  simpl. rewrite IH by done. unfold load_pair.
  apply lookup_insert_ne. congruence.
Qed.

Lemma load_pairs_unique (img : string) (prs : list PairRecord)
    (m : gmap (string * (string * string)) Q) (p : PairRecord) :
  NoDup (pair_key <$> prs) →
  p ∈ prs →
  foldl (load_pair img) m prs !! (img, pair_key p)
  = Some (right_eye_dist p).
Proof.
  revert m. induction prs as [|q prs IH]; intros m Hnd Hp.
  { by apply elem_of_nil in Hp. }
  rewrite fmap_cons in Hnd. apply NoDup_cons in Hnd as [Hnotin Hnd].
  apply elem_of_cons in Hp as [->|Hp]; simpl.
  - rewrite load_pairs_absent by done. unfold load_pair.
    apply lookup_insert_eq.
  - by apply IH.
Qed.

(** The images loop leaves the keys of an image that is not in the
    document alone. *)
Lemma load_records_other (name : string) (data : Data) (maps : Maps) :
  name ∉ (data.*1) →
  let maps' := foldl load_record maps data in
  (∀ s, sys_individual_map maps' !! (name, s)
        = sys_individual_map maps !! (name, s)) ∧
  (∀ key, sys_pair_map maps' !! (name, key)
          = sys_pair_map maps !! (name, key)).
Proof.
  revert maps. induction data as [|[img r] data IH]; intros maps Hn; [done|].
  rewrite fmap_cons, not_elem_of_cons in Hn. destruct Hn as [Hne Hn].
  simpl in *. destruct (IH (load_record maps (img, r)) Hn) as [H1 H2].
  split.
  - intros s. rewrite H1. simpl. by apply load_objects_other.
  - intros key. rewrite H2. simpl. by apply load_pairs_other.
Qed.

Lemma lookup_split_NoDup (data : Data) (k : nat) (name : string)
    (r : AnnotationRecord) :
  NoDup (data.*1) → data !! k = Some (name, r) →
  ∃ pre post, data = pre ++ (name, r) :: post ∧
              (name ∉ pre.*1) ∧ (name ∉ post.*1).
Proof.
  intros Hnd Hk. exists (take k data), (drop (S k) data).
  assert (data = take k data ++ (name, r) :: drop (S k) data) as Heq.
  { by rewrite <- (take_drop_middle data k (name, r) Hk) at 1. }
  split; [done|]. rewrite Heq, fmap_app, fmap_cons in Hnd.
  apply NoDup_app in Hnd as (_ & Hdis & Hnd).
  apply NoDup_cons in Hnd as [Hpost _]. split; [|done].
  intros Hin. apply (Hdis _ Hin). left.
Qed.

Lemma load_objects_ext (name : string) (objs : list ObjectRecord)
    (m m' : gmap (string * string) Q) :
  (∀ s, m !! (name, s) = m' !! (name, s)) →
  ∀ s, foldl (load_object name) m objs !! (name, s)
       = foldl (load_object name) m' objs !! (name, s).
Proof.
  revert m m'. induction objs as [|o objs IH]; intros m m' Hm s; [done|].
  simpl. apply IH. intros s'. unfold load_object.
  destruct (eyes_dist o); [|done].
  destruct (decide (s' = str_object_id o)) as [->|Hne].
  - by rewrite !lookup_insert_eq.
  - rewrite !lookup_insert_ne by congruence. done.
Qed.

Lemma load_pairs_ext (name : string) (prs : list PairRecord)
    (m m' : gmap (string * (string * string)) Q) :
  (∀ key, m !! (name, key) = m' !! (name, key)) →
  ∀ key, foldl (load_pair name) m prs !! (name, key)
         = foldl (load_pair name) m' prs !! (name, key).
Proof.
  revert m m'. induction prs as [|p prs IH]; intros m m' Hm key; [done|].
  simpl. apply IH. intros key'. unfold load_pair.
  destruct (decide (key' = pair_key p)) as [->|Hne].
  - by rewrite !lookup_insert_eq.
  - rewrite !lookup_insert_ne by congruence. done.
Qed.

(** What the loader holds for an image is what the image's own record
    gives, image names being the keys of a dict. *)
Lemma load_record_at (data : Data) (k : nat) (name : string)
    (r : AnnotationRecord) :
  NoDup (data.*1) → data !! k = Some (name, r) →
  (∀ s, sys_individual_map (_load_system_json data) !! (name, s)
        = foldl (load_object name) ∅ (objects r) !! (name, s)) ∧
  (∀ key, sys_pair_map (_load_system_json data) !! (name, key)
          = foldl (load_pair name) ∅ (default [] (pairs r)) !! (name, key)).
Proof.
  intros Hnd Hk.
  destruct (lookup_split_NoDup _ _ _ _ Hnd Hk)
    as (pre & post & -> & Hpre & Hpost).
  unfold _load_system_json. rewrite foldl_app. simpl.
  set (maps := foldl load_record (mkMaps ∅ ∅) pre).
  destruct (load_records_other name pre (mkMaps ∅ ∅) Hpre) as [P1 P2].
  fold maps in P1, P2. simpl in P1, P2.
  destruct (load_records_other name post (load_record maps (name, r)) Hpost)
    as [Q1 Q2].
  split.
  - intros s. rewrite Q1. simpl. by apply load_objects_ext.
  - intros key. rewrite Q2. simpl. by apply load_pairs_ext.
Qed.

Lemma load_individual_lookup (data : Data) (k j : nat) (name : string)
    (r : AnnotationRecord) (obj : ObjectRecord) :
  NoDup (data.*1) →
  data !! k = Some (name, r) →
  NoDup (object_id <$> objects r) →
  objects r !! j = Some obj →
  sys_individual_map (_load_system_json data) !! (name, str_object_id obj)
  = eyes_dist obj.
Proof.
  intros Hnd Hk Hids Hj.
  destruct (load_record_at _ _ _ _ Hnd Hk) as [-> _].
  rewrite (load_objects_unique _ _ _ j) by done.
  by destruct (eyes_dist obj).
Qed.

Lemma load_pair_lookup (data : Data) (k : nat) (name : string)
    (r : AnnotationRecord) (prs : list PairRecord) (p : PairRecord) :
  NoDup (data.*1) →
  data !! k = Some (name, r) →
  pairs r = Some prs →
  NoDup (pair_key <$> prs) →
  p ∈ prs →
  sys_pair_map (_load_system_json data) !! (name, pair_key p)
  = Some (right_eye_dist p).
Proof.
  intros Hnd Hk Hprs Hkeys Hp.
  destruct (load_record_at _ _ _ _ Hnd Hk) as [_ ->].
  rewrite Hprs. simpl. by apply load_pairs_unique.
Qed.

Lemma lookup_actual_individual (maps : Maps) (row : GtRow) :
  Type_ row = "Individual"%string →
  lookup_actual (sys_individual_map maps) (sys_pair_map maps) row
  = sys_individual_map maps !! (Image_Name row, Obj_ID_1 row).
Proof. intros HT. unfold lookup_actual. by rewrite HT, decide_True. Qed.

Lemma lookup_actual_pair (maps : Maps) (row : GtRow) (id1 id2 : string) :
  Type_ row = "Pair"%string →
  (Obj_ID_1 row = id1 ∧ Obj_ID_2 row = id2) ∨
  (Obj_ID_1 row = id2 ∧ Obj_ID_2 row = id1) →
  lookup_actual (sys_individual_map maps) (sys_pair_map maps) row
  = sys_pair_map maps !! (Image_Name row, sorted_ids id1 id2).
Proof.
  intros HT Hids. unfold lookup_actual. rewrite HT.
  rewrite decide_False by done. rewrite decide_True by done.
  destruct Hids as [[-> ->]|[-> ->]]; [done|]. by rewrite sorted_ids_swap.
Qed.

(** Property X15.  Loading then looking up is a round trip for the
    individual distances: for a document with distinct image names and an
    image whose objects have distinct identifiers, an Individual row that
    names the image and the identifier of one of its objects finds that
    object's distance, and finds nothing when the object has none. *)
Theorem loader_finds_every_distance (data : Data) (k j : nat) (name : string)
    (r : AnnotationRecord) (obj : ObjectRecord) (row : GtRow) :
  NoDup (data.*1) →
  data !! k = Some (name, r) →
  NoDup (object_id <$> objects r) →
  objects r !! j = Some obj →
  Type_ row = "Individual"%string →
  Image_Name row = name →
  Obj_ID_1 row = str_object_id obj →
  let maps := _load_system_json data in
  lookup_actual (sys_individual_map maps) (sys_pair_map maps) row
  = eyes_dist obj.
Proof.
  intros Hnd Hk Hids Hj HT HI HO. simpl.
  rewrite lookup_actual_individual by done. rewrite HI, HO.
  by eapply load_individual_lookup.
Qed.

Lemma loader_finds_every_distance_witness :
  let maps := _load_system_json Scenario.measured in
  lookup_actual (sys_individual_map maps) (sys_pair_map maps)
                Scenario.individual_row
  = eyes_dist Scenario.measured_cat.
Proof.
  apply (loader_finds_every_distance Scenario.measured 0 0 "a.jpg"
           Scenario.measured_record Scenario.measured_cat
           Scenario.individual_row).
  - by_decide.
  - vm_compute. reflexivity.
  - by_decide.
  - vm_compute. reflexivity.
  - reflexivity.
  - reflexivity.
  - vm_compute. reflexivity.
Defined.

(** Property X16.  The same for the pair distances: when the pair
    records of an image have distinct keys, a Pair row that names the
    image and the two identifiers of a pair record, in either order, finds
    the distance of that record. *)
Theorem loader_finds_every_pair (data : Data) (k : nat) (name : string)
    (r : AnnotationRecord) (prs : list PairRecord) (p : PairRecord)
    (row : GtRow) :
  NoDup (data.*1) →
  data !! k = Some (name, r) →
  pairs r = Some prs →
  NoDup (pair_key <$> prs) →
  p ∈ prs →
  Type_ row = "Pair"%string →
  Image_Name row = name →
  (Obj_ID_1 row = str_id (obj_1_id p) ∧ Obj_ID_2 row = str_id (obj_2_id p)) ∨
  (Obj_ID_1 row = str_id (obj_2_id p) ∧ Obj_ID_2 row = str_id (obj_1_id p)) →
  let maps := _load_system_json data in
  lookup_actual (sys_individual_map maps) (sys_pair_map maps) row
  = Some (right_eye_dist p).
Proof.
  intros Hnd Hk Hprs Hkeys Hp HT HI Hids. simpl.
  rewrite (lookup_actual_pair _ _ _ _ HT Hids), HI.
  by eapply load_pair_lookup.
Qed.

Lemma loader_finds_every_pair_witness :
  let maps := _load_system_json Scenario.measured in
  lookup_actual (sys_individual_map maps) (sys_pair_map maps)
                Scenario.pair_row
  = Some (right_eye_dist Scenario.first_pair).
Proof.
  apply (loader_finds_every_pair Scenario.measured 0 "a.jpg"
           Scenario.measured_record
           (default [] (pairs Scenario.measured_record))
           Scenario.first_pair Scenario.pair_row).
  - by_decide.
  - vm_compute. reflexivity.
  - vm_compute. reflexivity.
  - by_decide.
  - vm_compute. left.
  - reflexivity.
  - reflexivity.
  - right. split; vm_compute; reflexivity.
Defined.

End LoaderFacts.

(** ** From measurement to verification *)

Module PipelineFacts.
Import Measurement MeasurementFacts Verifier Loader Invariants.
Import VerifierMore MeasurementMore LoaderFacts.

Lemma sorted_ids_eq (a b c d : string) :
  sorted_ids a b = sorted_ids c d → (a = c ∧ b = d) ∨ (a = d ∧ b = c).
Proof.
  unfold sorted_ids.
  destruct (String.leb a b), (String.leb c d); intros [= -> ->]; auto.
Qed.

Lemma NoDup_sorted_combinations (l : list string) :
  NoDup l →
  NoDup ((λ ab, sorted_ids ab.1 ab.2) <$> combinations2 l).
Proof.
  induction 1 as [|x t Hx Hnd IH]; simpl; [constructor|].
  rewrite fmap_app, <- list_fmap_compose. apply NoDup_app. split_and!.
  - apply NoDup_fmap_2_strong; [|done]. simpl.
    intros y y' Hy Hy' [[_ ?]|[-> <-]]%sorted_ids_eq; done.
  - intros key (y & -> & Hy)%list_elem_of_fmap
               ([a b] & Hab & Hin)%list_elem_of_fmap. simpl in *.
    apply elem_of_combinations2 in Hin as [Ha Hb].
    apply sorted_ids_eq in Hab as [[-> _]|[-> _]]; done.
  - done.
Qed.

Lemma elem_of_combinations2_filter {A : Type} (P : A → Prop)
    `{∀ x, Decision (P x)} (l : list A) (i j : nat) (a b : A) :
  (i < j)%nat → l !! i = Some a → l !! j = Some b → P a → P b →
  (a, b) ∈ combinations2 (filter P l).
Proof.
  revert i j. induction l as [|x t IH]; intros i j Hij Hi Hj Pa Pb; [done|].
  destruct j as [|j]; [lia|]. simpl in Hj. destruct i as [|i]; simpl in Hi.
  - injection Hi as ->. rewrite filter_cons_True by done. simpl.
    apply elem_of_app. left. apply list_elem_of_fmap_2.
    apply list_elem_of_filter. split; [done|].
    by eapply list_elem_of_lookup_2.
  - assert ((a, b) ∈ combinations2 (filter P t)) as Hin
      by (apply (IH i j); [lia|done..]).
    rewrite filter_cons. destruct (decide (P x)); [|done]. simpl.
    apply elem_of_app. by right.
Qed.

Lemma mapM_elem_of_l {A B : Type} (f : A → option B) (l : list A)
    (k : list B) (x : A) :
  mapM f l = Some k → x ∈ l → ∃ y, y ∈ k ∧ f x = Some y.
Proof.
  intros HM (i & Hi)%list_elem_of_lookup. apply mapM_Some_1 in HM.
  destruct (Forall2_lookup_l _ _ _ _ _ HM Hi) as (y & Hy & Hf).
  exists y. split; [|done]. by eapply list_elem_of_lookup_2.
Qed.

(** The keys under which the loader files the pair records of a measured
    record are distinct when the identifiers are. *)
Lemma measured_pair_keys (objs : list ObjectRecord) (prs : list PairRecord) :
  NoDup (object_id <$> objs) →
  mapM pair_record (combinations2 (filter two_eyes objs)) = Some prs →
  NoDup (pair_key <$> prs).
Proof.
  intros Hnd HM. set (Q := filter two_eyes objs) in *.
  set (sid := λ o : ObjectRecord, str_id (id_or_unknown o)).
  assert (pair_key <$> prs
          = (λ ab, sorted_ids ab.1 ab.2) <$> combinations2 (sid <$> Q)) as ->.
  { rewrite combinations2_fmap, <- list_fmap_compose.
    apply Forall2_fmap_eq. apply mapM_Some_1 in HM.
    eapply Forall2_impl; [exact HM|]. intros [a b] p Hp.
    apply pair_record_Some in Hp as (ra & rb & _ & _ & ->). done. }
  apply NoDup_sorted_combinations.
  apply NoDup_fmap_2_strong.
  - intros a b Ha Hb Heq. apply pair_id_text_inj in Heq.
    assert (NoDup (object_id <$> Q)) as HQ.
    { eapply sublist_NoDup; [exact Hnd|]. apply fmap_sublist.
      apply sublist_filter. }
    apply list_elem_of_lookup in Ha as [i Hi], Hb as [j Hj].
    assert (i = j) as ->; [|congruence].
    eapply NoDup_lookup; [exact HQ| |].
    + by rewrite list_lookup_fmap, Hi.
    + rewrite list_lookup_fmap, Hj. simpl. by rewrite Heq.
  - eapply sublist_NoDup; [|apply sublist_filter].
    by apply NoDup_fmap_1 in Hnd.
Qed.

(** Property X17.  What the measurement pass computed for an animal is
    what the verifier compares: in a document with distinct image names
    and distinct identifiers, an Individual row that names an object with
    two eye contours is never a miss; the value found for it is the
    rounded distance between the two landmarks the pass stored. *)
Theorem measured_distance_is_verified (data : Data) (k j : nat)
    (name : string) (r : AnnotationRecord) (obj : ObjectRecord)
    (row : GtRow) :
  usable_data data →
  NoDup (data.*1) →
  data !! k = Some (name, r) →
  NoDup (object_id <$> objects r) →
  objects r !! j = Some obj →
  two_eyes obj →
  Type_ row = "Individual"%string →
  Image_Name row = name →
  Obj_ID_1 row = str_object_id obj →
  ∃ data' cnt obj' l rr,
    measure data = Some (data', cnt) ∧
    Refiner.object_at data' k j = Some obj' ∧
    eye_L_center obj' = Some l ∧ eye_R_center obj' = Some rr ∧
    let maps := _load_system_json data' in
    lookup_actual (sys_individual_map maps) (sys_pair_map maps) row
    = Some (rounded_distance l rr).
Proof.
  intros Hu Hnd Hk Hids Hj H2 HT HI HO.
  destruct (measure_total _ Hu) as (data' & cnt & HM).
  pose proof (measured_names _ _ _ HM) as Hnames.
  pose proof HM as [HF _]%measure_Forall2.
  destruct (Forall2_lookup_l _ _ _ _ _ HF Hk) as ([n' r'] & Hk' & Hn & Hr).
  simpl in Hn, Hr. subst n'.
  destruct (measured_record_spec _ _ Hr) as (_ & Hobjs & _).
  destruct (Forall2_lookup_l _ _ _ _ _ Hobjs Hj) as (obj' & Hj' & Hm).
  destruct (measured_object_metrics _ _ Hm H2) as (l & rr & Hd & HL & HR).
  exists data', cnt, obj', l, rr. split_and!; try done.
  { unfold Refiner.object_at. by rewrite Hk'. }
  simpl. rewrite lookup_actual_individual by done. rewrite HI, HO.
  assert (str_object_id obj = str_object_id obj') as ->.
  { unfold str_object_id.
    by rewrite (proj2 (measured_object_fields _ _ Hm)). }
  rewrite <- Hd. eapply load_individual_lookup; [|exact Hk'| |exact Hj'].
  - by rewrite Hnames.
  - simpl. by rewrite (measured_ids _ _ Hobjs).
Qed.

Lemma measured_distance_is_verified_witness :
  ∃ data' cnt obj' l rr,
    measure Demo.document = Some (data', cnt) ∧
    Refiner.object_at data' 0 0 = Some obj' ∧
    eye_L_center obj' = Some l ∧ eye_R_center obj' = Some rr ∧
    let maps := _load_system_json data' in
    lookup_actual (sys_individual_map maps) (sys_pair_map maps)
                  Scenario.individual_row
    = Some (rounded_distance l rr).
Proof.
  apply (measured_distance_is_verified Demo.document 0 0 "a.jpg"
           Demo.image_record Scenario.first_animal Scenario.individual_row).
  - by_decide.
  - by_decide.
  - reflexivity.
  - by_decide.
  - reflexivity.
  - by_decide.
  - reflexivity.
  - reflexivity.
  - vm_compute. reflexivity.
Defined.

(** Property X18.  The same for pairs: for two objects of an image that
    both carry two eye contours, a Pair row that names their identifiers,
    in either order, finds the rounded distance between the right
    landmarks the pass stored for them. *)
Theorem measured_pair_is_verified (data : Data) (k i j : nat)
    (name : string) (r : AnnotationRecord) (a b : ObjectRecord)
    (row : GtRow) :
  usable_data data →
  NoDup (data.*1) →
  data !! k = Some (name, r) →
  Forall no_tmp (objects r) →
  NoDup (object_id <$> objects r) →
  (i < j)%nat →
  objects r !! i = Some a → objects r !! j = Some b →
  two_eyes a → two_eyes b →
  Type_ row = "Pair"%string →
  Image_Name row = name →
  (Obj_ID_1 row = str_id (id_or_unknown a) ∧
   Obj_ID_2 row = str_id (id_or_unknown b)) ∨
  (Obj_ID_1 row = str_id (id_or_unknown b) ∧
   Obj_ID_2 row = str_id (id_or_unknown a)) →
  ∃ data' cnt a' b' ra rb,
    measure data = Some (data', cnt) ∧
    Refiner.object_at data' k i = Some a' ∧
    Refiner.object_at data' k j = Some b' ∧
    eye_R_center a' = Some ra ∧ eye_R_center b' = Some rb ∧
    let maps := _load_system_json data' in
    lookup_actual (sys_individual_map maps) (sys_pair_map maps) row
    = Some (rounded_distance ra rb).
Proof.
  intros Hu Hnd Hk Hno Hids Hij Hi Hj Ha2 Hb2 HT HI Hrow.
  destruct (measure_total _ Hu) as (data' & cnt & HM).
  pose proof (measured_names _ _ _ HM) as Hnames.
  pose proof HM as [HF _]%measure_Forall2.
  destruct (Forall2_lookup_l _ _ _ _ _ HF Hk) as ([n' r'] & Hk' & Hn & Hr).
  simpl in Hn, Hr. subst n'.
  destruct (measured_record_spec _ _ Hr) as (_ & Hobjs & Hprs).
  destruct (Hprs Hno) as (prs & Hp & Hcomb).
  destruct (Forall2_lookup_l _ _ _ _ _ Hobjs Hi) as (a' & Hi' & Hma).
  destruct (Forall2_lookup_l _ _ _ _ _ Hobjs Hj) as (b' & Hj' & Hmb).
  destruct (measured_object_fields _ _ Hma) as [Hea Hia].
  destruct (measured_object_fields _ _ Hmb) as [Heb Hib].
  assert ((a', b') ∈ combinations2 (filter two_eyes (objects r'))) as Hin.
  { apply (elem_of_combinations2_filter _ _ i j); try done.
    - unfold two_eyes. by rewrite Hea.
    - unfold two_eyes. by rewrite Heb. }
  destruct (mapM_elem_of_l _ _ _ _ Hcomb Hin) as (p & Hpin & Hrec).
  apply pair_record_Some in Hrec as (ra & rb & Hra & Hrb & ->).
  exists data', cnt, a', b', ra, rb. split_and!; try done.
  { unfold Refiner.object_at. by rewrite Hk'. }
  { unfold Refiner.object_at. by rewrite Hk'. }
  simpl.
  assert (id_or_unknown a' = id_or_unknown a) as Eia
    by (unfold id_or_unknown; by rewrite Hia).
  assert (id_or_unknown b' = id_or_unknown b) as Eib
    by (unfold id_or_unknown; by rewrite Hib).
  rewrite (lookup_actual_pair _ _ _ _ HT Hrow), HI.
  rewrite <- Eia, <- Eib.
  apply (load_pair_lookup data' k name r' prs
           (mkPair (id_or_unknown a') (id_or_unknown b')
                   (rounded_distance ra rb))); try done.
  - by rewrite Hnames.
  - apply (measured_pair_keys (objects r')); [|done].
    by rewrite (measured_ids _ _ Hobjs).
Qed.

Lemma measured_pair_is_verified_witness :
  ∃ data' cnt a' b' ra rb,
    measure Demo.document = Some (data', cnt) ∧
    Refiner.object_at data' 0 0 = Some a' ∧
    Refiner.object_at data' 0 1 = Some b' ∧
    eye_R_center a' = Some ra ∧ eye_R_center b' = Some rb ∧
    let maps := _load_system_json data' in
    lookup_actual (sys_individual_map maps) (sys_pair_map maps)
                  Scenario.pair_row
    = Some (rounded_distance ra rb).
Proof.
  apply (measured_pair_is_verified Demo.document 0 0 1 "a.jpg"
           Demo.image_record Scenario.first_animal Scenario.second_animal
           Scenario.pair_row).
  - by_decide.
  - by_decide.
  - reflexivity.
  - by_decide.
  - by_decide.
  - lia.
  - reflexivity.
  - reflexivity.
  - by_decide.
  - by_decide.
  - reflexivity.
  - reflexivity.
  - right. split; vm_compute; reflexivity.
Defined.

End PipelineFacts.

(** ** The document the detection stage writes *)

Module DetectorFacts.
Import Measurement MeasurementFacts Detector Invariants.
Import MeasurementMore RefinerMore.

Lemma image_record_fresh (results : Results) :
  fresh_record (image_record results).
Proof.
  unfold image_record. destruct (orig_shape results) as [h w].
  destruct (masks results) as [dets|]; [|by repeat split].
  unfold fresh_record. simpl. split_and!; try done.
  - apply list_eq. intros i.
    rewrite !list_lookup_fmap, list_lookup_imap, length_imap.
    destruct (dets !! i) as [d|] eqn:Hd; simpl.
    + rewrite lookup_seq_lt by (by eapply lookup_lt_Some). simpl.
      unfold detected_object. by destruct (xyxy d) as [[[x1 y1] x2] y2].
    + rewrite lookup_seq_ge; [done|]. by apply lookup_ge_None.
  - apply Forall_lookup. intros i obj. rewrite list_lookup_imap.
    destruct (dets !! i) as [d|]; simpl; [|done]. intros [= <-].
    unfold detected_object. by destruct (xyxy d) as [[[x1 y1] x2] y2].
Qed.

Lemma dict_set_names (k : string) (v : AnnotationRecord) (d : Data) :
  (dict_set k v d).*1 = if decide (k ∈ d.*1) then d.*1 else d.*1 ++ [k].
Proof.
  induction d as [|[k' v'] d IH]; [done|]. cbn [dict_set].
  destruct (decide (k' = k)) as [->|Hne]; rewrite !fmap_cons; cbn [fst].
  - rewrite decide_True; [done|]. left.
  - rewrite IH. destruct (decide (k ∈ d.*1)) as [Hin|Hnin].
    + rewrite decide_True; [done|]. by right.
    + rewrite decide_False; [done|].
      rewrite elem_of_cons. intros [->|?]; done.
Qed.

Lemma dict_set_values (P : AnnotationRecord → Prop) (k : string)
    (v : AnnotationRecord) (d : Data) :
  P v → Forall (λ e, P e.2) d → Forall (λ e, P e.2) (dict_set k v d).
Proof.
  intros Hv. induction 1 as [|[k' v'] d Hx Hd IH]; simpl.
  - by repeat constructor.
  - destruct (decide (k' = k)); constructor; done.
Qed.



Section RunFacts.
Variable model : string → Results.

Lemma run_loop_spec (image_files : list string) (d : Data) :
  NoDup (d.*1) → Forall (λ e, fresh_record e.2) d →
  let d' := foldl (λ all_records img_file,
                     dict_set img_file (image_record (model img_file))
                              all_records) d image_files in
  NoDup (d'.*1) ∧ Forall (λ e, fresh_record e.2) d' ∧
  (∀ name, name ∈ d'.*1 ↔ name ∈ d.*1 ∨ name ∈ image_files).
Proof.
  revert d. induction image_files as [|f files IH]; intros d Hnd Hf; simpl.
  { split_and!; try done. intros name. rewrite elem_of_nil. tauto. }
  destruct (IH (dict_set f (image_record (model f)) d)) as (H1 & H2 & H3).
  - rewrite dict_set_names. destruct (decide (f ∈ d.*1)); [done|].
    apply NoDup_app. split_and!; [done| |apply NoDup_singleton].
    intros x Hx ->%list_elem_of_singleton. done.
  - apply dict_set_values; [apply image_record_fresh|done].
  - split_and!; try done. intros name. rewrite H3, dict_set_names.
    rewrite elem_of_cons.
    destruct (decide (f ∈ d.*1)) as [Hin|Hnin].
    + split; [tauto|]. intros [?|[->|?]]; auto.
    + rewrite elem_of_app, list_elem_of_singleton. tauto.
Qed.

Lemma run_fresh (image_files : list string) (data : Data) :
  run model image_files = Some data →
  NoDup (data.*1) ∧
  (∀ name, name ∈ data.*1 ↔ name ∈ image_files) ∧
  Forall (λ entry, fresh_record entry.2) data.
Proof.
  unfold run. destruct image_files as [|f files]; [done|]. intros [= <-].
  destruct (run_loop_spec (f :: files) []) as (H1 & H2 & H3);
    [constructor|constructor|].
  split_and!; try done. intros name. rewrite H3.
  rewrite elem_of_nil. tauto.
Qed.

(** Property X19.  The document the detection stage saves has one record
    for each image file and no other, under distinct names; in every
    record the animal count is the number of objects, the identifiers
    count the objects from zero, every object has an empty sequence of
    eye contours and no metric, and there is no pair list. *)
Theorem detection_output_fresh (image_files : list string) (data : Data) :
  run model image_files = Some data →
  NoDup (data.*1) ∧
  (∀ name, name ∈ data.*1 ↔ name ∈ image_files) ∧
  Forall (λ entry, fresh_record entry.2) data.
Proof. apply run_fresh. Qed.

End RunFacts.

Lemma detection_output_fresh_witness :
  let data := default [] (run Scenario.yolo ["a.jpg"; "b.jpg"]%string) in
  NoDup (data.*1) ∧
  (∀ name, name ∈ data.*1 ↔ name ∈ ["a.jpg"; "b.jpg"]%string) ∧
  Forall (λ entry, fresh_record entry.2) data.
Proof.
  apply (detection_output_fresh Scenario.yolo ["a.jpg"; "b.jpg"]%string).
  vm_compute. reflexivity.
Defined.



End DetectorFacts.

(** ** Selection and download *)

Module SelectorFacts.
Import Selector.

Section SelectFacts.
Variable getCatIds : list string → list Z.
Variable getImgIds : list Z → list Z.
Variable getAnnIds : Z → list Z → list Z.
Variable loadImgs : Z → ImageInfo.

Lemma select_loop_spec (cat_ids : list Z) (min_count max_images : Z)
    (img_ids : list Z) (selected : list ImageInfo) (count : Z) :
  select_loop getAnnIds loadImgs cat_ids min_count max_images img_ids
              selected count
  = selected ++
    (loadImgs <$>
       take (Z.to_nat (Z.max 1 (max_images - count)))
            (filter (λ img_id,
                       min_count ≤ Z.of_nat (length (getAnnIds img_id cat_ids)))
                    img_ids)).
Proof.
  revert selected count.
  induction img_ids as [|img_id rest IH]; intros selected count;
    cbn [select_loop].
  { by rewrite filter_nil, take_nil, fmap_nil, app_nil_r. }
  destruct (Z.leb_spec min_count
              (Z.of_nat (length (getAnnIds img_id cat_ids)))) as [Hq|Hq].
  - rewrite filter_cons_True by done.
    assert (Z.to_nat (Z.max 1 (max_images - count))
            = S (Z.to_nat (Z.max 1 (max_images - count)) - 1)) as -> by lia.
    rewrite firstn_cons, fmap_cons.
    destruct (Z.leb_spec max_images (count + 1)) as [Hm|Hm].
    + replace (Z.to_nat (Z.max 1 (max_images - count)) - 1)%nat with 0%nat
        by lia.
      by rewrite take_0.
    + rewrite IH, <- app_assoc. simpl. do 4 f_equal. lia.
  - rewrite filter_cons_False by lia. apply IH.
Qed.

(** Property X21.  The images selected are, in the order of the table,
    the first [max_images] images of the candidates that hold at least
    [min_count] annotations of the target categories; the limit is checked
    after an image is taken, so a limit of zero or less still selects the
    first such image. *)
Theorem selection_is_bounded_prefix (target_categories : list string)
    (min_count max_images : Z) :
  let cat_ids := getCatIds target_categories in
  select_images_by_category getCatIds getImgIds getAnnIds loadImgs
    target_categories min_count max_images
  = loadImgs <$>
      take (Z.to_nat (Z.max 1 max_images))
           (filter (λ img_id,
                      min_count ≤ Z.of_nat (length (getAnnIds img_id cat_ids)))
                   (getImgIds cat_ids)).
Proof.
  simpl. unfold select_images_by_category. rewrite select_loop_spec.
  simpl. by rewrite Z.sub_0_r.
Qed.

End SelectFacts.

Section DownloadFacts.
Variable Content : Type.
Variable World : Type.
Variable requests_get : World → string → option (Z * Content) * World.
Variable join : string → string.

Lemma download_one_spec (st : Progress Content World) (info : ImageInfo) :
  let st' := download_one requests_get join st info in
  (∀ p c, st.1.1 !! p = Some c → st'.1.1 !! p = Some c) ∧
  (∀ p, p ≠ join (file_name info) → st'.1.1 !! p = st.1.1 !! p) ∧
  st'.2 = (st.2 + if decide (is_Some (st'.1.1 !! join (file_name info)))
                  then 1 else 0)%nat.
Proof.
  destruct st as [[files w] n]. unfold download_one.
  destruct (decide (is_Some (files !! join (file_name info)))) as [Hex|Hno].
  { simpl. split_and!; try done. rewrite decide_True by done. lia. }
  destruct (requests_get w (coco_url info)) as [[[status content]|] w'].
  - destruct (status =? 200); simpl.
    + split_and!.
      * intros p c Hp. rewrite lookup_insert_ne; [done|].
        intros <-. apply Hno. by rewrite Hp.
      * intros p Hp. by rewrite lookup_insert_ne.
      * rewrite lookup_insert_eq. rewrite decide_True by done. lia.
    + split_and!; try done. rewrite decide_False by done. lia.
  - simpl. split_and!; try done. rewrite decide_False by done. lia.
Qed.

Lemma download_loop_spec (images_list : list ImageInfo)
    (st : Progress Content World) :
  let st' := foldl (download_one requests_get join) st images_list in
  (∀ p c, st.1.1 !! p = Some c → st'.1.1 !! p = Some c) ∧
  (∀ p, p ∉ (join ∘ file_name) <$> images_list →
        st'.1.1 !! p = st.1.1 !! p) ∧
  (st.2 ≤ st'.2 ≤ st.2 + length images_list)%nat ∧
  (NoDup ((join ∘ file_name) <$> images_list) →
   st'.2 = (st.2 + length (filter (λ info,
                                     is_Some (st'.1.1 !! join (file_name info)))
                                  images_list))%nat).
Proof.
  revert st. induction images_list as [|info rest IH]; intros st.
  { simpl. split_and!; try done; lia. }
  cbn [foldl].
  destruct (download_one_spec st info) as (Hkeep1 & Hoth1 & Hn1).
  set (st1 := download_one requests_get join st info) in *.
  destruct (IH st1) as (Hkeep & Hoth & Hbound & Hcount).
  set (st' := foldl (download_one requests_get join) st1 rest) in *.
  split_and!.
  - eauto.
  - intros p Hp. rewrite fmap_cons, not_elem_of_cons in Hp.
    destruct Hp as [Hne Hp]. rewrite Hoth by done. by apply Hoth1.
  - destruct (decide (is_Some (st1.1.1 !! join (file_name info)))); lia.
  - cbn [length].
    destruct (decide (is_Some (st1.1.1 !! join (file_name info)))); lia.
  - intros Hnd0. rewrite fmap_cons in Hnd0.
    apply NoDup_cons in Hnd0 as [Hnotin Hnd].
    rewrite (Hcount Hnd), Hn1.
    assert (st'.1.1 !! join (file_name info)
            = st1.1.1 !! join (file_name info)) as Heq by (by apply Hoth).
    rewrite filter_cons. rewrite Heq.
    destruct (decide (is_Some (st1.1.1 !! join (file_name info))));
      simpl; lia.
Qed.

(** Property X22.  Downloading never overwrites: every path that exists
    before the call exists after it with the same content, a path that is
    not the target of a listed image is as it was, and the count printed
    does not exceed the number of listed images. *)
Theorem download_keeps_existing_files (images_list : list ImageInfo)
    (files : gmap string Content) (w : World) :
  let res := download_images requests_get join images_list files w in
  let files' := res.1.1 in
  let success_count := res.2 in
  (∀ p c, files !! p = Some c → files' !! p = Some c) ∧
  (∀ p, p ∉ (join ∘ file_name) <$> images_list → files' !! p = files !! p) ∧
  (success_count ≤ length images_list)%nat.
Proof.
  destruct (download_loop_spec images_list (files, w, 0%nat))
    as (H1 & H2 & H3 & _).
  split_and!; try done. simpl in *. unfold download_images. lia.
Qed.

(** Property X23.  When the listed images have distinct target paths,
    the count printed is the number of listed images whose file is in the
    folder after the call, downloaded now or found there. *)
Theorem download_count_is_folder_content (images_list : list ImageInfo)
    (files : gmap string Content) (w : World) :
  NoDup ((join ∘ file_name) <$> images_list) →
  let res := download_images requests_get join images_list files w in
  let files' := res.1.1 in
  let success_count := res.2 in
  success_count
  = length (filter (λ info, is_Some (files' !! join (file_name info)))
                   images_list).
Proof.
  intros Hnd.
  destruct (download_loop_spec images_list (files, w, 0%nat))
    as (_ & _ & _ & H).
  apply (H Hnd).
Qed.

End DownloadFacts.

Lemma download_count_is_folder_content_witness :
  let res := download_images Scenario.network Scenario.in_folder
               Scenario.images ∅ 0%nat in
  res.2
  = length (filter (λ info,
                      is_Some (res.1.1 !! Scenario.in_folder (file_name info)))
                   Scenario.images).
Proof.
  apply (download_count_is_folder_content string nat Scenario.network
           Scenario.in_folder Scenario.images ∅ 0%nat).
  by_decide.
Defined.

End SelectorFacts.

(** ** The annotations of a measured frame *)

Module VisualizerFacts.
Import Measurement MeasurementFacts Visualizer Invariants MeasurementMore.

Lemma filter_unique_id (objs : list ObjectRecord) (a : ObjectRecord) (n : Z) :
  NoDup (object_id <$> objs) → a ∈ objs → object_id a = Some n →
  filter (λ obj, object_id obj = Some n) objs = [a].
Proof.
  induction objs as [|o objs IH]; intros Hnd Ha Hid.
  { by apply elem_of_nil in Ha. }
  rewrite fmap_cons in Hnd. apply NoDup_cons in Hnd as [Hnotin Hnd].
  assert (∀ b, b ∈ objs → object_id b ≠ object_id o) as Hother.
  { intros b Hb Heq. apply Hnotin. rewrite <- Heq.
    by apply list_elem_of_fmap_2. }
  apply elem_of_cons in Ha as [->|Ha].
  - rewrite filter_cons_True by done. f_equal.
    destruct (filter _ objs) as [|b rest] eqn:Hf; [done|]. exfalso.
    assert (b ∈ filter (λ obj, object_id obj = Some n) objs) as Hb
      by (rewrite Hf; left).
    apply list_elem_of_filter in Hb as [Hbn Hb].
    apply (Hother b Hb). congruence.
  - rewrite filter_cons_False; [by apply IH|].
    intros Ho. apply (Hother a Ha). congruence.
Qed.

Lemma obj_lookup_unique (objs : list ObjectRecord) (a : ObjectRecord) :
  NoDup (object_id <$> objs) → a ∈ objs → is_Some (object_id a) →
  obj_lookup objs (id_or_unknown a) = Some a.
Proof.
  intros Hnd Ha [n Hn]. unfold id_or_unknown, obj_lookup. rewrite Hn.
  by rewrite (filter_unique_id _ a n).
Qed.

Lemma pd_annotation_measured (obj obj' : ObjectRecord) :
  measured_object obj = Some obj' → no_tmp obj →
  two_eyes obj ∨ eyes_dist obj = None →
  (two_eyes obj' →
   ∃ a, pd_annotation obj' = Some [a] ∧ consistent a) ∧
  (¬ two_eyes obj' → pd_annotation obj' = Some []).
Proof.
  intros Hm Hno Hfresh.
  destruct (measured_object_fields _ _ Hm) as [He _].
  assert (two_eyes obj' ↔ two_eyes obj) as H2
    by (unfold two_eyes; by rewrite He).
  split.
  - intros H2'. apply H2 in H2'.
    destruct (measured_object_metrics _ _ Hm H2') as (l & r & Hd & HL & HR).
    eexists. unfold pd_annotation. rewrite Hd, HL, HR. simpl.
    split; [done|]. done.
  - intros Hn2. rewrite H2 in Hn2.
    rewrite (measured_object_other _ Hn2 Hno) in Hm. injection Hm as <-.
    destruct Hfresh as [?|Hd]; [done|]. unfold pd_annotation. by rewrite Hd.
Qed.

Lemma pd_calls_spec (objs : list ObjectRecord) :
  Forall (λ obj', (two_eyes obj' →
                   ∃ a, pd_annotation obj' = Some [a] ∧ consistent a) ∧
                  (¬ two_eyes obj' → pd_annotation obj' = Some [])) objs →
  ∃ pd, mapM pd_annotation objs = Some pd ∧
        Forall consistent (concat pd) ∧
        length (concat pd) = length (filter two_eyes objs).
Proof.
  induction 1 as [|o objs [Hyes Hnot] _ (pd & Hpd & Hc & Hlen)].
  { exists []. by repeat split. }
  destruct (decide (two_eyes o)) as [H2|H2].
  - destruct (Hyes H2) as (a & Ha & Hca). exists ([a] :: pd).
    rewrite filter_cons_True by done. split_and!.
    + apply mapM_Some. constructor; [done|by apply mapM_Some].
    + simpl. by constructor.
    + simpl. by rewrite Hlen.
  - exists ([] :: pd). rewrite filter_cons_False by done. split_and!.
    + apply mapM_Some. constructor; [by apply Hnot|by apply mapM_Some].
    + done.
    + done.
Qed.

Lemma rr_calls_spec (objs : list ObjectRecord) (prs : list PairRecord) :
  Forall (λ p, ∃ a, rr_annotation objs p = [a] ∧ consistent a) prs →
  Forall consistent (concat (rr_annotation objs <$> prs)) ∧
  length (concat (rr_annotation objs <$> prs)) = length prs.
Proof.
  induction 1 as [|p prs (a & Ha & Hc) _ [IH1 IH2]]; [done|].
  rewrite fmap_cons. simpl. rewrite Ha. simpl. split; [by constructor|].
  by rewrite IH2.
Qed.

(** Property X24.  On a record the measurement pass returned, for an
    image whose objects have distinct identifiers and carried no stale
    distance, drawing never fails on a missing key; it draws one
    annotation for every object with two eye contours and one for every
    pair of such objects, and the number in every label is the rounded
    distance between the end points of the line it labels. *)
Theorem measured_frame_is_consistent (data : Data) (k : nat) (name : string)
    (r : AnnotationRecord) :
  usable_data data →
  data !! k = Some (name, r) →
  Forall no_tmp (objects r) →
  Forall (λ obj, two_eyes obj ∨ eyes_dist obj = None) (objects r) →
  NoDup (object_id <$> objects r) →
  Forall (λ obj, is_Some (object_id obj)) (objects r) →
  ∃ data' cnt r' calls,
    measure data = Some (data', cnt) ∧
    data' !! k = Some (name, r') ∧
    draw_frame_results r' = Some calls ∧
    Forall consistent calls ∧
    length calls = (measurable r + choose2 (measurable r))%nat.
Proof.
  intros Hu Hk Hno Hfresh Hnd Hids.
  destruct (measure_total _ Hu) as (data' & cnt & HM).
  pose proof HM as [HF _]%measure_Forall2.
  destruct (Forall2_lookup_l _ _ _ _ _ HF Hk) as ([n' r'] & Hk' & Hn & Hr).
  simpl in Hn, Hr. subst n'.
  pose proof (measured_record_count _ _ Hno Hr) as Hcount.
  destruct (measured_record_spec _ _ Hr) as (_ & Hobjs & Hprs).
  destruct (Hprs Hno) as (prs & Hp & Hcomb).
  pose proof (measured_ids _ _ Hobjs) as Hids'.
  assert (length (filter two_eyes (objects r')) = measurable r) as Hq.
  { unfold measurable. symmetry. apply filter_length_Forall2.
    eapply Forall2_impl; [exact Hobjs|]. intros o o' Hm.
    apply measured_object_fields in Hm as [He _]. unfold two_eyes.
    by rewrite He. }
  destruct (pd_calls_spec (objects r')) as (pd & Hpd & Hpdc & Hpdl).
  { apply Forall_lookup. intros i obj' Hi'.
    destruct (Forall2_lookup_r _ _ _ _ _ Hobjs Hi') as (obj & Hi & Hm).
    apply (pd_annotation_measured obj); [done| |].
    - by eapply Forall_lookup_1 in Hno.
    - by eapply (Forall_lookup_1 _ _ _ _ Hfresh). }
  destruct (rr_calls_spec (objects r') prs) as [Hrrc Hrrl].
  { apply Forall_forall. intros p Hpin.
    destruct (mapM_elem_of _ _ _ _ Hcomb Hpin) as ([a b] & Hin & Hrec).
    apply pair_record_Some in Hrec as (ra & rb & Hra & Hrb & ->).
    apply elem_of_combinations2 in Hin as [Ha Hb].
    apply list_elem_of_filter in Ha as [_ Ha], Hb as [_ Hb].
    assert (∀ c, c ∈ objects r' → is_Some (object_id c)) as Hsome.
    { intros c (i & Hi')%list_elem_of_lookup.
      destruct (Forall2_lookup_r _ _ _ _ _ Hobjs Hi') as (o & Hi & Hm).
      rewrite (proj2 (measured_object_fields _ _ Hm)).
      by eapply (Forall_lookup_1 _ _ _ _ Hids). }
    eexists. unfold rr_annotation. simpl.
    rewrite !obj_lookup_unique; try done; try (by rewrite Hids'); auto.
    rewrite Hra, Hrb. split; [done|]. done. }
  exists data', cnt, r',
    (concat pd ++ concat (rr_annotation (objects r') <$> prs)).
  split_and!; try done.
  - unfold draw_frame_results. rewrite Hpd, Hp. done.
  - by apply Forall_app.
  - rewrite length_app, Hpdl, Hrrl, Hq. f_equal.
    unfold pair_count in Hcount. by rewrite Hp in Hcount.
Qed.

Lemma measured_frame_is_consistent_witness :
  ∃ data' cnt r' calls,
    measure Demo.document = Some (data', cnt) ∧
    data' !! 0%nat = Some ("a.jpg"%string, r') ∧
    draw_frame_results r' = Some calls ∧
    Forall consistent calls ∧
    length calls
    = (measurable Demo.image_record
       + choose2 (measurable Demo.image_record))%nat.
Proof.
  apply (measured_frame_is_consistent Demo.document 0 "a.jpg"
           Demo.image_record).
  - by_decide.
  - reflexivity.
  - by_decide.
  - by_decide.
  - by_decide.
  - by_decide.
Defined.

End VisualizerFacts.
